(** * DB48X: decimal engine, numeric parser and loop evaluation

    A shallow embedding of the variable-precision decimal code
    ([decimal.h], [decimal.cc]) and of the loop evaluator ([loops.cc]),
    followed by the properties established about them.

    Conventions of the embedding.
    - A decimal object is a record: its type tag (which carries the sign),
      its signed exponent and the list of its kigits, most significant
      first.  The 10-bit packing of [decimal::kigit] is modelled on bytes
      in module [packed]; it stores any value below 1024 unchanged
      ([packed_kigits_store]), and every kigit written by the arithmetic
      and by the parser is at most 1000, so the list holds what
      [kigit(base, i)] reads back.  The constructor from an integer, which
      can write more, goes through the bytes.
    - [size_t] indices and counts are [nat]; [int] exponents and [kint]
      ([uint16_t]) kigit values are [Z].  Stores into a [kint] go through
      [kint], the reduction modulo 2^16; [ularge] arithmetic goes through
      [ularge], the reduction modulo 2^64; the arithmetic on an exponent
      goes through [cint], the reduction to the 32 bits of an [int].
    - Allocation failures ([rt.allocate] returning [nullptr]) are not
      modelled: the heap is assumed large enough. *)

From Stdlib Require Import Ascii String.
From Stdlib Require Import ZArith List Bool Lia Lqa QArith Qround Qabs Qpower Zpow_facts.
From coqutil Require Import Z.bitblast.
Import ListNotations.
Open Scope Z_scope.

(** ** Object identifiers and handler results ([object.h]) *)

Inductive id : Set :=
| ID_integer
| ID_neg_integer
| ID_fraction
| ID_neg_fraction
| ID_decimal
| ID_neg_decimal
| ID_symbol
| ID_text
| ID_block
| ID_program.

Definition id_eqb (a b : id) : bool :=
  match a, b with
  | ID_integer, ID_integer
  | ID_neg_integer, ID_neg_integer
  | ID_fraction, ID_fraction
  | ID_neg_fraction, ID_neg_fraction
  | ID_decimal, ID_decimal
  | ID_neg_decimal, ID_neg_decimal
  | ID_symbol, ID_symbol
  | ID_text, ID_text
  | ID_block, ID_block
  | ID_program, ID_program => true
  | _, _ => false
  end.

(** Modelled from the spec: the enumeration order behind [is_real] lives in
    the identifier table, which is not part of the sources at hand; the spec
    gives real-types as integer, decimal and fraction types. *)
Definition is_real (ty : id) : bool :=
  match ty with
  | ID_integer | ID_neg_integer
  | ID_fraction | ID_neg_fraction
  | ID_decimal | ID_neg_decimal => true
  | _ => false
  end.

Inductive result : Set :=
| OK
| SKIP
| ERROR
| WARN.

Definition result_eqb (a b : result) : bool :=
  match a, b with
  | OK, OK | SKIP, SKIP | ERROR, ERROR | WARN, WARN => true
  | _, _ => false
  end.

(** ** Machine integers *)

Definition kint (z : Z) : Z := z mod 65536.
Definition ularge (z : Z) : Z := z mod 2 ^ 64.
Definition ularge_max : Z := 2 ^ 64 - 1.

(** The 32-bit [int], in two's complement: a result outside its range
    wraps around. *)
Definition cint (z : Z) : Z := (z + 2 ^ 31) mod 2 ^ 32 - 2 ^ 31.

(** ** Decimal objects ([decimal.h]) *)

Record decimal : Set := mk_decimal {
  type : id;
  exponent : Z;
  kigs : list Z
}.

Record settings : Set := mk_settings {
  Precision : nat;
  TooManyDigitsErrors : bool;
  ExponentSeparator : Z
}.

(** Array helpers: [kigit] is the read accessor [kigit(base, index)], [upd]
    the store [rb[i] = v]. *)
Definition kigit (base : list Z) (index : nat) : Z := nth index base 0.

Fixpoint upd (i : nat) (v : Z) (l : list Z) : list Z :=
  match l, i with
  | [], _ => []
  | _ :: r, O => v :: r
  | k :: r, S i' => k :: upd i' v r
  end.

(** The payload itself packs four kigits in five bytes.  [packed.kigit] is
    the read accessor on the payload bytes, [packed.set_kigit] the write
    accessor, [packed.store] the loop of the constructor
    [decimal(type, exp, nkigs, kigs)], [packed.required_memory] the size
    reserved for the kigits, and [packed.kigits] reads back the first [n]
    kigits. *)
Module packed.

Definition byte (z : Z) : Z := z mod 256.

Definition kigit (base : list Z) (index : nat) : Z :=
  let off := (index * 10 / 8)%nat in
  let index := Z.of_nat (index mod 4 * 2 + 2) in
  kint (Z.land (Z.lor (Z.shiftl (kint (nth off base 0)) index)
                      (Z.shiftr (nth (S off) base 0) (8 - index)))
               1023).

Definition set_kigit (base : list Z) (index : nat) (value : Z) : list Z :=
  let off := (index * 10 / 8)%nat in
  let index := Z.of_nat (index mod 4 * 2 + 2) in
  let b0 := byte (Z.lor (Z.land (nth off base 0) (Z.shiftl 255 (10 - index)))
                        (Z.shiftr value index)) in
  let base := upd off b0 base in
  let index := (8 - index) mod 8 in
  let b1 := byte (Z.lor (Z.land (nth (S off) base 0)
                                (Z.lnot (Z.shiftl 255 index)))
                        (byte (Z.shiftl value index))) in
  upd (S off) b1 base.

(** [for (uint i = 0; i < nkigs; i++) kigit(p, i, kigsp[i]);] *)
Fixpoint store (i : nat) (kigsp : list Z) (p : list Z) : list Z :=
  match kigsp with
  | [] => p
  | k :: r => store (S i) r (set_kigit p i k)
  end.

Definition required_memory (n : nat) : nat := ((n * 10 + 7) / 8)%nat.

Definition kigits (p : list Z) (n : nat) : list Z := map (kigit p) (seq 0 n).

Definition bytes_ok (p : list Z) : Prop := Forall (fun b => 0 <= b < 256) p.

End packed.

(** [while (rs && rb[rs-1] == 0) rs--;] *)
Fixpoint strip_trailing (rb : list Z) : list Z :=
  match rb with
  | [] => []
  | k :: r =>
      match strip_trailing r with
      | [] => if k =? 0 then [] else [k]
      | r' => k :: r'
      end
  end.

(** [while (rs && *rb == 0) { xe -= 3; rb++; rs--; }]; [xe] is an
    [int]. *)
Fixpoint strip_leading (xe : Z) (rb : list Z) : Z * list Z :=
  match rb with
  | [] => (xe, [])
  | k :: r => if k =? 0 then strip_leading (cint (xe - 3)) r else (xe, rb)
  end.

(** The loop [rb[ko] = (rb[ko] * hmul + next / lmul) % 1000] for ascending
    [ko]: [rb[ko + 1] ] is read before it is overwritten. *)
Fixpoint shift_left_digits (hmul lmul : Z) (rb : list Z) : list Z :=
  match rb with
  | [] => []
  | k :: r => (k * hmul + hd 0 r / lmul) mod 1000 :: shift_left_digits hmul lmul r
  end.

(** The loop [rb[ko] = rb[ko] / hmul + (above % hmul) * lmul] for descending
    [ko], where [above] is [rb[ko-1] ], not yet overwritten, or the carry
    when [ko] is 0. *)
Fixpoint shift_right_digits (hmul lmul above : Z) (rb : list Z) : list Z :=
  match rb with
  | [] => []
  | k :: r =>
      kint (k / hmul + (above mod hmul) * lmul) :: shift_right_digits hmul lmul k r
  end.

(** [hmul *= 10; expincr++] while [carry >= hmul]; [hmul] is a [kint], so
    the loop ends after at most five rounds. *)
Fixpoint carry_width (fuel : nat) (carry hmul : Z) (expincr : Z) : Z * Z :=
  match fuel with
  | O => (hmul, expincr)
  | S f =>
      if hmul <=? carry
      then carry_width f carry (kint (hmul * 10)) (expincr + 1)
      else (hmul, expincr)
  end.

(** The value a decimal stands for: sign * m * 10^exponent, where
    m = sum of kigit i times 1000^-(i+1). *)
Fixpoint mantissa (ks : list Z) : Q :=
  match ks with
  | [] => 0%Q
  | k :: r => ((inject_Z k + mantissa r) / inject_Z 1000)%Q
  end.

Definition sign_of (ty : id) : Q :=
  if id_eqb ty ID_neg_decimal then (-1)%Q else 1%Q.

Definition value (d : decimal) : Q :=
  (sign_of (type d) * mantissa (kigs d) * inject_Z 10 ^ exponent d)%Q.

(** A well-formed decimal has a decimal tag and kigits in 0..999. *)
Definition kigits_ok (ks : list Z) : Prop :=
  Forall (fun k => 0 <= k < 1000) ks.

Definition is_decimal (ty : id) : bool :=
  id_eqb ty ID_decimal || id_eqb ty ID_neg_decimal.

Definition wf (d : decimal) : Prop :=
  is_decimal (type d) = true /\ kigits_ok (kigs d).

(** Invariant 6 of the data model: leading kigit in 100..999, trailing
    kigit nonzero, unless there is no kigit at all. *)
Definition normalizedb (d : decimal) : bool :=
  match kigs d with
  | [] => true
  | k :: _ => (100 <=? k) && (k <=? 999) && negb (last (kigs d) 0 =? 0)
  end.

Inductive class_type : Set :=
| negativeNormal
| negativeSubnormal
| negativeZero
| positiveZero
| positiveSubnormal
| positiveNormal
| negativeInfinity
| positiveInfinity.

(** The value of the enumerator [infinity] (1005). *)
Definition infinity : Z := 1005.

Module decimal.

Definition negtype (ty : id) : id :=
  if id_eqb ty ID_decimal then ID_neg_decimal else ID_decimal.

Definition neg (x : decimal) : decimal :=
  mk_decimal (negtype (type x)) (exponent x) (kigs x).

Definition is_zero (x : decimal) : bool :=
  (length (kigs x) =? 0)%nat.

Definition is_one (x : decimal) : bool :=
  if id_eqb (type x) ID_neg_decimal then false
  else
    (exponent x =? 1) && (length (kigs x) =? 1)%nat
    && (kigit (kigs x) 0 =? 100).

Definition is_negative (x : decimal) : bool :=
  if id_eqb (type x) ID_decimal then false
  else negb (length (kigs x) =? 0)%nat.

Definition fpclass (x : decimal) : class_type :=
  let neg := id_eqb (type x) ID_neg_decimal in
  if (length (kigs x) =? 0)%nat
  then (if neg then negativeZero else positiveZero)
  else
    let d := kigit (kigs x) 0 in
    if (1000 <=? d) && (d =? infinity)
    then (if neg then negativeInfinity else positiveInfinity)
    else if d <? 100
    then (if neg then negativeSubnormal else positiveSubnormal)
    else (if neg then negativeNormal else positiveNormal).

(** *** Comparison *)

(** The loop over the common kigits of [compare]. *)
Fixpoint compare_kigits (sign : Z) (xb yb : list Z) : option Z :=
  match xb, yb with
  | xk :: xr, yk :: yr =>
      let diff := xk - yk in
      if diff =? 0 then compare_kigits sign xr yr else Some (sign * diff)
  | _, _ => None
  end.

(** [compare] on two objects. *)
Definition compare_objects (x y : decimal) : Z :=
  let xty := type x in
  let yty := type y in
  if negb (id_eqb xty yty)
  then Z.b2z (id_eqb xty ID_decimal) - Z.b2z (id_eqb yty ID_decimal)
  else
    let sign := if id_eqb xty ID_neg_decimal then -1 else 1 in
    let xe := exponent x in
    let ye := exponent y in
    if negb (xe =? ye)
    then cint (sign * cint (xe - ye))
    else
      match compare_kigits sign (kigs x) (kigs y) with
      | Some r => r
      | None =>
          let xs := Z.of_nat (length (kigs x)) in
          let ys := Z.of_nat (length (kigs y)) in
          if negb (xs =? ys) then sign * (xs - ys) else 0
      end.

(** [compare] on two pointers; [None] is [nullptr].  Two equal non-null
    pointers designate one object, on which [compare_objects] is 0 as well
    (lemma [compare_objects_same]), so the early exit on identical pointers
    needs no case of its own. *)
Definition compare (x y : option decimal) : Z :=
  match x, y with
  | None, None => 0
  | None, Some _ => 0 - 1
  | Some _, None => 1 - 0
  | Some x', Some y' => compare_objects x' y'
  end.

Definition eq (x y : decimal) : bool := compare (Some x) (Some y) =? 0.
Definition lt (x y : decimal) : bool := compare (Some x) (Some y) <? 0.
Definition gt (x y : decimal) : bool := compare (Some x) (Some y) >? 0.

(** *** Conversion to machine integers *)

(** [while (xp) { if (xp & 1) pow *= mul; mul = mul * mul; xp /= 2; }] on
    [ularge] values; [xp] is a 32-bit [uint], so 32 rounds exhaust it. *)
Fixpoint power_loop (fuel : nat) (xp pow mul : Z) : Z :=
  match fuel with
  | O => pow
  | S f =>
      if xp =? 0 then pow
      else
        let pow' := if Z.odd xp then ularge (pow * mul) else pow in
        power_loop f (xp / 2) pow' (ularge (mul * mul))
  end.

(** [for (m = 0; m < nkigits && pow; m++)] of [as_unsigned]. *)
Fixpoint unsigned_loop (ks : list Z) (res pow : Z) : Z :=
  match ks with
  | [] => res
  | d :: r =>
      if pow =? 0 then res
      else
        let next := ularge (res + ularge (d * pow) / 1000) in
        if next <? res then ularge_max
        else unsigned_loop r next (pow / 1000)
  end.

Definition as_unsigned (magnitude : bool) (x : decimal) : Z :=
  let exp := exponent x in
  if (exp <? 0) || (negb magnitude && id_eqb (type x) ID_neg_decimal)
  then 0
  else
    let xp := exp mod 2 ^ 32 in
    let pow := power_loop 32 xp 1 10 in
    if pow =? 0 then ularge_max
    else unsigned_loop (kigs x) 0 pow.


(** *** Addition, subtraction, multiplication *)

Section Arithmetic.

Variable Settings : settings.

Definition hmul_of (mod3 : Z) : Z :=
  if mod3 =? 2 then 100 else if mod3 =? 1 then 10 else 1.

(** Body of the addition loop at index [ko]: the sum placed in [xk] before
    it is split into [rb[ko] ] and the next carry. *)
Definition add_kigit (xb yb : list Z) (kshift : nat) (mod3 hmul lmul : Z)
  (ko : nat) (carry : Z) : Z :=
  let xs := length xb in
  let ys := length yb in
  let xk := if (ko <? xs)%nat then kigit xb ko else 0 in
  let xk :=
    if (kshift <=? ko)%nat then
      let yo := (ko - kshift)%nat in
      let yk := if (yo <? ys)%nat then kigit yb yo else 0 in
      let xk := kint (xk + yk / hmul) in
      if negb (mod3 =? 0) && (kshift <? ko)%nat && (yo - 1 <? ys)%nat
      then kint (xk + (kigit yb (yo - 1) mod hmul) * lmul)
      else xk
    else xk in
  kint (xk + carry).

(** [while (ko-- > 0)]: the array is filled from its last index down. *)
Fixpoint add_loop (xb yb : list Z) (kshift : nat) (mod3 hmul lmul : Z)
  (ko : nat) (rb : list Z) (carry : Z) : list Z * Z :=
  match ko with
  | O => (rb, carry)
  | S ko' =>
      let xk := add_kigit xb yb kshift mod3 hmul lmul ko' carry in
      add_loop xb yb kshift mod3 hmul lmul ko' (xk mod 1000 :: rb) (xk / 1000)
  end.

Definition add (x y : decimal) : decimal :=
  let ty := type x in
  let lt := exponent x <? exponent y in
  let xe := if lt then exponent y else exponent x in
  let ye := if lt then exponent x else exponent y in
  let xb := if lt then kigs y else kigs x in
  let yb := if lt then kigs x else kigs y in
  let xs := length xb in
  let ys := length yb in
  let yshift := Z.to_nat (xe - ye) in
  let kshift := (yshift / 3)%nat in
  let mod3 := Z.of_nat (yshift mod 3) in
  let ps := ((Precision Settings + 2) / 3)%nat in
  let rs := Nat.min ps (Nat.max xs (ys + (yshift + 2) / 3)) in
  if (rs <? kshift)%nat then (if lt then y else x)
  else
    let hmul := hmul_of mod3 in
    let lmul := kint (1000 / hmul) in
    let '(rb, carry) := add_loop xb yb kshift mod3 hmul lmul rs [] 0 in
    let '(xe, rb) :=
      if negb (carry =? 0) then
        let '(hmul, expincr) := carry_width 5 carry 10 1 in
        let lmul := kint (1000 / hmul) in
        (cint (xe + expincr), shift_right_digits hmul lmul carry rb)
      else (xe, rb) in
    mk_decimal ty xe (strip_trailing rb).

(** Body of the subtraction loop at index [ko]: the kigit stored in
    [rb[ko] ] and the borrow passed on. *)
Definition sub_kigit (xb yb : list Z) (kshift : nat) (mod3 hmul lmul : Z)
  (ko : nat) (carry : Z) : Z * Z :=
  let xs := length xb in
  let ys := length yb in
  let xk := if (ko <? xs)%nat then kigit xb ko else 0 in
  let yk := carry in
  let yk :=
    if (kshift <=? ko)%nat then
      let yo := (ko - kshift)%nat in
      if (yo <? ys)%nat then
        let yk := kint (yk + kigit yb yo / hmul) in
        if negb (mod3 =? 0) && (kshift <? ko)%nat && (yo - 1 <? ys)%nat
        then kint (yk + kigit yb (yo - 1) mod hmul * lmul)
        else yk
      else yk
    else yk in
  let carry := Z.b2z (xk <? yk) in
  let xk := if negb (carry =? 0) then kint (xk + 1000) else xk in
  (kint (xk - yk), carry).

Fixpoint sub_loop (xb yb : list Z) (kshift : nat) (mod3 hmul lmul : Z)
  (ko : nat) (rb : list Z) (carry : Z) : list Z * Z :=
  match ko with
  | O => (rb, carry)
  | S ko' =>
      let '(k, carry') := sub_kigit xb yb kshift mod3 hmul lmul ko' carry in
      sub_loop xb yb kshift mod3 hmul lmul ko' (k :: rb) carry'
  end.

(** [rb[ko] = rev - rb[ko] ] with [rev] 1000 at the last index and 999 at
    all others. *)
Fixpoint complement (rb : list Z) : list Z :=
  match rb with
  | [] => []
  | [k] => [kint (1000 - k)]
  | k :: r => kint (999 - k) :: complement r
  end.

Definition sub (x y : decimal) : decimal :=
  let ty := type x in
  let lt := exponent x <? exponent y in
  let xe := if lt then exponent y else exponent x in
  let ye := if lt then exponent x else exponent y in
  let xb := if lt then kigs y else kigs x in
  let yb := if lt then kigs x else kigs y in
  let xs := length xb in
  let ys := length yb in
  let yshift := Z.to_nat (xe - ye) in
  let kshift := (yshift / 3)%nat in
  let mod3 := Z.of_nat (yshift mod 3) in
  let ps := ((Precision Settings + 2) / 3)%nat in
  let rs := Nat.min ps (Nat.max xs (ys + (yshift + 2) / 3)) in
  if (rs <? kshift)%nat then (if lt then neg y else x)
  else
    let hmul := hmul_of mod3 in
    let lmul := kint (1000 / hmul) in
    let '(rb, carry) := sub_loop xb yb kshift mod3 hmul lmul rs [] 0 in
    let '(rb, lt) :=
      if negb (carry =? 0) then (complement rb, negb lt) else (rb, lt) in
    let '(xe, rb) := strip_leading xe rb in
    let '(xe, rb) :=
      match rb with
      | k :: _ =>
          if k <? 100 then
            let xe := cint (xe - (1 + Z.b2z (k <? 10))) in
            let hmul := if k <? 10 then 100 else 10 in
            let lmul := kint (1000 / hmul) in
            let rb := shift_left_digits hmul lmul rb in
            (* [xe -= 1 + *rb < 10;] parses as [xe -= ((1 + *rb) < 10)] *)
            (cint (xe - Z.b2z (1 + hd 0 rb <? 10)), rb)
          else (xe, rb)
      | [] => (xe, rb)
      end in
    let xe := if (length rb =? 0)%nat then 0 else xe in
    let ty := if lt then negtype ty else ty in
    mk_decimal ty xe (strip_trailing rb).

(** [while (rk) { rk += rb[ri]; rb[ri] = rk % 1000; rk /= 1000;
    if (ri-- == 0) break; }] returning the array and what is left in [rk]. *)
Fixpoint mul_carry (ri : nat) (rk : Z) (rb : list Z) : list Z * Z :=
  if rk =? 0 then (rb, 0)
  else
    let rk1 := rk + kigit rb ri in
    let rb1 := upd ri (rk1 mod 1000) rb in
    let rk2 := rk1 / 1000 in
    match ri with
    | O => (rb1, rk2)
    | S ri' => mul_carry ri' rk2 rb1
    end.

(** [for (yi = 0; yi < ys; yi++)] with its [break] when [ri >= rs]. *)
Fixpoint mul_row (rs : nat) (xk : Z) (xi : nat) (yb : list Z) (yi : nat)
  (rb : list Z) (carry : Z) : list Z * Z :=
  match yb with
  | [] => (rb, carry)
  | yk :: yr =>
      let ri := (xi + yi)%nat in
      if (rs <=? ri)%nat then (rb, carry)
      else
        let '(rb', rk) := mul_carry ri (xk * yk) rb in
        mul_row rs xk xi yr (S yi) rb' (carry + rk)
  end.

(** [for (xi = 0; xi < xs; xi++)]. *)
Fixpoint mul_rows (rs : nat) (xb : list Z) (xi : nat) (yb : list Z)
  (rb : list Z) (carry : Z) : list Z * Z :=
  match xb with
  | [] => (rb, carry)
  | xk :: xr =>
      let '(rb', carry') := mul_row rs xk xi yb 0 rb carry in
      mul_rows rs xr (S xi) yb rb' carry'
  end.

(** [while (overflow && ri --> 0) { overflow = ++rb[ri] >= 1000;
    if (overflow) rb[ri] %= 1000; }] *)
Fixpoint mul_round (ri : nat) (overflow : bool) (rb : list Z) : list Z * bool :=
  if overflow then
    match ri with
    | O => (rb, true)
    | S ri' =>
        let v := kint (kigit rb ri' + 1) in
        let ov := 1000 <=? v in
        mul_round ri' ov (upd ri' (if ov then v mod 1000 else v) rb)
    end
  else (rb, false).

(** [while (carry)]: round on the last kigit, shift the array by one kigit
    and put the carry on top.  [carry] is a 32-bit [uint] divided by 1000
    in each round, so four rounds exhaust it. *)
Fixpoint mul_top (fuel : nat) (rs : nat) (rb : list Z) (re carry : Z)
  : list Z * Z :=
  match fuel with
  | O => (rb, re)
  | S f =>
      if carry =? 0 then (rb, re)
      else
        let ri := (rs - 1)%nat in
        let '(rb1, overflow) := mul_round ri (500 <=? kigit rb ri) rb in
        let carry1 := if overflow then carry + 1 else carry in
        let rb2 := carry1 mod 1000 :: removelast rb1 in
        mul_top f rs rb2 (cint (re + 3)) (carry1 / 1000)
  end.

(** [if (rs && *rb < 100)]: strip up to two leading zero digits, in
    [mul]. *)
Definition strip_digits (re : Z) (rb : list Z) : Z * list Z :=
  match rb with
  | k :: _ =>
      if k <? 100 then
        let re := cint (re - (1 + Z.b2z (k <? 10))) in
        let hmul := if k <? 10 then 100 else 10 in
        let lmul := 1000 / hmul in
        (re, shift_left_digits hmul lmul rb)
      else (re, rb)
  | [] => (re, rb)
  end.

Definition mul (x y : decimal) : decimal :=
  let xe := exponent x in
  let ye := exponent y in
  let ty := if id_eqb (type x) (type y) then ID_decimal else ID_neg_decimal in
  let xb := kigs x in
  let yb := kigs y in
  let xs := length xb in
  let ys := length yb in
  let re := cint (cint (xe + ye) - 3) in
  let ps := ((Precision Settings + 2) / 3)%nat in
  let rs := Nat.min ps (xs + ys + 1) in
  let rb := repeat 0 rs in
  let '(rb, carry) := mul_rows rs xb 0 yb rb 0 in
  let '(rb, re) := mul_top 4 rs rb re carry in
  let '(re, rb) := strip_leading re rb in
  let '(re, rb) := strip_digits re rb in
  mk_decimal ty re (strip_trailing rb).

End Arithmetic.

Definition is_negative_or_zero (x : decimal) : bool :=
  if id_eqb (type x) ID_neg_decimal then true
  else (length (kigs x) =? 0)%nat.

(** *** Construction from an integer ([decimal.h]) *)

Section FromInteger.

(** The constructor [decimal(type, value, exp)] is a template over the
    integer type [Int] of [value], [copy], [mul] and [div]; [Int z] is the
    conversion of [z] to that type.  Divisions are those of C, which
    truncate towards zero. *)
Variable Int : Z -> Z.

(** [while (copy) { exp++; copy /= 10; if (mul > 1) mul /= 10; else
    div *= 10; }], returning [exp], [mul] and [div].  [copy] loses a
    decimal digit in each round, so 20 rounds exhaust an integer of 64
    bits. *)
Fixpoint scale_loop (fuel : nat) (copy exp mul div : Z) : Z * Z * Z :=
  match fuel with
  | O => (exp, mul, div)
  | S f =>
      if copy =? 0 then (exp, mul, div)
      else
        let exp := exp + 1 in
        let copy := Z.quot copy 10 in
        if 1 <? mul then scale_loop f copy exp (Z.quot mul 10) div
        else scale_loop f copy exp mul (Int (div * 10))
  end.

(** [for (i = 0; i < nkigits; i++) { kigit(p, i, (value * mul / div) % 1000);
    div = div / 1000; }], returning the kigits written.  [None]: [div] is
    0 at the division, which the language leaves undefined. *)
Fixpoint integer_kigits (nkigits : nat) (value mul div : Z)
  : option (list Z) :=
  match nkigits with
  | O => Some []
  | S n =>
      if div =? 0 then None
      else
        let k := kint (Z.rem (Z.quot (Int (value * mul)) div) 1000) in
        match integer_kigits n value mul (Z.quot div 1000) with
        | Some r => Some (k :: r)
        | None => None
        end
  end.

(** [required_memory(type, value, exp)] counts the digits of [value] in
    [iexp] and reserves the bytes of [(iexp + 2) / 3] kigits (the bytes of
    the tag, of the exponent and of the kigit count are not modelled). *)
Fixpoint count_digits (fuel : nat) (value iexp : Z) : Z :=
  match fuel with
  | O => iexp
  | S f =>
      if value =? 0 then iexp
      else count_digits f (Z.quot value 10) (iexp + 1)
  end.

Definition required_memory (value : Z) : nat :=
  packed.required_memory (Z.to_nat ((count_digits 20 value 0 + 2) / 3)).

(** The constructor itself; [nkigits] is a [uint].  Each kigit goes
    through the write accessor into the payload, and the kigits of the
    object are what the read accessor finds there: a [kint] above 1023,
    which a negative [value] gives, leaves its low ten bits and spills
    into the kigit before it.  Every bit that is read back has been
    written, so the payload starts from zeroes here.  [None] also when
    the kigits do not fit the bytes reserved, where the writes run past
    the object. *)
Definition construct (ty : id) (value exp : Z) : option decimal :=
  let size := required_memory value in
  let '(exp, mul, div) := scale_loop 20 value exp 1000 1 in
  let nkigits := Z.to_nat (Z.quot (exp + 2) 3 mod 2 ^ 32) in
  match integer_kigits nkigits value mul div with
  | Some ks =>
      if (size <? packed.required_memory nkigits)%nat then None
      else
        let p := packed.store 0 ks (repeat 0 size) in
        Some (mk_decimal ty exp (packed.kigits p nkigits))
  | None => None
  end.

End FromInteger.

(** *** Rounding towards zero *)

(** What [round_to_zero] does to the last kigit it keeps. *)
Definition round_last (rm k : Z) : Z :=
  if rm =? 0 then 0
  else if rm =? 1 then kint (k - k mod 100)
  else if rm =? 2 then kint (k - k mod 10)
  else k.

(** [round_to_zero]; [rt.make<decimal>(0)] is the constructor from the
    [int] 0. *)
Definition round_to_zero (x : decimal) (to_exp : Z) : option decimal :=
  let exp := exponent x in
  let nkigits := length (kigs x) in
  let bp := kigs x in
  let ty := type x in
  if exp <? to_exp then construct cint ID_decimal 0 0
  else
    let zeroed := Z.to_nat (Z.quot (exp - to_exp) 3) in
    if (nkigits <? zeroed)%nat then construct cint ID_decimal 0 0
    else
      let nkigits := (nkigits - zeroed)%nat in
      let rm := Z.rem (exp - to_exp) 3 in
      Some (mk_decimal ty exp
              (map (fun i =>
                      let k := kigit bp i in
                      if (i =? nkigits - 1)%nat then round_last rm k else k)
                   (seq 0 nkigits))).

End decimal.

(** ** Parsing a decimal number ([PARSE_BODY(decimal)]) *)

(** The parse context: the text buffer, the length to parse, and the
    precedence level.  The buffer is a C string: a read past its end yields
    the terminating NUL.  ([p_length] is the field [length].) *)
Record parser : Set := mk_parser {
  source : list Z;
  p_length : nat;
  precedence : Z
}.

Definition byte_at (src : list Z) (s : nat) : Z := nth s src 0.

Definition is_digit (c : Z) : bool := (48 <=? c) && (c <=? 57).

(** Modelled from the spec: [utf8_codepoint] and [utf8_next] belong to the
    UTF-8 utilities, which are not part of the sources at hand; the spec
    gives the standard decoding, 1 to 4 bytes selected by the high bits of
    the first byte. *)
Definition utf8_size (c : Z) : nat :=
  if c <? 128 then 1
  else if Z.land c 224 =? 192 then 2
  else if Z.land c 240 =? 224 then 3
  else if Z.land c 248 =? 240 then 4
  else 1.

Definition utf8_codepoint (src : list Z) (s : nat) : Z :=
  let c := byte_at src s in
  let cont i := Z.land (byte_at src (s + i)) 63 in
  match utf8_size c with
  | 2%nat => Z.lor (Z.shiftl (Z.land c 31) 6) (cont 1%nat)
  | 3%nat =>
      Z.lor (Z.shiftl (Z.land c 15) 12)
        (Z.lor (Z.shiftl (cont 1%nat) 6) (cont 2%nat))
  | 4%nat =>
      Z.lor (Z.shiftl (Z.land c 7) 18)
        (Z.lor (Z.shiftl (cont 1%nat) 12)
           (Z.lor (Z.shiftl (cont 2%nat) 6) (cont 3%nat)))
  | _ => c
  end.

Definition utf8_next (src : list Z) (s : nat) : nat :=
  (s + utf8_size (byte_at src s))%nat.

(** The C library's [atoi]: white space, an optional sign, digits.  The
    result is an [int]: of a number that an [int] holds it is that number;
    for any other the C standard leaves the result undefined, and the
    model keeps the low 32 bits. *)
Definition is_space (c : Z) : bool := (c =? 32) || ((9 <=? c) && (c <=? 13)).

Fixpoint atoi_digits (l : list Z) (acc : Z) : Z :=
  match l with
  | c :: r => if is_digit c then atoi_digits r (acc * 10 + (c - 48)) else acc
  | [] => acc
  end.

Fixpoint atoi_number (l : list Z) : Z :=
  match l with
  | c :: r =>
      if is_space c then atoi_number r
      else if c =? 45 then - atoi_digits r 0
      else if c =? 43 then atoi_digits r 0
      else atoi_digits l 0
  | [] => 0
  end.

Definition atoi (l : list Z) : Z := cint (atoi_number l).

(** The variables of the digit scan; [scratch] is the run of kigits
    allocated so far on the scratchpad. *)
Record scan : Set := mk_scan {
  sc_kigit : Z;
  sc_kigc : Z;
  sc_exponent : Z;
  sc_decimalDot : Z;
  sc_digits : nat;
  sc_zeroes : bool;
  sc_scratch : list Z
}.

Definition scan_digit (c : Z) (st : scan) : scan :=
  let digits := S (sc_digits st) in
  if negb (sc_zeroes st) || negb (c =? 48) then
    let exponent :=
      if sc_decimalDot st <? 0 then sc_exponent st + 1 else sc_exponent st in
    let kigit := kint (sc_kigit st * 10 + (c - 48)) in
    let kigc := sc_kigc st + 1 in
    if kigc =? 3
    then mk_scan 0 0 exponent (sc_decimalDot st) digits false
           (sc_scratch st ++ [kigit])
    else mk_scan kigit kigc exponent (sc_decimalDot st) digits false
           (sc_scratch st)
  else if 0 <=? sc_decimalDot st
  then mk_scan (sc_kigit st) (sc_kigc st) (sc_exponent st - 1)
         (sc_decimalDot st) digits (sc_zeroes st) (sc_scratch st)
  else mk_scan (sc_kigit st) (sc_kigc st) (sc_exponent st)
         (sc_decimalDot st) digits (sc_zeroes st) (sc_scratch st).

(** [while (+s < +last)]: [fuel] is the distance from [s] to [last]. *)
Fixpoint scan_digits (src : list Z) (fuel : nat) (s : nat) (st : scan)
  : nat * scan :=
  match fuel with
  | O => (s, st)
  | S f =>
      let c := byte_at src s in
      if is_digit c then scan_digits src f (S s) (scan_digit c st)
      else if (sc_decimalDot st <? 0) && ((c =? 46) || (c =? 44))
      then scan_digits src f (S s)
             (mk_scan (sc_kigit st) (sc_kigc st) (sc_exponent st)
                (Z.of_nat s) (sc_digits st) (sc_zeroes st) (sc_scratch st))
      else (s, st)
  end.

(** [while (kigc++ < 3) kigit *= 10;] *)
Fixpoint pad_kigit (fuel : nat) (kigc kigit : Z) : Z :=
  match fuel with
  | O => kigit
  | S f => if kigc <? 3 then pad_kigit f (kigc + 1) (kint (kigit * 10)) else kigit
  end.

(** The scan of the digits of the exponent, bounded by [last]. *)
Fixpoint scan_exponent (src : list Z) (fuel : nat) (s : nat) : nat :=
  match fuel with
  | O => s
  | S f => if is_digit (byte_at src s) then scan_exponent src f (S s) else s
  end.

Inductive parse_error : Set :=
| mantissa_error (position : nat)
| exponent_error (position : nat).

Inductive parsed : Set :=
| Parsed (p_end : nat) (out : decimal)
| Skipped
| Failed (e : parse_error).

Definition status (r : parsed) : result :=
  match r with
  | Parsed _ _ => OK
  | Skipped => SKIP
  | Failed _ => ERROR
  end.

(** What follows the digit scan: padding of the last kigit, the check on
    the number of digits, the optional exponent and the construction of
    the result.  [s] is where the scan stopped and [st] its variables. *)
Definition parse_tail (Settings : settings) (src : list Z) (last : nat)
  (ty : id) (s : nat) (st : scan) : parsed :=
  if (sc_digits st =? 0)%nat then Skipped
  else
    let scratch :=
      if negb (sc_kigc st =? 0)
      then sc_scratch st ++ [pad_kigit 3 (sc_kigc st) (sc_kigit st)]
      else sc_scratch st in
    let exponent := sc_exponent st in
    let maxdigits := Precision Settings in
    if TooManyDigitsErrors Settings && (maxdigits <? sc_digits st)%nat
    then Failed (mantissa_error
                   (sc_digits st + Z.to_nat (Z.b2z (0 <=? sc_decimalDot st))))
    else
      let c := byte_at src s in
      if (c =? 101) || (c =? 69)
         || (utf8_codepoint src s =? ExponentSeparator Settings)
      then
        let expsrc := utf8_next src s in
        let c1 := byte_at src expsrc in
        let expstart :=
          if (c1 =? 43) || (c1 =? 45) then S expsrc else expsrc in
        let s := scan_exponent src (last - expstart) expstart in
        if (s =? expstart)%nat then Failed (exponent_error s)
        else
          let expval := atoi (skipn expsrc src) in
          Parsed s (mk_decimal ty (cint (exponent + expval)) scratch)
      else Parsed s (mk_decimal ty exponent scratch).

Definition decimal_parse (Settings : settings) (p : parser) : parsed :=
  let src := source p in
  let last := p_length p in
  let c0 := byte_at src 0 in
  let signed := (c0 =? 43) || (c0 =? 45) in
  if signed && (precedence p <? 0) then Skipped
  else
    let ty := if signed && (c0 =? 45) then ID_neg_decimal else ID_decimal in
    let s := if signed then 1%nat else 0%nat in
    let '(s, st) :=
      scan_digits src (last - s) s (mk_scan 0 0 0 (-1) 0 true []) in
    parse_tail Settings src last ty s st.

Definition bytes_of (text : string) : list Z :=
  map (fun c => Z.of_N (N_of_ascii c)) (list_ascii_of_string text).

Definition parse_text (Settings : settings) (prec : Z) (text : string) : parsed :=
  decimal_parse Settings
    (mk_parser (bytes_of text) (String.length text) prec).


(** ** Loops ([loops.cc]) *)

(** Objects as the loop evaluator sees them: integers (tag and magnitude),
    decimals, and everything else (programs, blocks, text, ...), of which
    only the tag matters here. *)
Inductive object : Type :=
| integer_object (ty : id) (magnitude : Z)
| decimal_object (d : decimal)
| other_object (ty : id) (payload : nat).

Definition object_type (o : object) : id :=
  match o with
  | integer_object ty _ => ty
  | decimal_object d => type d
  | other_object ty _ => ty
  end.

(** [o->as<integer>()] followed by [value<ularge>()]. *)
Definition as_integer_value (o : object) : option Z :=
  match o with
  | integer_object ID_integer v => Some (ularge v)
  | _ => None
  end.

(** [integer::make(ularge)] *)
Definition integer_make (v : Z) : object := integer_object ID_integer v.

(** A loop holds its body; a conditional loop holds two objects in the
    order given to its constructor. *)
Record conditional_loop : Type := mk_conditional_loop {
  first : object;
  second : object
}.

Module loop.

(** Every loop of this file has the shape
    [while (!interrupted() && r == OK) { ... }], and [r] is [OK] whenever
    the loop head is reached: a round that leaves [r] different from [OK]
    ends the loop with that status.  One round of the loop body either
    goes on with new loop variables or leaves the loop with what the
    function then returns. *)
Inductive flow (vars exit : Type) : Type :=
| Continue (s : vars)
| Break (r : exit).

Arguments Continue {vars exit} s.
Arguments Break {vars exit} r.

Section Evaluation.

(** The runtime [rt]: the value stack (top first), the local variables
    (innermost first) and the rest of the machine, of any type [heap].  The
    error message slot is not modelled: only statuses are. *)
Variable heap : Type.

Record runtime : Type := mk_runtime {
  stack : list object;
  locals : list object;
  rest : heap
}.

(** What the sources at hand declare but do not define: evaluation of an
    object, the poll of the interrupted flag, the truth value of an object
    (1, 0, or -1 on error) and arithmetic on algebraic objects. *)
Variable evaluate : object -> runtime -> result * runtime.
Variable interrupted : runtime -> bool.
Variable as_truth : object -> Z.
Variable alg_add : object -> object -> object.
Variable alg_lt : object -> object -> object.
Variable alg_gt : object -> object -> object.

Definition pop (rt : runtime) : option (object * runtime) :=
  match stack rt with
  | o :: s => Some (o, mk_runtime s (locals rt) (rest rt))
  | [] => None
  end.

Definition drop (n : nat) (rt : runtime) : runtime :=
  mk_runtime (skipn n (stack rt)) (locals rt) (rest rt).

Definition push (o : object) (rt : runtime) : runtime :=
  mk_runtime (o :: stack rt) (locals rt) (rest rt).

(** [rt.local(0, v)] *)
Definition set_local0 (v : object) (rt : runtime) : runtime :=
  mk_runtime (stack rt)
    (match locals rt with _ :: l => v :: l | [] => [] end) (rest rt).

(** [rt.locals(1)] moves the top of the stack into a new local frame;
    [rt.unlocals(1)] removes that frame. *)
Definition enter_locals1 (rt : runtime) : runtime :=
  match stack rt with
  | o :: s => mk_runtime s (o :: locals rt) (rest rt)
  | [] => rt
  end.

Definition unlocals1 (rt : runtime) : runtime :=
  mk_runtime (stack rt) (tl (locals rt)) (rest rt).

(** [conditional_loop::condition] *)
Definition condition (rt : runtime) : result * bool * runtime :=
  match pop rt with
  | Some (cond, rt') =>
      let truth := as_truth cond in
      if 0 <=? truth then (OK, negb (truth =? 0), rt')
      else (ERROR, false, rt')
  | None => (ERROR, false, rt)
  end.

Section While.

Variables vars exit : Type.

(** The runtime among the loop variables, what is returned when the poll
    ends the loop (with [r] equal to [OK]), and the loop body. *)
Variable rt_of : vars -> runtime.
Variable stop : result -> runtime -> exit.
Variable round : vars -> flow vars exit.

(** [None]: out of fuel. *)
Fixpoint while_loop (fuel : nat) (s : vars) : option exit :=
  match fuel with
  | O => None
  | S f =>
      if interrupted (rt_of s) then Some (stop OK (rt_of s))
      else
        match round s with
        | Break r => Some r
        | Continue s' => while_loop f s'
        end
  end.

End While.

Arguments while_loop {vars exit} rt_of stop round fuel s.

(** Body of the loop of [EVAL_BODY(DoUntil)]. *)
Definition DoUntil_round (body cond : object) (rt : runtime)
  : flow runtime (result * runtime) :=
  let '(r, rt1) := evaluate body rt in
  if negb (result_eqb r OK) then Break (r, rt1)
  else
    let '(r, rt2) := evaluate cond rt1 in
    if negb (result_eqb r OK) then Break (r, rt2)
    else
      let '(r, test, rt3) := condition rt2 in
      if negb (result_eqb r OK) || test then Break (r, rt3)
      else Continue rt3.

(** [EVAL_BODY(DoUntil)]: the body comes first in the payload. *)
Definition DoUntil_evaluate (fuel : nat) (o : conditional_loop) (rt : runtime)
  : option (result * runtime) :=
  while_loop (fun rt => rt) pair (DoUntil_round (first o) (second o)) fuel rt.

(** Body of the loop of [EVAL_BODY(WhileRepeat)].  The status of the body
    is tested at the loop head, after the poll. *)
Definition WhileRepeat_round (cond body : object) (rt : runtime)
  : flow runtime (result * runtime) :=
  let '(r, rt1) := evaluate cond rt in
  if negb (result_eqb r OK) then Break (r, rt1)
  else
    let '(r, test, rt2) := condition rt1 in
    if negb (result_eqb r OK) || negb test then Break (r, rt2)
    else
      let '(r, rt3) := evaluate body rt2 in
      if negb (result_eqb r OK) then Break (r, rt3)
      else Continue rt3.

(** [EVAL_BODY(WhileRepeat)]: the condition comes first in the payload. *)
Definition WhileRepeat_evaluate (fuel : nat) (o : conditional_loop)
  (rt : runtime) : option (result * runtime) :=
  while_loop (fun rt => rt) pair (WhileRepeat_round (first o) (second o))
    fuel rt.

(** How the integer loop of [loop::counted] ends: with a status, or by
    switching to the algebraic loop with a step, a counter and a bound. *)
Inductive fast_exit : Type :=
| Returned (r : result) (rt : runtime)
| Switched (astep start finish : object) (rt : runtime).

(** The variables of the integer loop: [incr] and [cnt], both [ularge]. *)
Record fast_vars : Type := mk_fast {
  f_incr : Z;
  f_cnt : Z;
  f_rt : runtime
}.

(** [cnt += incr; if (cnt > last) break;] *)
Definition fast_next (last incr cnt : Z) (rt : runtime)
  : flow fast_vars fast_exit :=
  let cnt' := ularge (cnt + incr) in
  if last <? cnt' then Break (Returned OK rt)
  else Continue (mk_fast incr cnt' rt).

(** Body of the integer loop of [loop::counted]. *)
Definition counted_fast_round (body : object) (stepping named : bool)
  (last : Z) (s : fast_vars) : flow fast_vars fast_exit :=
  let cnt := f_cnt s in
  let rt0 :=
    if named then set_local0 (integer_make cnt) (f_rt s) else f_rt s in
  let '(r, rt1) := evaluate body rt0 in
  if negb (result_eqb r OK) then Break (Returned r rt1)
  else if stepping then
    match pop rt1 with
    | None => Break (Returned ERROR rt1)
    | Some (step, rt2) =>
        let ty := object_type step in
        if id_eqb ty ID_integer then
          match step with
          | integer_object _ v => fast_next last (ularge v) cnt rt2
          | _ => fast_next last (f_incr s) cnt rt2
          end
        else if is_real ty then
          Break (Switched step (integer_make cnt) (integer_make last) rt2)
        else Break (Returned ERROR rt2)
    end
  else fast_next last (f_incr s) cnt rt1.

Definition counted_fast (fuel : nat) (body : object) (stepping named : bool)
  (incr cnt last : Z) (rt : runtime) : option fast_exit :=
  while_loop f_rt Returned (counted_fast_round body stepping named last)
    fuel (mk_fast incr cnt rt).

(** The variables of the algebraic loop. *)
Record slow_vars : Type := mk_slow {
  s_skip : bool;
  s_cnt : object;
  s_step : object;
  s_rt : runtime
}.

(** [cnt = cnt + step], then the test on the end of the loop. *)
Definition slow_next (stepping : bool) (last zero cnt step : object)
  (rt : runtime) : flow slow_vars (result * runtime) :=
  let cnt := alg_add cnt step in
  let countdown := stepping && (as_truth (alg_lt step zero) =? 1) in
  let test := if countdown then alg_lt cnt last else alg_gt cnt last in
  if negb (as_truth test =? 0) then Break (OK, rt)
  else Continue (mk_slow false cnt step rt).

(** Body of the algebraic loop of [loop::counted]. *)
Definition counted_slow_round (body : object) (stepping named : bool)
  (last zero : object) (s : slow_vars) : flow slow_vars (result * runtime) :=
  if s_skip s then slow_next stepping last zero (s_cnt s) (s_step s) (s_rt s)
  else
    let rt0 := if named then set_local0 (s_cnt s) (s_rt s) else s_rt s in
    let '(r, rt1) := evaluate body rt0 in
    if negb (result_eqb r OK) then Break (r, rt1)
    else if stepping then
      match pop rt1 with
      | None => Break (ERROR, rt1)
      | Some (step, rt2) => slow_next stepping last zero (s_cnt s) step rt2
      end
    else slow_next stepping last zero (s_cnt s) (s_step s) rt1.

Definition counted_slow (fuel : nat) (body : object) (stepping named skip : bool)
  (cnt last zero step : object) (rt : runtime) : option (result * runtime) :=
  while_loop s_rt pair (counted_slow_round body stepping named last zero)
    fuel (mk_slow skip cnt step rt).

(** [loop::counted] *)
Definition counted (fuel : nat) (body : object) (stepping named : bool)
  (rt : runtime) : option (result * runtime) :=
  match stack rt with
  | finish :: start :: _ =>
      let rt := drop 2 rt in
      match as_integer_value start, as_integer_value finish with
      | Some cnt, Some last =>
          match counted_fast fuel body stepping named 1 cnt last rt with
          | None => None
          | Some (Returned r rt') => Some (r, rt')
          | Some (Switched astep sta fin rt') =>
              counted_slow fuel body stepping named true
                sta fin (integer_make 0) astep rt'
          end
      | _, _ =>
          if is_real (object_type start) && is_real (object_type finish)
          then counted_slow fuel body stepping named false
                 start finish (integer_make 0) (integer_make 1) rt
          else Some (ERROR, rt)
      end
  | _ => Some (ERROR, rt)
  end.

(** [EVAL_BODY(StartNext)] and [EVAL_BODY(StartStep)] *)
Definition StartNext_evaluate (fuel : nat) (body : object) (rt : runtime)
  : option (result * runtime) :=
  counted fuel body false false rt.

Definition StartStep_evaluate (fuel : nat) (body : object) (rt : runtime)
  : option (result * runtime) :=
  counted fuel body true false rt.

(** [ForNext::counted]: the start value becomes the one local of the loop. *)
Definition ForNext_counted (fuel : nat) (body : object) (stepping : bool)
  (rt : runtime) : option (result * runtime) :=
  match stack rt with
  | _ :: start :: _ =>
      match counted fuel body stepping true (enter_locals1 (push start rt)) with
      | Some (r, rt') => Some (r, unlocals1 rt')
      | None => None
      end
  | _ => Some (ERROR, rt)
  end.

Definition ForNext_evaluate (fuel : nat) (body : object) (rt : runtime)
  : option (result * runtime) :=
  ForNext_counted fuel body false rt.

Definition ForStep_evaluate (fuel : nat) (body : object) (rt : runtime)
  : option (result * runtime) :=
  ForNext_counted fuel body true rt.

End Evaluation.

Arguments while_loop heap interrupted {vars exit} rt_of stop round fuel s.

End loop.

(** ** File names ([file.cc]) *)

(** A C string is the list of its bytes before the terminating NUL; a
    pointer into it is the rest of the string from that position on, and
    [nullptr] is [None]. *)
Module file.

(** [for (cstring p = path; *p; p++)] of [extension], with [ext] the
    result so far. *)
Fixpoint extension_loop (p : list Z) (ext : option (list Z))
  : option (list Z) :=
  match p with
  | [] => ext
  | c :: r =>
      if (c =? 92) || (c =? 47) then extension_loop r None
      else if c =? 46 then extension_loop r (Some p)
      else extension_loop r ext
  end.

Definition extension (path : option (list Z)) : option (list Z) :=
  match path with
  | Some p => extension_loop p None
  | None => None
  end.

(** [for (cstring p = path; *p; p++)] of [basename], with [path] the
    result so far. *)
Fixpoint basename_loop (p path : list Z) : list Z :=
  match p with
  | [] => path
  | c :: r =>
      if (c =? 47) || (c =? 92) then basename_loop r r
      else basename_loop r path
  end.

Definition basename (path : list Z) : list Z := basename_loop path path.

End file.

(** * Specification vocabulary *)

(** The settings used in the examples: 34 digits of precision (12 kigits),
    errors on too many digits, U+2073 as exponent separator. *)
Definition default_settings : settings := mk_settings 34 true 8307.

(** Settings with the minimal precision of 3 digits (1 kigit). *)
Definition minimal_settings : settings := mk_settings 3 true 8307.

(** The kigits read as one integer in base 1000, most significant first. *)
Fixpoint Mint (ks : list Z) : Z :=
  match ks with
  | [] => 0
  | k :: r => k * 1000 ^ Z.of_nat (length r) + Mint r
  end.

(** A normalized decimal other than zero: leading kigit in 100..999 and
    trailing kigit not 0. *)
Definition normal (x : decimal) : Prop :=
  wf x /\ kigs x <> [] /\ 100 <= hd 0 (kigs x) /\ last (kigs x) 0 <> 0.

(** The magnitude of a decimal. *)
Definition magnitude (x : decimal) : Q :=
  (mantissa (kigs x) * inject_Z 10 ^ exponent x)%Q.

(** Two scans agree when their variables are equal up to the position of
    the decimal dot, of which only the sign is ever tested. *)
Definition scan_agree (a b : scan) : Prop :=
  sc_kigit a = sc_kigit b /\ sc_kigc a = sc_kigc b /\
  sc_exponent a = sc_exponent b /\
  (sc_decimalDot a <? 0) = (sc_decimalDot b <? 0) /\
  sc_digits a = sc_digits b /\ sc_zeroes a = sc_zeroes b /\
  sc_scratch a = sc_scratch b.

(** What a sign in front of a text does to the outcome of the parse: the
    result takes the tag of the sign, and positions in the text move by
    one byte. *)
Definition signed_outcome (ty : id) (r : parsed) : parsed :=
  match r with
  | Parsed n d => Parsed (S n) (mk_decimal ty (exponent d) (kigs d))
  | Skipped => Skipped
  | Failed (mantissa_error k) => Failed (mantissa_error k)
  | Failed (exponent_error k) => Failed (exponent_error (S k))
  end.

(** ** Vocabulary for loops *)

(** Integers as objects: the tag carries the sign. *)
Definition int_object (z : Z) : object :=
  if z <? 0 then integer_object ID_neg_integer (- z)
  else integer_object ID_integer z.

Module loop_spec.

Section Vocabulary.

Variable heap : Type.
Variable evaluate : object -> loop.runtime heap -> result * loop.runtime heap.
Variable interrupted : loop.runtime heap -> bool.
Variable as_truth : object -> Z.
Variable alg_add : object -> object -> object.
Variable alg_lt : object -> object -> object.

(** [rounds k s s']: from loop variables [s], the loop goes through [k]
    full rounds, none of them preceded by a positive poll, and reaches the
    loop head with variables [s']. *)
Inductive rounds {vars exit : Type} (rt_of : vars -> loop.runtime heap)
  (round : vars -> loop.flow vars exit) : nat -> vars -> vars -> Prop :=
| rounds_O : forall s, rounds rt_of round 0 s s
| rounds_S : forall k s s1 s',
    interrupted (rt_of s) = false ->
    round s = loop.Continue s1 ->
    rounds rt_of round k s1 s' ->
    rounds rt_of round (S k) s s'.

(** The runtime after the body has been evaluated once, and after the body
    has been evaluated and the step popped. *)
Definition after_body (body : object) (rt : loop.runtime heap) : loop.runtime heap :=
  snd (evaluate body rt).

Definition after_step (body : object) (rt : loop.runtime heap) : loop.runtime heap :=
  match loop.pop heap (after_body body rt) with
  | Some (_, rt') => rt'
  | None => after_body body rt
  end.

Fixpoint repeated (f : loop.runtime heap -> loop.runtime heap) (n : nat) (rt : loop.runtime heap) : loop.runtime heap :=
  match n with
  | O => rt
  | S n' => repeated f n' (f rt)
  end.

(** The body runs without error and without interruption during the first
    [n] rounds. *)
Definition runs_clean (f : loop.runtime heap -> loop.runtime heap) (body : object) (n : nat)
  (rt : loop.runtime heap) : Prop :=
  forall i, (i < n)%nat ->
    interrupted (repeated f i rt) = false /\
    fst (evaluate body (repeated f i rt)) = OK.

(** What the loop needs from the arithmetic on algebraic objects, which
    the sources at hand do not define: on integers, [+] and [<] are those
    of the integers. *)
Definition integer_arithmetic : Prop :=
  (forall a b, alg_add (int_object a) (int_object b) = int_object (a + b)) /\
  (forall a b, as_truth (alg_lt (int_object a) (int_object b)) = Z.b2z (a <? b)).

(** During the first [n] rounds the body runs without error and without
    interruption and leaves the step [-k] on top of the stack. *)
Definition runs_stepping (body : object) (k : Z) (n : nat) (rt : loop.runtime heap) : Prop :=
  forall i, (i < n)%nat ->
    let r := repeated (after_step body) i rt in
    interrupted r = false /\
    fst (evaluate body r) = OK /\
    hd_error (loop.stack heap (after_body body r))
    = Some (integer_object ID_neg_integer k).

End Vocabulary.

End loop_spec.

(** ** Example machines *)

(** A machine whose [rest] counts the evaluations of loop bodies, with a
    flag that is never set.  [dup_one_plus] is the body DUP 1 +;
    [count_only] is a body that leaves the stack alone; [push_minus_one]
    is a body that leaves the step -1 on the stack. *)
Definition counting (stk : list object) (rt : loop.runtime nat)
  : loop.runtime nat :=
  loop.mk_runtime nat stk (loop.locals nat rt) (S (loop.rest nat rt)).

Definition dup_one_plus (o : object) (rt : loop.runtime nat)
  : result * loop.runtime nat :=
  match loop.stack nat rt with
  | integer_object ID_integer v :: tl =>
      (OK, counting (integer_object ID_integer (v + 1)
                       :: integer_object ID_integer v :: tl) rt)
  | _ => (ERROR, rt)
  end.

Definition count_only (o : object) (rt : loop.runtime nat)
  : result * loop.runtime nat :=
  (OK, counting (loop.stack nat rt) rt).

Definition push_minus_one (o : object) (rt : loop.runtime nat)
  : result * loop.runtime nat :=
  (OK, counting (integer_object ID_neg_integer 1 :: loop.stack nat rt) rt).

Definition never (rt : loop.runtime nat) : bool := false.

(** Integer arithmetic on integer objects. *)
Definition int_value (o : object) : Z :=
  match o with
  | integer_object ID_neg_integer v => - v
  | integer_object _ v => v
  | _ => 0
  end.

Definition int_add (a b : object) : object :=
  int_object (int_value a + int_value b).

Definition int_lt (a b : object) : object :=
  int_object (Z.b2z (int_value a <? int_value b)).

Definition int_gt (a b : object) : object :=
  int_object (Z.b2z (int_value b <? int_value a)).

Definition integers (l : list Z) : list object :=
  map (integer_object ID_integer) l.

Definition a_body : object := other_object ID_block 0.


(** ** Vocabulary for exponents *)

(** The exponent of a decimal object is a C [int]: every object that the
    program builds has its exponent in this range. *)
Definition int_exponent (x : decimal) : Prop :=
  - 2 ^ 31 <= exponent x < 2 ^ 31.

(** An exponent far from both ends of the range of an [int], so that
    neither the difference of two such exponents nor an exponent moved by
    the digits of a result overflows. *)
Definition small_exponent (x : decimal) : Prop :=
  - 2 ^ 30 <= exponent x < 2 ^ 30.

(** ** Vocabulary for file names *)

(** The two directory separators, [/] and [\]; the dot is byte 46. *)
Definition is_separator (c : Z) : bool := (c =? 47) || (c =? 92).

Definition no_separator (p : list Z) : Prop :=
  Forall (fun c => is_separator c = false) p.

Definition no_dot (p : list Z) : Prop := Forall (fun c => c <> 46) p.

(** ** Vocabulary for the text of numbers *)

(** Decimal digits, the number a run of digits writes, and its text. *)
Definition digit (d : Z) : Prop := 0 <= d <= 9.

Definition number (ds : list Z) : Z :=
  fold_left (fun n d => n * 10 + d) ds 0.

Definition digit_bytes (ds : list Z) : list Z := map (fun d => 48 + d) ds.

(** The digit scan run over a list of digits. *)
Definition scan_all (st : scan) (ds : list Z) : scan :=
  fold_left (fun st d => scan_digit (48 + d) st) ds st.

(** What the scan variables hold after the digits [w], [k] of them behind
    the decimal mark: the kigits allocated and the kigit under way write
    the number [w], and the exponent counts the digits since the first
    one that is not 0, less the digits behind the mark. *)
Definition scanned (w : list Z) (k : Z) (st : scan) : Prop :=
  sc_digits st = length w /\
  kigits_ok (sc_scratch st) /\
  0 <= sc_kigc st < 3 /\
  0 <= sc_kigit st < 10 ^ sc_kigc st /\
  Mint (sc_scratch st) * 10 ^ sc_kigc st + sc_kigit st = number w /\
  sc_exponent st
  = 3 * Z.of_nat (length (sc_scratch st)) + sc_kigc st - k /\
  (sc_zeroes st = true ->
   number w = 0 /\ sc_scratch st = [] /\ sc_kigc st = 0).

(** The text of a mantissa: digits, then possibly a decimal mark (a dot or
    a comma) and more digits. *)
Definition mantissa_text (ip : list Z) (frac : option (Z * list Z))
  : list Z :=
  digit_bytes ip
  ++ match frac with
     | Some (mark, fp) => mark :: digit_bytes fp
     | None => []
     end.

Definition fraction_digits (frac : option (Z * list Z)) : list Z :=
  match frac with
  | Some (_, fp) => fp
  | None => []
  end.

Definition well_written (ip : list Z) (frac : option (Z * list Z)) : Prop :=
  Forall digit ip /\ Forall digit (fraction_digits frac) /\
  (0 < length ip + length (fraction_digits frac))%nat /\
  match frac with
  | Some (mark, _) => mark = 46 \/ mark = 44
  | None => True
  end.

(** The text of an exponent: the letter E or e, possibly a sign, digits. *)
Definition exponent_text (letter : Z) (sign : list Z) (ed : list Z)
  : list Z :=
  letter :: sign ++ digit_bytes ed.

Definition exponent_value (sign : list Z) (ed : list Z) : Z :=
  match sign with
  | 45 :: _ => - number ed
  | _ => number ed
  end.

(** ** Vocabulary for stepping and named loops *)

Module loop_steps.

Section Vocabulary.

Variable heap : Type.
Variable evaluate : object -> loop.runtime heap -> result * loop.runtime heap.
Variable interrupted : loop.runtime heap -> bool.

(** During the first [n] rounds the body runs without error and without
    interruption and leaves the integer step [k] on top of the stack. *)
Definition runs_counting_up (body : object) (k : Z) (n : nat)
  (rt : loop.runtime heap) : Prop :=
  forall i, (i < n)%nat ->
    let r := loop_spec.repeated heap (loop_spec.after_step heap evaluate body)
               i rt in
    interrupted r = false /\
    fst (evaluate body r) = OK /\
    hd_error (loop.stack heap (loop_spec.after_body heap evaluate body r))
    = Some (integer_object ID_integer k).

(** The runtime after one round of a named loop whose counter is [cnt]:
    the counter is stored in local 0, then the body is evaluated. *)
Definition named_round (body : object) (cnt : Z) (rt : loop.runtime heap)
  : loop.runtime heap :=
  snd (evaluate body (loop.set_local0 heap (integer_make cnt) rt)).

(** The runtime after [n] rounds of a named loop counting up by 1 from
    [cnt]. *)
Fixpoint named_rounds (body : object) (n : nat) (cnt : Z)
  (rt : loop.runtime heap) : loop.runtime heap :=
  match n with
  | O => rt
  | S n' => named_rounds body n' (cnt + 1) (named_round body cnt rt)
  end.

(** The body runs without error and without interruption during the
    first [n] rounds of a named loop. *)
Definition runs_clean_named (body : object) (n : nat) (cnt : Z)
  (rt : loop.runtime heap) : Prop :=
  forall i, (i < n)%nat ->
    let r := named_rounds body i cnt rt in
    interrupted r = false /\
    fst (evaluate body
           (loop.set_local0 heap (integer_make (cnt + Z.of_nat i)) r)) = OK.

End Vocabulary.

End loop_steps.

(** A machine whose bodies leave the step 3 on the stack, and one whose
    bodies recall the loop counter from local 0. *)
Definition push_three (o : object) (rt : loop.runtime nat)
  : result * loop.runtime nat :=
  (OK, counting (integer_object ID_integer 3 :: loop.stack nat rt) rt).

Definition recall_counter (o : object) (rt : loop.runtime nat)
  : result * loop.runtime nat :=
  match loop.locals nat rt with
  | v :: _ => (OK, counting (v :: loop.stack nat rt) rt)
  | [] => (ERROR, rt)
  end.

(** ** Vocabulary for aligned sums *)

(** The sum of [f 0 .. f (n-1)] read as digits in base 1000, most
    significant first. *)
Fixpoint horner (f : nat -> Z) (n : nat) : Z :=
  match n with
  | O => 0
  | S n' => horner f n' * 1000 + f n'
  end.

(** What the addition loop adds at index [ko], the carry apart: the kigit
    of x and the digits of y that fall in that kigit once y is shifted by
    [kshift] kigits and by the digits that [hmul] stands for. *)
Definition add_column (xb yb : list Z) (kshift : nat) (hmul lmul : Z)
  (ko : nat) : Z :=
  nth ko xb 0
  + (if (kshift <=? ko)%nat
     then nth (ko - kshift) yb 0 / hmul
          + (if (kshift <? ko)%nat
             then nth (ko - kshift - 1) yb 0 mod hmul * lmul
             else 0)
     else 0).

(** The number of kigits the exact sum or difference of two decimals needs:
    those of the operand with the larger exponent, or those of the other
    operand moved down by the difference of the exponents. *)
Definition sum_kigits (x y : decimal) : nat :=
  let lt := exponent x <? exponent y in
  let hi := if lt then y else x in
  let lo := if lt then x else y in
  Nat.max (length (kigs hi))
          (length (kigs lo)
           + (Z.to_nat (exponent hi - exponent lo) + 2) / 3).

(** Column [ko] of a subtraction whose exponents differ by a multiple of
    3, before the borrow is taken off. *)
Definition sub_column (xb yb : list Z) (kshift : nat) (ko : nat) : Z :=
  nth ko xb 0 - (if (kshift <=? ko)%nat then nth (ko - kshift) yb 0 else 0).

(** ** Vocabulary for conditional loops *)

Module loop_tests.

Section Vocabulary.

Variable heap : Type.
Variable evaluate : object -> loop.runtime heap -> result * loop.runtime heap.
Variable as_truth : object -> Z.

(** The truth value of what evaluating [cond] leaves on top of the stack,
    if it leaves anything. *)
Definition truth_left (cond : object) (rt : loop.runtime heap) : option Z :=
  option_map as_truth
    (hd_error (loop.stack heap (loop_spec.after_body heap evaluate cond rt))).

(** The runtime after one round of DO body UNTIL cond END: the body, the
    condition, and the pop of what the condition left. *)
Definition DoUntil_turn (body cond : object) (rt : loop.runtime heap)
  : loop.runtime heap :=
  loop_spec.after_step heap evaluate cond
    (loop_spec.after_body heap evaluate body rt).

(** The runtime after one round of WHILE cond REPEAT body END: the
    condition, the pop of what it left, and the body. *)
Definition WhileRepeat_turn (cond body : object) (rt : loop.runtime heap)
  : loop.runtime heap :=
  loop_spec.after_body heap evaluate body
    (loop_spec.after_step heap evaluate cond rt).

End Vocabulary.

End loop_tests.

(** A machine with three objects: a body that counts its evaluations in
    [rest], a test that leaves 1 once the body has run three times and 0
    before, and a test that leaves 1 while the body has run less than
    twice and 0 after. *)
Definition a_test : object := other_object ID_block 1.

Definition another_test : object := other_object ID_block 2.

Definition count_and_test (o : object) (rt : loop.runtime nat)
  : result * loop.runtime nat :=
  match o with
  | other_object _ 0 => (OK, counting (loop.stack nat rt) rt)
  | other_object _ 1 =>
      (OK, loop.push nat
             (integer_object ID_integer (Z.b2z (3 <=? loop.rest nat rt)%nat)) rt)
  | _ =>
      (OK, loop.push nat
             (integer_object ID_integer (Z.b2z (loop.rest nat rt <? 2)%nat)) rt)
  end.


(** * Properties *)

(** ** The 32-bit [int] *)

Lemma cint_small : forall z, - 2 ^ 31 <= z < 2 ^ 31 -> cint z = z.
Proof.
  intros z Hz. unfold cint.
  change (2 ^ 31) with 2147483648 in *. change (2 ^ 32) with 4294967296.
  rewrite Z.mod_small by lia. lia.
Qed.

Lemma cint_range : forall z, - 2 ^ 31 <= cint z < 2 ^ 31.
Proof.
  intro z. unfold cint.
  change (2 ^ 31) with 2147483648. change (2 ^ 32) with 4294967296.
  pose proof (Z.mod_pos_bound (z + 2147483648) 4294967296 ltac:(lia)). lia.
Qed.

(** Two integers that differ by a multiple of 2^32 are the same [int]. *)
Lemma cint_congruent : forall a b k, a = b + 2 ^ 32 * k -> cint a = cint b.
Proof.
  intros a b k ->. unfold cint. f_equal.
  replace (b + 2 ^ 32 * k + 2 ^ 31) with (b + 2 ^ 31 + k * 2 ^ 32) by ring.
  apply Z_mod_plus_full.
Qed.

Lemma cint_quotient : forall z, exists k, cint z = z + 2 ^ 32 * k.
Proof.
  intro z. exists (- ((z + 2 ^ 31) / 2 ^ 32)). unfold cint.
  pose proof (Z.div_mod (z + 2 ^ 31) (2 ^ 32) ltac:(lia)). lia.
Qed.

Lemma cint_add_l : forall a b, cint (cint a + b) = cint (a + b).
Proof.
  intros a b. destruct (cint_quotient a) as [k ->].
  apply (cint_congruent _ _ k). ring.
Qed.

Lemma cint_mul_r : forall s a, cint (s * cint a) = cint (s * a).
Proof.
  intros s a. destruct (cint_quotient a) as [k ->].
  apply (cint_congruent _ _ (s * k)). ring.
Qed.

(** ** The packed representation *)

Lemma upd_length : forall i v l, length (upd i v l) = length l.
Proof.
  induction i as [|i IH]; intros v [|k r]; simpl; auto.
Qed.

Lemma nth_upd_same : forall l i v, (i < length l)%nat -> nth i (upd i v l) 0 = v.
Proof.
  induction l as [|k r IH]; intros [|i] v H; simpl in *; try lia; auto.
  apply IH. lia.
Qed.

Lemma nth_upd_other : forall l i j v, i <> j -> nth j (upd i v l) 0 = nth j l 0.
Proof.
  induction l as [|k r IH]; intros [|i] [|j] v H; simpl in *; try congruence; auto.
Qed.

(** Byte offset and shift of kigit [i]: four kigits per group of five
    bytes. *)
Lemma index_cases : forall i : nat,
  exists q m, i = (4 * q + m)%nat /\ (m < 4)%nat /\
    (i * 10 / 8 = 5 * q + m)%nat /\ (i mod 4 = m)%nat.
Proof.
  intro i. exists (i / 4)%nat, (i mod 4)%nat.
  pose proof (Nat.div_mod_eq i 4). pose proof (Nat.mod_upper_bound i 4 ltac:(lia)).
  repeat split; try lia.
  set (q := (i / 4)%nat) in *. set (m := (i mod 4)%nat) in *.
  replace (i * 10)%nat with ((5 * q) * 8 + m * 10)%nat by lia.
  rewrite Nat.div_add_l by lia.
  assert (Hm : (m = 0 \/ m = 1 \/ m = 2 \/ m = 3)%nat) by lia.
  destruct Hm as [Hm|[Hm|[Hm|Hm]]]; rewrite Hm; reflexivity.
Qed.

(** The two bytes written by [set_kigit] hold the ten bits of the value,
    whatever the bytes held before. *)
Lemma read_after_write_bits : forall sh a c v,
  (sh = 2 \/ sh = 4 \/ sh = 6 \/ sh = 8) -> 0 <= v < 1024 ->
  kint (Z.land
    (Z.lor (Z.shiftl (kint (packed.byte (Z.lor (Z.land a (Z.shiftl 255 (10 - sh)))
                                               (Z.shiftr v sh)))) sh)
           (Z.shiftr (packed.byte
                        (Z.lor (Z.land c (Z.lnot (Z.shiftl 255 ((8 - sh) mod 8))))
                               (packed.byte (Z.shiftl v ((8 - sh) mod 8)))))
                     (8 - sh))) 1023) = v.
Proof.
  intros sh a c v Hsh Hv. unfold packed.byte, kint.
  assert (Hv' : v = Z.land v (Z.ones 10))
    by (rewrite Z.land_ones by lia; rewrite Z.mod_small; lia).
  change 256 with (2 ^ 8). change 65536 with (2 ^ 16). change 1023 with (Z.ones 10).
  change 255 with (Z.ones 8).
  rewrite <- !Z.land_ones by lia.
  rewrite Hv' at 3.
  destruct Hsh as [ Hs | [ Hs | [ Hs | Hs ] ] ]; subst sh; Z.bitblast.
Qed.

(** Writing the next kigit keeps the high bits of the byte it shares with
    the previous one. *)
Lemma keep_high_bits : forall sh b v,
  (sh = 2 \/ sh = 4 \/ sh = 6) -> 0 <= b < 256 -> 0 <= v < 1024 ->
  Z.shiftr (packed.byte (Z.lor (Z.land b (Z.shiftl 255 (10 - (sh + 2))))
                               (Z.shiftr v (sh + 2)))) (8 - sh)
  = Z.shiftr b (8 - sh).
Proof.
  intros sh b v Hsh Hb Hv. unfold packed.byte.
  assert (Hv' : v = Z.land v (Z.ones 10))
    by (rewrite Z.land_ones by lia; rewrite Z.mod_small; lia).
  assert (Hb' : b = Z.land b (Z.ones 8))
    by (rewrite Z.land_ones by lia; rewrite Z.mod_small; lia).
  change 256 with (2 ^ 8). change 255 with (Z.ones 8).
  rewrite <- !Z.land_ones by lia.
  rewrite Hv'. rewrite Hb' at 2.
  destruct Hsh as [ Hs | [ Hs | Hs ] ]; subst sh; Z.bitblast.
Qed.

Lemma byte_range : forall z, 0 <= packed.byte z < 256.
Proof. intro z. unfold packed.byte. apply Z.mod_pos_bound. lia. Qed.

Lemma upd_bytes_ok : forall i v p,
  0 <= v < 256 -> packed.bytes_ok p -> packed.bytes_ok (upd i v p).
Proof.
  induction i as [|i IH]; intros v [|k r] Hv Hp; simpl; auto;
    inversion Hp; subst; constructor; auto.
  apply IH; auto.
Qed.

Lemma set_kigit_bytes_ok : forall p i v,
  packed.bytes_ok p -> packed.bytes_ok (packed.set_kigit p i v).
Proof.
  intros p i v Hp. unfold packed.set_kigit.
  apply upd_bytes_ok; [apply byte_range|].
  apply upd_bytes_ok; [apply byte_range|assumption].
Qed.

Lemma set_kigit_length : forall p i v, length (packed.set_kigit p i v) = length p.
Proof. intros. unfold packed.set_kigit. now rewrite !upd_length. Qed.

Lemma nth_bytes_ok : forall p k, packed.bytes_ok p -> 0 <= nth k p 0 < 256.
Proof.
  intros p k Hp. destruct (Nat.lt_ge_cases k (length p)) as [H|H].
  - unfold packed.bytes_ok in Hp. rewrite Forall_forall in Hp. apply Hp.
    now apply nth_In.
  - rewrite nth_overflow by assumption. lia.
Qed.

(** Reading a kigit just written gives the value written. *)
Lemma packed_read_write : forall p i v,
  0 <= v < 1024 -> (S (i * 10 / 8) < length p)%nat ->
  packed.kigit (packed.set_kigit p i v) i = v.
Proof.
  intros p i v Hv Hlen.
  destruct (index_cases i) as (q & m & Hi & Hm & Hoff & Hmod).
  unfold packed.kigit, packed.set_kigit. rewrite Hoff in *. rewrite Hmod.
  set (off := (5 * q + m)%nat) in *.
  rewrite (nth_upd_other _ (S off) off) by lia.
  rewrite !nth_upd_same by (rewrite ?upd_length; lia).
  rewrite (nth_upd_other _ off (S off)) by lia.
  apply read_after_write_bits; [lia|assumption].
Qed.

(** Writing kigit [i] leaves the kigits before it as they were. *)
Lemma packed_write_keeps_lower : forall p i j v,
  (j < i)%nat -> packed.bytes_ok p -> 0 <= v < 1024 ->
  (S (i * 10 / 8) < length p)%nat ->
  packed.kigit (packed.set_kigit p i v) j = packed.kigit p j.
Proof.
  intros p i j v Hji Hp Hv Hlen.
  destruct (index_cases i) as (q & m & Hi & Hm & Hoff & Hmod).
  destruct (index_cases j) as (q' & m' & Hj & Hm' & Hoff' & Hmod').
  unfold packed.kigit, packed.set_kigit.
  rewrite Hoff in *. rewrite Hoff', Hmod, Hmod'.
  set (off := (5 * q + m)%nat) in *. set (off' := (5 * q' + m')%nat).
  assert (Hlt : (off' < off)%nat) by (unfold off, off'; lia).
  rewrite (nth_upd_other _ (S off) off') by lia.
  rewrite (nth_upd_other _ off off') by lia.
  destruct (Nat.eq_dec (S off') off) as [Heq|Hne].
  - rewrite (nth_upd_other _ (S off) (S off')) by lia.
    rewrite Heq. rewrite nth_upd_same by lia.
    assert (Hmm : m = S m' /\ q = q') by (unfold off, off' in Heq; lia).
    destruct Hmm as [Hmm Hqq]. rewrite Hmm.
    replace (Z.of_nat (S m' * 2 + 2)) with (Z.of_nat (m' * 2 + 2) + 2) by lia.
    rewrite keep_high_bits;
      [reflexivity|lia|apply nth_bytes_ok; assumption|assumption].
  - rewrite (nth_upd_other _ (S off) (S off')) by lia.
    rewrite (nth_upd_other _ off (S off')) by lia.
    reflexivity.
Qed.

Lemma store_length : forall ks i p, length (packed.store i ks p) = length p.
Proof.
  induction ks as [|k r IH]; intros i p; simpl; auto.
  rewrite IH. apply set_kigit_length.
Qed.

(** Both bytes of kigit [i] lie within the memory required for [n > i]
    kigits. *)
Lemma offset_bound : forall i n : nat,
  (i < n)%nat -> (S (i * 10 / 8) < packed.required_memory n)%nat.
Proof.
  intros i n H. unfold packed.required_memory.
  assert (H1 : ((S i * 10 + 7) / 8 <= (n * 10 + 7) / 8)%nat)
    by (apply Nat.Div0.div_le_mono; lia).
  destruct (index_cases i) as (q & m & Hi & Hm & Hoff & Hmod).
  rewrite Hoff.
  assert (H2 : (S (S (5 * q + m)) <= (S i * 10 + 7) / 8)%nat).
  { subst i.
    replace (S (4 * q + m) * 10 + 7)%nat with ((5 * q) * 8 + (m * 10 + 17))%nat by lia.
    rewrite Nat.div_add_l by lia.
    assert (Hc : (m = 0 \/ m = 1 \/ m = 2 \/ m = 3)%nat) by lia.
    destruct Hc as [ Hc | [ Hc | [ Hc | Hc ] ] ]; rewrite Hc; simpl; lia. }
  lia.
Qed.

Lemma store_keeps_lower : forall ks i p j,
  (j < i)%nat -> packed.bytes_ok p -> Forall (fun k => 0 <= k < 1024) ks ->
  (packed.required_memory (i + length ks) <= length p)%nat ->
  packed.kigit (packed.store i ks p) j = packed.kigit p j.
Proof.
  induction ks as [|k r IH]; intros i p j Hji Hp Hks Hlen; simpl; auto.
  inversion Hks; subst. cbn [length] in Hlen.
  rewrite IH; [|lia|apply set_kigit_bytes_ok; assumption|assumption|].
  - apply packed_write_keeps_lower; auto.
    pose proof (offset_bound i (i + S (length r))%nat ltac:(lia)). lia.
  - rewrite set_kigit_length.
    replace (S i + length r)%nat with (i + S (length r))%nat by lia. assumption.
Qed.

Lemma store_read : forall ks i p j,
  (j < length ks)%nat -> packed.bytes_ok p -> Forall (fun k => 0 <= k < 1024) ks ->
  (packed.required_memory (i + length ks) <= length p)%nat ->
  packed.kigit (packed.store i ks p) (i + j) = nth j ks 0.
Proof.
  induction ks as [|k r IH]; intros i p j Hj Hp Hks Hlen;
    cbn [length packed.store] in *; [lia|].
  inversion Hks; subst.
  assert (Hoff : (S (i * 10 / 8) < length p)%nat).
  { pose proof (offset_bound i (i + S (length r))%nat ltac:(lia)). lia. }
  assert (Hlen' : (packed.required_memory (S i + length r)
                   <= length (packed.set_kigit p i k))%nat).
  { rewrite set_kigit_length.
    replace (S i + length r)%nat with (i + S (length r))%nat by lia.
    assumption. }
  destruct j as [|j]; cbn [nth].
  - rewrite Nat.add_0_r.
    rewrite store_keeps_lower;
      [|lia|apply set_kigit_bytes_ok; assumption|assumption|assumption].
    apply packed_read_write; assumption.
  - replace (i + S j)%nat with (S i + j)%nat by lia.
    apply IH; [lia|apply set_kigit_bytes_ok; assumption|assumption|assumption].
Qed.

(** X3.  The kigits the constructor stores in the payload are the kigits
    read back from it, whatever the memory held before: the list of kigits
    of the record [decimal] is what the accessor of the source returns. *)
Theorem packed_kigits_store : forall ks p,
  packed.bytes_ok p -> Forall (fun k => 0 <= k < 1024) ks ->
  (packed.required_memory (length ks) <= length p)%nat ->
  packed.kigits (packed.store 0 ks p) (length ks) = ks /\
  forall i, (i < length ks)%nat ->
    packed.kigit (packed.store 0 ks p) i = kigit ks i.
Proof.
  intros ks p Hp Hks Hlen.
  assert (Hread : forall i, (i < length ks)%nat ->
            packed.kigit (packed.store 0 ks p) i = kigit ks i).
  { intros i Hi. apply (store_read ks 0 p i); auto. }
  split; [|exact Hread].
  unfold packed.kigits.
  apply nth_ext with (d := 0) (d' := 0).
  - now rewrite length_map, length_seq.
  - intros n Hn. rewrite length_map, length_seq in Hn.
    rewrite (nth_indep _ 0 (packed.kigit (packed.store 0 ks p) 0))
      by (now rewrite length_map, length_seq).
    rewrite map_nth. rewrite seq_nth by assumption.
    apply Hread. assumption.
Qed.

(** Four kigits fill five bytes, most significant bits first; a fifth kigit
    keeps the low six bits of the byte it shares with what follows. *)
Example packed_store_example :
  packed.store 0 [1; 2; 3; 4] [255; 255; 255; 255; 255] = [0; 64; 32; 12; 4] /\
  packed.store 0 [999; 100; 0; 512; 7] (repeat 170 7)
  = [249; 198; 64; 2; 0; 1; 234] /\
  packed.kigits [249; 198; 64; 2; 0; 1; 234] 5 = [999; 100; 0; 512; 7].
Proof. repeat split; vm_compute; reflexivity. Qed.

(** ** Mantissas as integers *)

Lemma pow1000_pos : forall n : nat, 0 < 1000 ^ Z.of_nat n.
Proof. intro n. apply Z.pow_pos_nonneg; lia. Qed.

Lemma pow1000_S : forall n : nat, 1000 ^ Z.of_nat (S n) = 1000 * 1000 ^ Z.of_nat n.
Proof. intro n. rewrite Nat2Z.inj_succ, Z.pow_succ_r by lia. reflexivity. Qed.

Lemma Mint_bounds : forall ks,
  kigits_ok ks -> 0 <= Mint ks < 1000 ^ Z.of_nat (length ks).
Proof.
  induction ks as [|k r IH]; intro H.
  - simpl. lia.
  - inversion H as [|? ? Hk Hr]; subst. specialize (IH Hr).
    cbn [Mint length]. rewrite pow1000_S.
    pose proof (pow1000_pos (length r)). nia.
Qed.

Lemma mantissa_Mint : forall ks,
  (mantissa ks * inject_Z (1000 ^ Z.of_nat (length ks)) == inject_Z (Mint ks))%Q.
Proof.
  induction ks as [|k r IH].
  - simpl. reflexivity.
  - cbn [mantissa Mint length]. rewrite pow1000_S.
    rewrite inject_Z_plus, !inject_Z_mult, <- IH.
    field.
Qed.

Lemma inject_pow1000_nonzero : forall n : nat,
  ~ (inject_Z (1000 ^ Z.of_nat n) == 0)%Q.
Proof.
  intros n H.
  pose proof (pow1000_pos n) as Hp.
  assert (Hq : (0 < inject_Z (1000 ^ Z.of_nat n))%Q)
    by (unfold Qlt; simpl; lia).
  rewrite H in Hq. discriminate Hq.
Qed.

Lemma mantissa_ratio : forall ks,
  (mantissa ks == inject_Z (Mint ks) / inject_Z (1000 ^ Z.of_nat (length ks)))%Q.
Proof.
  intro ks.
  transitivity (mantissa ks * inject_Z (1000 ^ Z.of_nat (length ks))
                / inject_Z (1000 ^ Z.of_nat (length ks)))%Q.
  - symmetry. apply Qdiv_mult_l, inject_pow1000_nonzero.
  - rewrite (mantissa_Mint ks). reflexivity.
Qed.

Lemma mantissa_nonneg : forall ks, kigits_ok ks -> (0 <= mantissa ks)%Q.
Proof.
  intros ks H. rewrite mantissa_ratio.
  pose proof (Mint_bounds ks H) as [Hlo _].
  pose proof (pow1000_pos (length ks)) as Hp.
  apply Qle_shift_div_l.
  - unfold Qlt; simpl; lia.
  - rewrite Qmult_0_l. unfold Qle; simpl; lia.
Qed.

Lemma Qfloor_ratio : forall a b : Z, 0 < b ->
  Qfloor (inject_Z a / inject_Z b) = a / b.
Proof.
  intros a b Hb. destruct b as [|p|p]; try lia.
  unfold Qdiv, Qinv, inject_Z, Qmult, Qfloor. simpl.
  rewrite Z.mul_1_r. reflexivity.
Qed.

Lemma sign_of_abs : forall ty, (Qabs (sign_of ty) == 1)%Q.
Proof. intro ty. unfold sign_of. destruct (id_eqb ty ID_neg_decimal); reflexivity. Qed.



(** Machine integers *)

Lemma ularge_small : forall z, 0 <= z < 2 ^ 64 -> ularge z = z.
Proof. intros z Hz. unfold ularge. apply Z.mod_small. exact Hz. Qed.

(** Powers of ten *)

Lemma ten_nonzero : ~ (inject_Z 10 == 0)%Q.
Proof. intro H. discriminate H. Qed.

Lemma pow10_add : forall a b : Z,
  (inject_Z 10 ^ (a + b) == inject_Z 10 ^ a * inject_Z 10 ^ b)%Q.
Proof. intros a b. apply Qpower_plus, ten_nonzero. Qed.

Lemma pow10_sub3 : forall e : Z,
  (inject_Z 10 ^ (e - 3) * inject_Z 1000 == inject_Z 10 ^ e)%Q.
Proof.
  intro e. replace (e - 3) with (e + -3) by lia. rewrite pow10_add.
  change (inject_Z 10 ^ (-3))%Q with (/ inject_Z 1000)%Q.
  field.
Qed.

(** ** Comparison *)

Lemma id_eqb_refl : forall a, id_eqb a a = true.
Proof. destruct a; reflexivity. Qed.

Lemma compare_kigits_same : forall sign ks, decimal.compare_kigits sign ks ks = None.
Proof.
  induction ks as [|k r IH]; simpl; [reflexivity|].
  rewrite Z.sub_diag; simpl; exact IH.
Qed.

(** The early exit of [compare] on identical pointers agrees with what the
    rest of the function computes on one object. *)
Lemma compare_objects_same : forall x, decimal.compare_objects x x = 0.
Proof.
  intro x; unfold decimal.compare_objects.
  rewrite id_eqb_refl; simpl.
  rewrite Z.eqb_refl; simpl.
  rewrite compare_kigits_same, Z.eqb_refl; reflexivity.
Qed.

(** *** Comparison away from zero *)

Lemma inject_bounds : forall k, 0 <= k < 1000 ->
  (0 <= inject_Z k /\ inject_Z k <= 999)%Q.
Proof.
  intros k Hk. split.
  - change 0%Q with (inject_Z 0). rewrite <- Zle_Qle. lia.
  - change 999%Q with (inject_Z 999). rewrite <- Zle_Qle. lia.
Qed.

Lemma mantissa_range : forall ks, kigits_ok ks -> (0 <= mantissa ks < 1)%Q.
Proof.
  induction ks as [|k r IH]; intro H.
  - simpl. lra.
  - inversion H as [|? ? Hk Hr]; subst. specialize (IH Hr).
    pose proof (inject_bounds k Hk).
    cbn [mantissa]; change (inject_Z 1000) with 1000%Q. split.
    + apply Qle_shift_div_l; lra.
    + apply Qlt_shift_div_r; lra.
Qed.

Lemma mantissa_positive : forall ks,
  kigits_ok ks -> ks <> [] -> last ks 0 <> 0 -> (0 < mantissa ks)%Q.
Proof.
  induction ks as [|k r IH]; intros H Hne Hlast; [congruence|].
  inversion H as [|? ? Hk Hr]; subst.
  pose proof (inject_bounds k Hk).
  pose proof (mantissa_range r Hr).
  cbn [mantissa]; change (inject_Z 1000) with 1000%Q. apply Qlt_shift_div_l; [lra|].
  destruct r as [|k' r'].
  - simpl in Hlast. simpl.
    assert (1 <= inject_Z k)%Q
      by (change 1%Q with (inject_Z 1); rewrite <- Zle_Qle; lia).
    lra.
  - assert (0 < mantissa (k' :: r'))%Q
      by (apply IH; [assumption | discriminate | exact Hlast]).
    lra.
Qed.

Lemma mantissa_leading : forall ks,
  kigits_ok ks -> 100 <= hd 0 ks -> (1 # 10 <= mantissa ks)%Q.
Proof.
  intros [|k r] H Hlead; [simpl in Hlead; lia|].
  inversion H as [|? ? Hk Hr]; subst. cbn [hd] in Hlead.
  pose proof (mantissa_range r Hr).
  assert (100 <= inject_Z k)%Q
    by (change 100%Q with (inject_Z 100); rewrite <- Zle_Qle; lia).
  cbn [mantissa]; change (inject_Z 1000) with 1000%Q. apply Qle_shift_div_l; lra.
Qed.

(** The loop over the common kigits: a difference found decides the order
    of the mantissas; no difference found leaves the order to the lengths,
    which decide it when the trailing kigits are not 0. *)
Lemma compare_kigits_order : forall xb yb sign,
  kigits_ok xb -> kigits_ok yb ->
  (xb = [] \/ last xb 0 <> 0) -> (yb = [] \/ last yb 0 <> 0) ->
  match decimal.compare_kigits sign xb yb with
  | Some r =>
      exists d, r = sign * d /\ d <> 0 /\
        (d < 0 -> (mantissa xb < mantissa yb)%Q) /\
        (0 < d -> (mantissa yb < mantissa xb)%Q)
  | None =>
      ((length xb < length yb)%nat -> (mantissa xb < mantissa yb)%Q) /\
      ((length yb < length xb)%nat -> (mantissa yb < mantissa xb)%Q) /\
      (length xb = length yb -> (mantissa xb == mantissa yb)%Q)
  end.
Proof.
  induction xb as [|xk xr IH]; intros yb sign Hx Hy Hxl Hyl.
  - destruct yb as [|yk yr]; cbn [decimal.compare_kigits length].
    + split; [lia|]. split; [lia|]. intros _. reflexivity.
    + split; [|split; [lia|discriminate]]. intros _.
      apply (mantissa_positive (yk :: yr)); [assumption | discriminate |].
      destruct Hyl as [Hyl|Hyl]; [discriminate | exact Hyl].
  - destruct yb as [|yk yr]; cbn [decimal.compare_kigits length].
    + split; [lia|]. split; [|discriminate]. intros _.
      apply (mantissa_positive (xk :: xr)); [assumption | discriminate |].
      destruct Hxl as [Hxl|Hxl]; [discriminate | exact Hxl].
    + inversion Hx as [|? ? Hxk Hxr]; subst.
      inversion Hy as [|? ? Hyk Hyr]; subst.
      pose proof (mantissa_range xr Hxr) as Rx.
      pose proof (mantissa_range yr Hyr) as Ry.
      destruct (Z.eqb_spec (xk - yk) 0) as [Heq|Hneq].
      * assert (xk = yk) by lia. subst yk.
        assert (Hxl' : xr = [] \/ last xr 0 <> 0).
        { destruct xr; [left; reflexivity | right].
          destruct Hxl as [Hxl|Hxl]; [discriminate | exact Hxl]. }
        assert (Hyl' : yr = [] \/ last yr 0 <> 0).
        { destruct yr; [left; reflexivity | right].
          destruct Hyl as [Hyl|Hyl]; [discriminate | exact Hyl]. }
        specialize (IH yr sign Hxr Hyr Hxl' Hyl').
        destruct (decimal.compare_kigits sign xr yr) as [r|].
        -- destruct IH as (d & Hr & Hd & Hlt & Hgt).
           exists d. split; [assumption|]. split; [assumption|]. split.
           ++ intro Hneg. specialize (Hlt Hneg). cbn [mantissa]; change (inject_Z 1000) with 1000%Q.
              apply Qlt_shift_div_r; [lra|].
              setoid_replace ((inject_Z xk + mantissa yr) / 1000 * 1000)%Q
                with (inject_Z xk + mantissa yr)%Q by field. lra.
           ++ intro Hpos. specialize (Hgt Hpos). cbn [mantissa]; change (inject_Z 1000) with 1000%Q.
              apply Qlt_shift_div_r; [lra|].
              setoid_replace ((inject_Z xk + mantissa xr) / 1000 * 1000)%Q
                with (inject_Z xk + mantissa xr)%Q by field. lra.
        -- destruct IH as (Hlt & Hgt & Heq').
           split; [|split].
           ++ intro Hl. specialize (Hlt ltac:(lia)). cbn [mantissa]; change (inject_Z 1000) with 1000%Q.
              apply Qlt_shift_div_r; [lra|].
              setoid_replace ((inject_Z xk + mantissa yr) / 1000 * 1000)%Q
                with (inject_Z xk + mantissa yr)%Q by field. lra.
           ++ intro Hl. specialize (Hgt ltac:(lia)). cbn [mantissa]; change (inject_Z 1000) with 1000%Q.
              apply Qlt_shift_div_r; [lra|].
              setoid_replace ((inject_Z xk + mantissa xr) / 1000 * 1000)%Q
                with (inject_Z xk + mantissa xr)%Q by field. lra.
           ++ intro Hl. specialize (Heq' ltac:(lia)). cbn [mantissa]; change (inject_Z 1000) with 1000%Q.
              rewrite Heq'. reflexivity.
      * exists (xk - yk). split; [reflexivity|]. split; [assumption|]. split.
        -- intro Hneg. cbn [mantissa]; change (inject_Z 1000) with 1000%Q.
           assert (inject_Z xk + 1 <= inject_Z yk)%Q.
           { change 1%Q with (inject_Z 1). rewrite <- inject_Z_plus, <- Zle_Qle. lia. }
           apply Qlt_shift_div_r; [lra|].
           setoid_replace ((inject_Z yk + mantissa yr) / 1000 * 1000)%Q
             with (inject_Z yk + mantissa yr)%Q by field. lra.
        -- intro Hpos. cbn [mantissa]; change (inject_Z 1000) with 1000%Q.
           assert (inject_Z yk + 1 <= inject_Z xk)%Q.
           { change 1%Q with (inject_Z 1). rewrite <- inject_Z_plus, <- Zle_Qle. lia. }
           apply Qlt_shift_div_r; [lra|].
           setoid_replace ((inject_Z xk + mantissa xr) / 1000 * 1000)%Q
             with (inject_Z xk + mantissa xr)%Q by field. lra.
Qed.

Lemma pow10_positive : forall e : Z, (0 < inject_Z 10 ^ e)%Q.
Proof. intro e. apply Qpower_0_lt. reflexivity. Qed.

Lemma pow10_step : forall a b : Z, a < b ->
  (inject_Z 10 ^ a * 10 <= inject_Z 10 ^ b)%Q.
Proof.
  intros a b Hab.
  replace b with (a + 1 + (b - a - 1)) by lia.
  rewrite !pow10_add.
  change (inject_Z 10 ^ 1)%Q with 10%Q.
  rewrite <- (Zpower_Qpower 10 (b - a - 1)) by lia.
  assert (H1 : (1 <= inject_Z (10 ^ (b - a - 1)))%Q).
  { change 1%Q with (inject_Z 1). rewrite <- Zle_Qle.
    assert (0 < 10 ^ (b - a - 1)) by (apply Z.pow_pos_nonneg; lia). lia. }
  pose proof (pow10_positive a) as Ha.
  set (p := (inject_Z 10 ^ a)%Q) in *.
  set (q := inject_Z (10 ^ (b - a - 1))) in *.
  assert (H2 : (0 <= p * 10 * (q - 1))%Q) by (apply Qmult_le_0_compat; lra).
  lra.
Qed.

(** With mantissas in [0.1, 1), the larger exponent makes the larger
    magnitude. *)
Lemma magnitude_exponent_order : forall x y,
  normal x -> normal y -> exponent x < exponent y ->
  (magnitude x < magnitude y)%Q.
Proof.
  intros x y ((_ & Hx) & _ & _ & _) ((_ & Hy) & _ & Hly & _) He.
  unfold magnitude.
  pose proof (mantissa_range (kigs x) Hx) as Rx.
  pose proof (mantissa_leading (kigs y) Hy Hly) as Ly.
  pose proof (pow10_positive (exponent x)) as Px.
  pose proof (pow10_positive (exponent y)) as Py.
  pose proof (pow10_step (exponent x) (exponent y) He) as Hs.
  set (mx := mantissa (kigs x)) in *. set (my := mantissa (kigs y)) in *.
  set (px := (inject_Z 10 ^ exponent x)%Q) in *.
  set (py := (inject_Z 10 ^ exponent y)%Q) in *.
  assert (H1 : (0 < (1 - mx) * px)%Q) by (apply Qmult_lt_0_compat; lra).
  assert (H2 : (0 <= (my - (1 # 10)) * py)%Q) by (apply Qmult_le_0_compat; lra).
  lra.
Qed.

Lemma magnitude_positive : forall x, normal x -> (0 < magnitude x)%Q.
Proof.
  intros x ((_ & Hx) & _ & Hlx & _). unfold magnitude.
  pose proof (mantissa_leading (kigs x) Hx Hlx).
  apply Qmult_lt_0_compat; [lra | apply pow10_positive].
Qed.

(** What [compare] computes on two decimals of one sign is the sign factor
    times a number that orders the magnitudes. *)
Lemma compare_magnitudes : forall x y sign,
  normal x -> normal y ->
  exists d,
    (if negb (exponent x =? exponent y)
     then sign * (exponent x - exponent y)
     else
       match decimal.compare_kigits sign (kigs x) (kigs y) with
       | Some r => r
       | None =>
           if negb (Z.of_nat (length (kigs x)) =? Z.of_nat (length (kigs y)))
           then sign * (Z.of_nat (length (kigs x)) - Z.of_nat (length (kigs y)))
           else 0
       end) = sign * d /\
    (d < 0 -> (magnitude x < magnitude y)%Q) /\
    (d = 0 -> (magnitude x == magnitude y)%Q) /\
    (0 < d -> (magnitude y < magnitude x)%Q).
Proof.
  intros x y sign Nx Ny.
  destruct (Z.eqb_spec (exponent x) (exponent y)) as [He|He]; cbn [negb].
  - pose proof Nx as ((_ & Hx) & _ & _ & Htx).
    pose proof Ny as ((_ & Hy) & _ & _ & Hty).
    pose proof (compare_kigits_order (kigs x) (kigs y) sign Hx Hy
                  (or_intror Htx) (or_intror Hty)) as Hk.
    pose proof (pow10_positive (exponent y)) as Py.
    unfold magnitude. rewrite He.
    destruct (decimal.compare_kigits sign (kigs x) (kigs y)) as [r|].
    + destruct Hk as (d & Hr & Hd & Hlt & Hgt). exists d.
      split; [exact Hr|]. split; [|split].
      * intro H. apply Qmult_lt_compat_r; [exact Py | apply Hlt, H].
      * intro H. lia.
      * intro H. apply Qmult_lt_compat_r; [exact Py | apply Hgt, H].
    + destruct Hk as (Hlt & Hgt & Heq).
      exists (Z.of_nat (length (kigs x)) - Z.of_nat (length (kigs y))).
      split.
      * destruct (Z.eqb_spec (Z.of_nat (length (kigs x)))
                             (Z.of_nat (length (kigs y)))) as [Hl|Hl];
          cbn [negb]; [rewrite Hl; ring | reflexivity].
      * split; [|split].
        -- intro H. apply Qmult_lt_compat_r; [exact Py | apply Hlt; lia].
        -- intro H. rewrite (Heq ltac:(lia)). reflexivity.
        -- intro H. apply Qmult_lt_compat_r; [exact Py | apply Hgt; lia].
  - exists (exponent x - exponent y). split; [reflexivity|].
    split; [|split].
    + intro H. apply magnitude_exponent_order; [assumption | assumption | lia].
    + intro H. lia.
    + intro H. apply magnitude_exponent_order; [assumption | assumption | lia].
Qed.

(** On normalized decimals other than zero, [compare] agrees with the
    order of the values: its result is negative, zero or positive as the
    value of x is below, equal to or above the value of y. *)
Lemma compare_orders_normal_decimals : forall x y,
  normal x -> normal y ->
  Z.abs (exponent x - exponent y) < 2 ^ 31 ->
  (value x ?= value y)%Q = (decimal.compare (Some x) (Some y) ?= 0).
Proof.
  intros x y Nx Ny Hexp.
  assert (Hd : cint (exponent x - exponent y) = exponent x - exponent y)
    by (apply cint_small; lia).
  assert (H1 : cint (1 * cint (exponent x - exponent y))
               = 1 * (exponent x - exponent y))
    by (rewrite Hd; apply cint_small; lia).
  assert (H2 : cint (-1 * cint (exponent x - exponent y))
               = -1 * (exponent x - exponent y))
    by (rewrite Hd; apply cint_small; lia).
  pose proof (magnitude_positive x Nx) as Px.
  pose proof (magnitude_positive y Ny) as Py.
  pose proof Nx as ((Htx & _) & _). pose proof Ny as ((Hty & _) & _).
  assert (Vx : (value x == sign_of (type x) * magnitude x)%Q)
    by (unfold value, magnitude; ring).
  assert (Vy : (value y == sign_of (type y) * magnitude y)%Q)
    by (unfold value, magnitude; ring).
  rewrite Vx, Vy.
  cbn [decimal.compare]. unfold decimal.compare_objects.
  destruct (type x) eqn:Ex; try discriminate Htx;
    destruct (type y) eqn:Ey; try discriminate Hty;
    cbn [id_eqb negb Z.b2z sign_of].
  - (* both positive *)
    destruct (compare_magnitudes x y 1 Nx Ny) as (d & Hc & Hlt & Heq & Hgt).
    rewrite H1, Hc, Z.mul_1_l.
    destruct (Z.compare_spec d 0) as [H|H|H].
    + apply -> Qeq_alt. rewrite (Heq H). reflexivity.
    + apply -> Qlt_alt. specialize (Hlt H). lra.
    + apply -> Qgt_alt. specialize (Hgt H). lra.
  - (* x positive, y negative *)
    change (1 - 0 ?= 0) with Gt. apply -> Qgt_alt. lra.
  - (* x negative, y positive *)
    change (0 - 1 ?= 0) with Lt. apply -> Qlt_alt. lra.
  - (* both negative *)
    destruct (compare_magnitudes x y (-1) Nx Ny) as (d & Hc & Hlt & Heq & Hgt).
    rewrite H2, Hc.
    destruct (Z.compare_spec d 0) as [H|H|H].
    + subst d. change (-1 * 0 ?= 0) with Eq.
      apply -> Qeq_alt. rewrite (Heq eq_refl). reflexivity.
    + replace (-1 * d ?= 0) with Gt by (symmetry; apply Z.compare_gt_iff; lia).
      apply -> Qgt_alt. specialize (Hlt H). lra.
    + replace (-1 * d ?= 0) with Lt by (symmetry; apply Z.compare_lt_iff; lia).
      apply -> Qlt_alt. specialize (Hgt H). lra.
Qed.

(** C10.  [compare] tells the two encodings of zero apart: for a positive
    zero and a negative zero, whatever their stored exponents, both are
    zero for [is_zero], [fpclass] and by value, yet [compare] is strictly
    positive on (+0, -0) and the derived equality answers false. *)
Theorem compare_separates_signed_zeros :
  forall ex ey : Z,
    let pz := mk_decimal ID_decimal ex [] in
    let nz := mk_decimal ID_neg_decimal ey [] in
    decimal.is_zero pz = true /\ decimal.is_zero nz = true /\
    decimal.fpclass pz = positiveZero /\ decimal.fpclass nz = negativeZero /\
    (value pz == 0)%Q /\ (value nz == 0)%Q /\
    0 < decimal.compare (Some pz) (Some nz) /\
    decimal.eq pz nz = false.
Proof.
  intros ex ey pz nz.
  repeat split; reflexivity.
Qed.

(** C4.  [compare] takes the operand with the larger exponent for the
    larger one without looking at the kigit counts: the zero parsed from
    the text 0 (exponent 0, no kigit) compares greater than the decimal
    parsed from 0.001 (exponent -2), although 0 < 0.001. *)
Theorem compare_misorders_zero :
  let zero := mk_decimal ID_decimal 0 [] in
  let milli := mk_decimal ID_decimal (-2) [100] in
  parse_text default_settings 0 "0" = Parsed 1 zero /\
  parse_text default_settings 0 "0.001" = Parsed 5 milli /\
  decimal.compare (Some zero) (Some milli) = 2 /\
  decimal.gt zero milli = true /\
  (value zero < value milli)%Q.
Proof.
  repeat split; vm_compute; reflexivity.
Qed.

(** ** Addition and subtraction *)

(** C1.  When the sum carries out of the top kigit, [add] shifts the
    mantissa right by one digit inside the same number of kigits, so the
    last digit falls off even though the precision has room for it:
    9.99 + 9.99 yields 19.9, not 19.98. *)
Theorem add_drops_digit_on_carry :
  let x := mk_decimal ID_decimal 1 [999] in
  let exact := mk_decimal ID_decimal 2 [199; 800] in
  decimal.add default_settings x x = mk_decimal ID_decimal 2 [199] /\
  (value (decimal.add default_settings x x) == 199 # 10)%Q /\
  (value x + value x == 1998 # 100)%Q /\
  (value exact == value x + value x)%Q.
Proof.
  repeat split; vm_compute; reflexivity.
Qed.

(** C2.  With an exponent difference that is not a multiple of 3, [sub]
    subtracts the low digits of a kigit of y only while the kigit above it
    exists in y, so the low digits of the last kigit of y are never
    subtracted: 1 - 0.011 yields 0.99, not 0.989.  [add] aligns the same
    operands in full: 1 + 0.011 yields 1.011. *)
Theorem sub_drops_low_digits_of_last_kigit :
  let x := mk_decimal ID_decimal 1 [100] in
  let y := mk_decimal ID_decimal (-1) [110] in
  decimal.sub default_settings x y = mk_decimal ID_decimal 0 [990] /\
  (value (decimal.sub default_settings x y) == 990 # 1000)%Q /\
  (value x - value y == 989 # 1000)%Q /\
  decimal.add default_settings x y = mk_decimal ID_decimal 1 [101; 100] /\
  (value (decimal.add default_settings x y) == value x + value y)%Q.
Proof.
  repeat split; vm_compute; reflexivity.
Qed.

(** ** Normalization *)

(** C5.  The parser pads the last group of digits to a kigit and never
    strips trailing zero kigits: the text 1.100 yields the kigits 110 and 0,
    which is not a normalized decimal, whereas [add], [sub] and [mul] all
    end by stripping trailing zero kigits.  The code itself counts on the
    normal form: the decimal parsed from 1.000 is not one for [is_one], and
    the decimal parsed from 1.100 is not equal to the one parsed from 1.1
    for [compare]. *)
Theorem parse_leaves_trailing_zero_kigit :
  let d := mk_decimal ID_decimal 1 [110; 0] in
  let one := mk_decimal ID_decimal 1 [100; 0] in
  parse_text default_settings 0 "1.100" = Parsed 5 d /\
  last (kigs d) 1 = 0 /\
  normalizedb d = false /\
  parse_text default_settings 0 "1.1"
    = Parsed 3 (mk_decimal ID_decimal 1 [110]) /\
  decimal.eq d (mk_decimal ID_decimal 1 [110]) = false /\
  parse_text default_settings 0 "1.000" = Parsed 5 one /\
  decimal.is_one one = false /\
  (value one == 1)%Q.
Proof.
  repeat split; vm_compute; reflexivity.
Qed.

(** ** Signs in front of numbers *)

Lemma leb_0_ltb : forall d, (0 <=? d) = negb (d <? 0).
Proof. intro d; destruct (Z.leb_spec 0 d), (Z.ltb_spec d 0); simpl; lia || reflexivity. Qed.

Lemma scan_digit_agree : forall c a b,
  scan_agree a b -> scan_agree (scan_digit c a) (scan_digit c b).
Proof.
  intros c a b (Hk & Hc & He & Hd & Hn & Hz & Hs).
  unfold scan_digit.
  rewrite !leb_0_ltb, Hk, Hc, He, Hd, Hn, Hz, Hs.
  destruct (negb (sc_zeroes b) || negb (c =? 48)).
  - destruct (sc_kigc b + 1 =? 3); repeat split; simpl; auto.
  - destruct (negb (sc_decimalDot b <? 0)) eqn:E; repeat split; simpl; auto.
Qed.

Lemma scan_digits_shift : forall c src fuel s a b,
  scan_agree a b ->
  exists s' a' b',
    scan_digits src fuel s a = (s', a') /\
    scan_digits (c :: src) fuel (S s) b = (S s', b') /\
    scan_agree a' b'.
Proof.
  intros c src fuel; induction fuel as [|f IH]; intros s a b Hab; simpl.
  - exists s, a, b; auto.
  - change (byte_at (c :: src) (S s)) with (byte_at src s).
    destruct (is_digit (byte_at src s)).
    + apply IH, scan_digit_agree, Hab.
    + destruct Hab as (Hk & Hc & He & Hd & Hn & Hz & Hs).
      rewrite Hd.
      destruct ((sc_decimalDot b <? 0)
                && ((byte_at src s =? 46) || (byte_at src s =? 44))).
      * apply IH. repeat split; simpl; auto.
        destruct (Z.ltb_spec (Z.of_nat s) 0), (Z.ltb_spec (Z.of_nat (S s)) 0);
          lia || reflexivity.
      * exists s, a, b; repeat split; auto.
Qed.

Lemma scan_exponent_shift : forall c src fuel s,
  scan_exponent (c :: src) fuel (S s) = S (scan_exponent src fuel s).
Proof.
  intros c src fuel; induction fuel as [|f IH]; intro s; simpl; [reflexivity|].
  change (byte_at (c :: src) (S s)) with (byte_at src s).
  destruct (is_digit (byte_at src s)); [apply IH | reflexivity].
Qed.

Lemma utf8_codepoint_shift : forall c src s,
  utf8_codepoint (c :: src) (S s) = utf8_codepoint src s.
Proof. reflexivity. Qed.

Lemma utf8_next_shift : forall c src s,
  utf8_next (c :: src) (S s) = S (utf8_next src s).
Proof. reflexivity. Qed.

Lemma parse_tail_shift : forall Settings c src last ty ty0 s a b,
  scan_agree a b ->
  parse_tail Settings (c :: src) (S last) ty (S s) b
  = signed_outcome ty (parse_tail Settings src last ty0 s a).
Proof.
  intros Settings c src last ty ty0 s a b (Hk & Hc & He & Hd & Hn & Hz & Hs).
  unfold parse_tail.
  rewrite !leb_0_ltb, Hk, Hc, He, Hd, Hn, Hs.
  rewrite utf8_codepoint_shift, utf8_next_shift.
  change (byte_at (c :: src) (S s)) with (byte_at src s).
  change (byte_at (c :: src) (S (utf8_next src s)))
    with (byte_at src (utf8_next src s)).
  destruct (sc_digits b =? 0)%nat; [reflexivity|].
  destruct (TooManyDigitsErrors Settings && (Precision Settings <? sc_digits b)%nat);
    [reflexivity|].
  destruct ((byte_at src s =? 101) || (byte_at src s =? 69)
            || (utf8_codepoint src s =? ExponentSeparator Settings));
    [|reflexivity].
  cbv zeta.
  set (e := utf8_next src s).
  destruct ((byte_at src e =? 43) || (byte_at src e =? 45)).
  - rewrite scan_exponent_shift. change (S last - S (S e))%nat with (last - S e)%nat.
    change (S (scan_exponent src (last - S e) (S e)) =? S (S e))%nat
      with (scan_exponent src (last - S e) (S e) =? S e)%nat.
    destruct (scan_exponent src (last - S e) (S e) =? S e)%nat; reflexivity.
  - rewrite scan_exponent_shift. change (S last - S e)%nat with (last - e)%nat.
    change (S (scan_exponent src (last - e) e) =? S e)%nat
      with (scan_exponent src (last - e) e =? e)%nat.
    destruct (scan_exponent src (last - e) e =? e)%nat; reflexivity.
Qed.

(** C7.  A number with a leading sign is parsed only at a precedence level
    that admits a unary sign.  Below level 0 the parser answers SKIP on any
    text that starts with + or -.  From level 0 on, a sign in front of a
    text that does not itself start with a sign yields what the text
    without the sign yields, moved by one byte, with the negative tag for
    - and the positive tag for +. *)
Theorem sign_accepted_when_precedence_admits :
  forall (Settings : settings) (p : parser) (sign : Z) (src : list Z) (len : nat),
    sign = 43 \/ sign = 45 ->
    source p = sign :: src ->
    (precedence p < 0 -> decimal_parse Settings p = Skipped) /\
    (0 <= precedence p ->
     p_length p = S len ->
     byte_at src 0 <> 43 -> byte_at src 0 <> 45 ->
     decimal_parse Settings p
     = signed_outcome (if sign =? 45 then ID_neg_decimal else ID_decimal)
         (decimal_parse Settings (mk_parser src len (precedence p)))).
Proof.
  intros Settings p sign src len Hsign Hsrc.
  assert (Hc0 : (sign =? 43) || (sign =? 45) = true)
    by (destruct Hsign; subst sign; reflexivity).
  split.
  - intro Hprec. unfold decimal_parse. rewrite Hsrc.
    change (byte_at (sign :: src) 0) with sign.
    rewrite Hc0. apply Z.ltb_lt in Hprec. rewrite Hprec. reflexivity.
  - intros Hprec Hlen Hp Hm. unfold decimal_parse. rewrite Hsrc, Hlen.
    cbn [source p_length precedence].
    change (byte_at (sign :: src) 0) with sign.
    rewrite Hc0.
    assert (Hnp : (precedence p <? 0) = false) by (apply Z.ltb_ge; lia).
    rewrite Hnp.
    apply Z.eqb_neq in Hp, Hm. rewrite Hp, Hm.
    cbn [andb orb].
    change (S len - 1)%nat with (len - 0)%nat.
    destruct (scan_digits_shift sign src (len - 0) 0
                (mk_scan 0 0 0 (-1) 0 true []) (mk_scan 0 0 0 (-1) 0 true []))
      as (s' & a' & b' & Ha & Hb & Hab).
    { repeat split. }
    rewrite Ha, Hb.
    apply parse_tail_shift, Hab.
Qed.

Lemma sign_accepted_when_precedence_admits_witness :
  parse_text default_settings (-1) "-12.5" = Skipped /\
  parse_text default_settings 0 "-12.5"
  = Parsed 5 (mk_decimal ID_neg_decimal 2 [125]).
Proof.
  split.
  - apply (proj1 (sign_accepted_when_precedence_admits default_settings
             (mk_parser (bytes_of "-12.5") 5 (-1)) 45 (bytes_of "12.5") 4
             (or_intror eq_refl) eq_refl)).
    reflexivity.
  - apply (proj2 (sign_accepted_when_precedence_admits default_settings
             (mk_parser (bytes_of "-12.5") 5 0) 45 (bytes_of "12.5") 4
             (or_intror eq_refl) eq_refl)).
    + vm_compute; discriminate.
    + reflexivity.
    + vm_compute; discriminate.
    + vm_compute; discriminate.
Defined.

(** ** Loops *)

Lemma result_eqb_OK : forall r, result_eqb r OK = true -> r = OK.
Proof. destruct r; simpl; congruence. Qed.

Section LoopProperties.

Variable heap : Type.
Variable evaluate : object -> loop.runtime heap -> result * loop.runtime heap.
Variable interrupted : loop.runtime heap -> bool.
Variable as_truth : object -> Z.
Variable alg_add : object -> object -> object.
Variable alg_lt : object -> object -> object.
Variable alg_gt : object -> object -> object.

Abbreviation runtime := (loop.runtime heap).
Abbreviation while_loop := (loop.while_loop heap interrupted).
Abbreviation DoUntil_round := (loop.DoUntil_round heap evaluate as_truth).
Abbreviation DoUntil_evaluate := (loop.DoUntil_evaluate heap evaluate interrupted as_truth).
Abbreviation WhileRepeat_round := (loop.WhileRepeat_round heap evaluate as_truth).
Abbreviation WhileRepeat_evaluate := (loop.WhileRepeat_evaluate heap evaluate interrupted as_truth).
Abbreviation counted_fast_round := (loop.counted_fast_round heap evaluate).
Abbreviation counted_fast := (loop.counted_fast heap evaluate interrupted).
Abbreviation counted_slow_round :=
  (loop.counted_slow_round heap evaluate as_truth alg_add alg_lt alg_gt).
Abbreviation counted_slow :=
  (loop.counted_slow heap evaluate interrupted as_truth alg_add alg_lt alg_gt).
Abbreviation counted :=
  (loop.counted heap evaluate interrupted as_truth alg_add alg_lt alg_gt).
Abbreviation StartNext_evaluate :=
  (loop.StartNext_evaluate heap evaluate interrupted as_truth alg_add alg_lt alg_gt).
Abbreviation StartStep_evaluate :=
  (loop.StartStep_evaluate heap evaluate interrupted as_truth alg_add alg_lt alg_gt).
Abbreviation rounds := (loop_spec.rounds heap interrupted).
Abbreviation after_body := (loop_spec.after_body heap evaluate).
Abbreviation after_step := (loop_spec.after_step heap evaluate).
Abbreviation repeated := (loop_spec.repeated heap).
Abbreviation runs_clean := (loop_spec.runs_clean heap evaluate interrupted).
Abbreviation runs_stepping := (loop_spec.runs_stepping heap evaluate interrupted).
Abbreviation integer_arithmetic :=
  (loop_spec.integer_arithmetic as_truth alg_add alg_lt).

Lemma while_loop_interrupted :
  forall (vars exit : Type) (rt_of : vars -> runtime)
         (stop : result -> runtime -> exit)
         (round : vars -> loop.flow vars exit) k s s',
    rounds rt_of round k s s' ->
    interrupted (rt_of s') = true ->
    forall fuel, (k < fuel)%nat ->
    while_loop rt_of stop round fuel s = Some (stop OK (rt_of s')).
Proof.
  intros vars exit rt_of stop round k s s' H.
  induction H as [s|k s s1 s' Hpoll Hround _ IH]; intros Hint fuel Hfuel.
  - destruct fuel as [|f]; [lia|]. simpl. rewrite Hint. reflexivity.
  - destruct fuel as [|f]; [lia|]. simpl. rewrite Hpoll, Hround.
    apply IH; [assumption | lia].
Qed.

Lemma while_loop_breaks :
  forall (vars exit : Type) (rt_of : vars -> runtime)
         (stop : result -> runtime -> exit)
         (round : vars -> loop.flow vars exit) k s s' r,
    rounds rt_of round k s s' ->
    interrupted (rt_of s') = false ->
    round s' = loop.Break r ->
    forall fuel, (k < fuel)%nat ->
    while_loop rt_of stop round fuel s = Some r.
Proof.
  intros vars exit rt_of stop round k s s' r H.
  induction H as [s|k s s1 s' Hpoll Hround _ IH]; intros Hint Hbrk fuel Hfuel.
  - destruct fuel as [|f]; [lia|]. simpl. rewrite Hint, Hbrk. reflexivity.
  - destruct fuel as [|f]; [lia|]. simpl. rewrite Hpoll, Hround.
    apply IH; [assumption | assumption | lia].
Qed.

(** C9 (as amended).  In every loop the flag is polled at the loop head,
    before each round including the first.  When, after any number [k] of
    full rounds, the poll finds the flag set, the loop runs nothing more:
    it returns at once with the runtime as it is at that poll, and with the
    status [OK], not with an error.  This holds for DO...UNTIL,
    WHILE...REPEAT, both loops of [loop::counted], and for [loop::counted]
    entered with integer or with other real bounds. *)
Theorem interrupted_loop_returns_OK :
  forall (k fuel : nat),
    (k < fuel)%nat ->
    (forall o rt rt',
        rounds (fun r => r) (DoUntil_round (first o) (second o)) k rt rt' ->
        interrupted rt' = true ->
        DoUntil_evaluate fuel o rt = Some (OK, rt')) /\
    (forall o rt rt',
        rounds (fun r => r) (WhileRepeat_round (first o) (second o)) k rt rt' ->
        interrupted rt' = true ->
        WhileRepeat_evaluate fuel o rt = Some (OK, rt')) /\
    (forall body stepping named incr cnt last rt s',
        rounds (loop.f_rt heap) (counted_fast_round body stepping named last) k
          (loop.mk_fast heap incr cnt rt) s' ->
        interrupted (loop.f_rt heap s') = true ->
        counted_fast fuel body stepping named incr cnt last rt
        = Some (loop.Returned heap OK (loop.f_rt heap s'))) /\
    (forall body stepping named skip cnt last zero step rt s',
        rounds (loop.s_rt heap)
          (counted_slow_round body stepping named last zero) k
          (loop.mk_slow heap skip cnt step rt) s' ->
        interrupted (loop.s_rt heap s') = true ->
        counted_slow fuel body stepping named skip cnt last zero step rt
        = Some (OK, loop.s_rt heap s')) /\
    (forall body stepping named rt start finish tail s',
        loop.stack heap rt
        = integer_object ID_integer finish
            :: integer_object ID_integer start :: tail ->
        rounds (loop.f_rt heap)
          (counted_fast_round body stepping named (ularge finish)) k
          (loop.mk_fast heap 1 (ularge start) (loop.drop heap 2 rt)) s' ->
        interrupted (loop.f_rt heap s') = true ->
        counted fuel body stepping named rt
        = Some (OK, loop.f_rt heap s')) /\
    (forall body stepping named rt start finish tail s',
        loop.stack heap rt = finish :: start :: tail ->
        as_integer_value start = None \/ as_integer_value finish = None ->
        is_real (object_type start) && is_real (object_type finish) = true ->
        rounds (loop.s_rt heap)
          (counted_slow_round body stepping named finish (integer_make 0)) k
          (loop.mk_slow heap false start (integer_make 1)
             (loop.drop heap 2 rt)) s' ->
        interrupted (loop.s_rt heap s') = true ->
        counted fuel body stepping named rt
        = Some (OK, loop.s_rt heap s')).
Proof.
  intros k fuel Hfuel.
  split; [|split; [|split; [|split; [|split]]]].
  - intros o rt rt' H Hint.
    apply (while_loop_interrupted _ _ (fun r => r) pair _ k rt rt' H Hint fuel Hfuel).
  - intros o rt rt' H Hint.
    apply (while_loop_interrupted _ _ (fun r => r) pair _ k rt rt' H Hint fuel Hfuel).
  - intros body stepping named incr cnt last rt s' H Hint.
    apply (while_loop_interrupted _ _ _ (loop.Returned heap) _ k _ s' H Hint fuel Hfuel).
  - intros body stepping named skip cnt last zero step rt s' H Hint.
    apply (while_loop_interrupted _ _ _ pair _ k _ s' H Hint fuel Hfuel).
  - intros body stepping named rt start finish tail s' Hst H Hint.
    unfold loop.counted. rewrite Hst. cbn [as_integer_value].
    unfold loop.counted_fast.
    rewrite (while_loop_interrupted _ _ _ (loop.Returned heap) _ k _ s' H Hint fuel Hfuel).
    reflexivity.
  - intros body stepping named rt start finish tail s' Hst Hni Hreal H Hint.
    unfold loop.counted. rewrite Hst, Hreal.
    assert (Hslow : counted_slow fuel body stepping named false start finish
                      (integer_make 0) (integer_make 1) (loop.drop heap 2 rt)
                    = Some (OK, loop.s_rt heap s')).
    { apply (while_loop_interrupted _ _ _ pair _ k _ s' H Hint fuel Hfuel). }
    destruct Hni as [Hn|Hn]; rewrite Hn.
    + exact Hslow.
    + destruct (as_integer_value start); exact Hslow.
Qed.


(** *** Counted loops *)

Lemma runs_clean_tail : forall f body n rt,
  runs_clean f body (S n) rt -> runs_clean f body n (f rt).
Proof.
  intros f body n rt H i Hi. apply (H (S i)). lia.
Qed.

Lemma counted_fast_next_runs :
  forall body last n cnt rt fuel,
    (0 < n)%nat -> 0 <= cnt < 2 ^ 64 - 1 -> last < 2 ^ 64 - 1 ->
    cnt + Z.of_nat n = last + 1 \/ (n = 1%nat /\ last < cnt) ->
    runs_clean (after_body body) body n rt ->
    (n < fuel)%nat ->
    counted_fast fuel body false false 1 cnt last rt
    = Some (loop.Returned heap OK (repeated (after_body body) n rt)).
Proof.
  intros body last n; induction n as [|n IH]; intros cnt rt fuel Hn Hcnt Hmax Hlast Hclean Hfuel;
    [lia|].
  destruct fuel as [|fuel]; [lia|].
  unfold loop.counted_fast. cbn [loop.while_loop loop.f_rt].
  destruct (Hclean 0%nat ltac:(lia)) as [Hpoll Hok]. cbn [loop_spec.repeated] in Hpoll, Hok.
  rewrite Hpoll.
  unfold loop.counted_fast_round. cbn [loop.f_rt loop.f_cnt loop.f_incr].
  unfold loop_spec.after_body in *.
  destruct (evaluate body rt) as [r rt1] eqn:Hev. cbn [fst snd] in *. subst r.
  cbn [result_eqb negb]. unfold loop.fast_next.
  rewrite (ularge_small (cnt + 1)) by lia.
  destruct (Z.ltb_spec last (cnt + 1)) as [Hgt|Hle].
  - (* the loop ends here *)
    assert (n = 0%nat) by lia. subst n. cbn [loop_spec.repeated]. rewrite Hev. reflexivity.
  - assert (Hn' : (0 < n)%nat) by lia.
    specialize (IH (cnt + 1) rt1 fuel Hn' ltac:(lia) Hmax ltac:(left; lia)).
    cbn [loop_spec.repeated]. rewrite Hev. cbn [snd].
    apply IH; [|lia].
    apply runs_clean_tail in Hclean. unfold loop_spec.after_body in Hclean.
    rewrite Hev in Hclean. exact Hclean.
Qed.


Lemma runs_stepping_tail : forall body k n rt,
  runs_stepping body k (S n) rt -> runs_stepping body k n (after_step body rt).
Proof.
  intros body k n rt H i Hi. apply (H (S i)). lia.
Qed.

Lemma pop_hd : forall (rt : runtime) o,
  hd_error (loop.stack heap rt) = Some o ->
  exists rt', loop.pop heap rt = Some (o, rt').
Proof.
  intros rt o H. unfold loop.pop.
  destruct (loop.stack heap rt) as [|o' tl]; simpl in H; [discriminate|].
  injection H as ->. eexists; reflexivity.
Qed.

Lemma slow_next_countdown :
  integer_arithmetic ->
  forall k c f rt, 0 < k ->
    loop.slow_next heap as_truth alg_add alg_lt alg_gt true
      (int_object f) (integer_make 0) (int_object c)
      (integer_object ID_neg_integer k) rt
    = if c - k <? f then loop.Break (OK, rt)
      else loop.Continue
             (loop.mk_slow heap false (int_object (c - k))
                (integer_object ID_neg_integer k) rt).
Proof.
  intros [Hadd Hlt] k c f rt Hk.
  assert (Hstep : integer_object ID_neg_integer k = int_object (- k)).
  { unfold int_object. destruct (Z.ltb_spec (- k) 0); [|lia].
    rewrite Z.opp_involutive. reflexivity. }
  unfold loop.slow_next. rewrite Hstep.
  change (integer_make 0) with (int_object 0).
  rewrite Hadd, !Hlt.
  replace (c + - k) with (c - k) by lia.
  destruct (Z.ltb_spec (- k) 0); [|lia]. cbn [Z.b2z andb Z.eqb Pos.eqb].
  rewrite Hlt.
  destruct (c - k <? f); reflexivity.
Qed.

Lemma counted_slow_countdown :
  integer_arithmetic ->
  forall body k f, 0 < k ->
  forall m c rt fuel,
    (0 < m)%nat ->
    f <= c - k * (Z.of_nat m - 1) -> c - k * Z.of_nat m < f ->
    runs_stepping body k m rt ->
    (m <= fuel)%nat ->
    counted_slow fuel body true false false (int_object c) (int_object f)
      (integer_make 0) (integer_object ID_neg_integer k) rt
    = Some (OK, repeated (after_step body) m rt).
Proof.
  intros Harith body k f Hk m; induction m as [|m IH];
    intros c rt fuel Hm Hlo Hhi Hclean Hfuel; [lia|].
  destruct fuel as [|fuel]; [lia|].
  unfold loop.counted_slow. cbn [loop.while_loop loop.s_rt].
  destruct (Hclean 0%nat ltac:(lia)) as (Hpoll & Hok & Htop).
  cbn [loop_spec.repeated] in Hpoll, Hok, Htop. rewrite Hpoll.
  unfold loop.counted_slow_round.
  cbn [loop.s_rt loop.s_cnt loop.s_step loop.s_skip].
  destruct (pop_hd _ _ Htop) as [rt2 Hpop].
  assert (Hafter : after_step body rt = rt2).
  { unfold loop_spec.after_step. rewrite Hpop. reflexivity. }
  unfold loop_spec.after_body in Hpop.
  destruct (evaluate body rt) as [r rt1] eqn:Hev. cbn [fst snd] in *. subst r.
  cbn [result_eqb negb]. rewrite Hpop.
  rewrite (slow_next_countdown Harith) by exact Hk.
  cbn [loop_spec.repeated]. rewrite Hafter.
  destruct (Z.ltb_spec (c - k) f) as [Hend|Hmore].
  - assert (m = 0%nat) by nia. subst m. reflexivity.
  - assert (Hm' : (0 < m)%nat) by nia.
    apply (IH (c - k) rt2 fuel Hm'); try lia.
    rewrite <- Hafter. apply runs_stepping_tail, Hclean.
Qed.


Lemma StartNext_runs :
  forall body s f tail rt fuel,
    loop.stack heap rt
    = integer_object ID_integer f :: integer_object ID_integer s :: tail ->
    0 <= s < 2 ^ 64 - 1 -> 0 <= f < 2 ^ 64 - 1 ->
    let n := Z.to_nat (Z.max 1 (f - s + 1)) in
    runs_clean (after_body body) body n (loop.drop heap 2 rt) ->
    (n < fuel)%nat ->
    StartNext_evaluate fuel body rt
    = Some (OK, repeated (after_body body) n (loop.drop heap 2 rt)).
Proof.
  intros body s f tail rt fuel Hst Hs Hf n Hclean Hfuel.
  unfold loop.StartNext_evaluate, loop.counted. rewrite Hst.
  cbn [as_integer_value]. rewrite !ularge_small by lia.
  rewrite (counted_fast_next_runs body f n s (loop.drop heap 2 rt) fuel);
    try assumption; try reflexivity; subst n; lia.
Qed.

Lemma StartStep_negative_runs :
  integer_arithmetic ->
  forall body k s f tail rt fuel,
    loop.stack heap rt
    = integer_object ID_integer f :: integer_object ID_integer s :: tail ->
    0 < k -> 0 <= s < 2 ^ 64 -> 0 <= f < 2 ^ 64 ->
    let n := Z.to_nat (1 + Z.max 0 (s - f) / k) in
    runs_stepping body k n (loop.drop heap 2 rt) ->
    (n < fuel)%nat ->
    StartStep_evaluate fuel body rt
    = Some (OK, repeated (after_step body) n (loop.drop heap 2 rt)).
Proof.
  intros Harith body k s f tail rt fuel Hst Hk Hs Hf n Hclean Hfuel.
  assert (Hq : 0 <= Z.max 0 (s - f) / k) by (apply Z.div_pos; lia).
  assert (Hdiv := Z.div_mod (Z.max 0 (s - f)) k ltac:(lia)).
  assert (Hmod := Z.mod_pos_bound (Z.max 0 (s - f)) k Hk).
  set (q := Z.max 0 (s - f) / k) in *.
  assert (Hn : Z.of_nat n = 1 + q) by (unfold n; lia).
  unfold loop.StartStep_evaluate, loop.counted. rewrite Hst.
  cbn [as_integer_value]. rewrite !ularge_small by lia.
  set (rt0 := loop.drop heap 2 rt) in *.
  destruct fuel as [|fuel]; [lia|].
  (* the first round, in the integer loop *)
  unfold loop.counted_fast. cbn [loop.while_loop loop.f_rt].
  destruct (Hclean 0%nat ltac:(lia)) as (Hpoll & Hok & Htop).
  cbn [loop_spec.repeated] in Hpoll, Hok, Htop. rewrite Hpoll.
  unfold loop.counted_fast_round. cbn [loop.f_rt loop.f_cnt loop.f_incr].
  destruct (pop_hd _ _ Htop) as [rt2 Hpop].
  assert (Hafter : after_step body rt0 = rt2).
  { unfold loop_spec.after_step. rewrite Hpop. reflexivity. }
  unfold loop_spec.after_body in Hpop.
  destruct (evaluate body rt0) as [r rt1] eqn:Hev. cbn [fst snd] in *. subst r.
  cbn [result_eqb negb]. rewrite Hpop.
  cbn [object_type id_eqb is_real].
  (* the algebraic loop, entered with skip set *)
  assert (Hsint : integer_make s = int_object s).
  { unfold int_object. destruct (Z.ltb_spec s 0); [lia|reflexivity]. }
  assert (Hfint : integer_make f = int_object f).
  { unfold int_object. destruct (Z.ltb_spec f 0); [lia|reflexivity]. }
  rewrite Hsint, Hfint.
  destruct n as [|m] eqn:En; [lia|]. cbn [loop_spec.repeated]. rewrite Hafter.
  unfold loop.counted_slow. cbn [loop.while_loop loop.s_rt].
  destruct (Z.ltb_spec (s - k) f) as [Hend|Hmore].
  - assert (m = 0%nat) by nia. subst m. cbn [loop_spec.repeated].
    destruct (interrupted rt2); [reflexivity|].
    unfold loop.counted_slow_round. cbn [loop.s_skip loop.s_cnt loop.s_step loop.s_rt].
    rewrite (slow_next_countdown Harith) by exact Hk.
    destruct (Z.ltb_spec (s - k) f); [reflexivity|lia].
  - assert (Hm : (0 < m)%nat) by nia.
    destruct (Hclean 1%nat ltac:(lia)) as (Hpoll1 & _).
    cbn [loop_spec.repeated] in Hpoll1. rewrite Hafter in Hpoll1. rewrite Hpoll1.
    unfold loop.counted_slow_round. cbn [loop.s_skip loop.s_cnt loop.s_step loop.s_rt].
    rewrite (slow_next_countdown Harith) by exact Hk.
    destruct (Z.ltb_spec (s - k) f); [lia|].
    apply (counted_slow_countdown Harith body k f Hk m (s - k) rt2 fuel Hm);
      try nia.
    rewrite <- Hafter. apply runs_stepping_tail, Hclean.
Qed.


(** C6 (as amended).  A counted loop pops start and finish off the stack.
    With integer bounds START ... NEXT runs its body once per integer from
    start to finish, and once when start is above finish (never zero
    times): the loop tests its counter after the body.  START ... STEP pops
    a step after each run of the body; with a negative step -k the loop
    goes on in its algebraic form and ends as soon as the counter is below
    finish, which makes 1 + max(0, start - finish) / k runs of the body. *)
Theorem counted_loop_runs_body :
  forall body rt s f tail fuel,
    loop.stack heap rt
    = integer_object ID_integer f :: integer_object ID_integer s :: tail ->
    0 <= s < 2 ^ 64 - 1 -> 0 <= f < 2 ^ 64 - 1 ->
    (let n := Z.to_nat (Z.max 1 (f - s + 1)) in
     runs_clean (after_body body) body n (loop.drop heap 2 rt) ->
     (n < fuel)%nat ->
     StartNext_evaluate fuel body rt
     = Some (OK, repeated (after_body body) n (loop.drop heap 2 rt))) /\
    (forall k,
        integer_arithmetic -> 0 < k ->
        let n := Z.to_nat (1 + Z.max 0 (s - f) / k) in
        runs_stepping body k n (loop.drop heap 2 rt) ->
        (n < fuel)%nat ->
        StartStep_evaluate fuel body rt
        = Some (OK, repeated (after_step body) n (loop.drop heap 2 rt))).
Proof.
  intros body rt s f tail fuel Hst Hs Hf. split.
  - intros n Hclean Hfuel. apply (StartNext_runs body s f tail); assumption.
  - intros k Harith Hk n Hclean Hfuel.
    apply (StartStep_negative_runs Harith body k s f tail); try assumption; lia.
Qed.

End LoopProperties.

(** *** Examples of loops *)

Lemma int_value_object : forall z, int_value (int_object z) = z.
Proof.
  intro z. unfold int_object.
  destruct (Z.ltb_spec z 0); simpl; lia.
Qed.

Lemma int_arithmetic : loop_spec.integer_arithmetic int_value int_add int_lt.
Proof.
  split; intros a b.
  - unfold int_add. rewrite !int_value_object. reflexivity.
  - unfold int_lt. rewrite !int_value_object.
    destruct (a <? b); reflexivity.
Qed.

(** The program 1 10 START DUP 1 + NEXT on a stack that holds 1: the body
    runs ten times and leaves 2 to 11 above the 1.  And 10 1 START ... -1
    STEP runs its body ten times as well. *)
Lemma counted_loop_runs_body_witness :
  loop.StartNext_evaluate nat dup_one_plus never int_value int_add int_lt int_gt
    11 a_body (loop.mk_runtime nat (integers [10; 1; 1]) [] 0%nat)
  = Some (OK, loop.mk_runtime nat
                (integers [11; 10; 9; 8; 7; 6; 5; 4; 3; 2; 1]) [] 10%nat) /\
  loop.StartStep_evaluate nat push_minus_one never int_value int_add int_lt int_gt
    11 a_body (loop.mk_runtime nat (integers [1; 10]) [] 0%nat)
  = Some (OK, loop.mk_runtime nat [] [] 10%nat).
Proof.
  pose proof (counted_loop_runs_body nat dup_one_plus never int_value
                int_add int_lt int_gt a_body
                (loop.mk_runtime nat (integers [10; 1; 1]) [] 0%nat)
                1 10 (integers [1]) 11%nat eq_refl ltac:(lia) ltac:(lia)) as H1.
  pose proof (counted_loop_runs_body nat push_minus_one never int_value
                int_add int_lt int_gt a_body
                (loop.mk_runtime nat (integers [1; 10]) [] 0%nat)
                10 1 [] 11%nat eq_refl ltac:(lia) ltac:(lia)) as H2.
  split.
  - rewrite (proj1 H1).
    + reflexivity.
    + intros i Hi. vm_compute in Hi.
      do 10 (destruct i as [|i]; [split; reflexivity|]). lia.
    + vm_compute. lia.
  - rewrite (proj2 H2 1 int_arithmetic ltac:(lia)).
    + reflexivity.
    + intros i Hi. vm_compute in Hi.
      do 10 (destruct i as [|i]; [repeat split; reflexivity|]). lia.
    + vm_compute. lia.
Defined.

(** Counterexample to C6 as stated: with start 5 above finish 1 the
    interval is empty, yet START ... NEXT runs its body once. *)
Lemma StartNext_runs_body_on_empty_interval :
  1 < 5 /\
  loop.StartNext_evaluate nat count_only never int_value int_add int_lt int_gt
    2 a_body (loop.mk_runtime nat (integers [1; 5]) [] 0%nat)
  = Some (OK, loop.mk_runtime nat [] [] 1%nat) /\
  1%nat <> 0%nat.
Proof.
  split; [lia|]. split; [reflexivity|discriminate].
Qed.

(** The same with the flag set from the start: a loop that would otherwise
    run its body is left at once, and the status is [OK]. *)
Lemma interrupted_loop_returns_OK_witness :
  let rt := loop.mk_runtime nat [] [] 0%nat in
  let o := mk_conditional_loop (other_object ID_block 0) (other_object ID_block 1) in
  loop.DoUntil_evaluate nat
    (fun _ r => (OK, loop.mk_runtime nat (loop.stack nat r) (loop.locals nat r)
                       (S (loop.rest nat r))))
    (fun _ => true) (fun _ => 0) 1 o rt
  = Some (OK, rt).
Proof.
  intros rt o.
  apply (proj1 (interrupted_loop_returns_OK nat _ (fun _ => true) (fun _ => 0)
                  (fun a _ => a) (fun a _ => a) (fun a _ => a) 0 1 ltac:(lia))
           o rt rt).
  - constructor.
  - reflexivity.
Defined.

(** Counterexample to C9 as stated: a DO...UNTIL loop whose poll finds the
    flag set returns the status [OK]; no error status comes out of it. *)
Lemma interrupted_loop_status_is_not_an_error :
  let rt := loop.mk_runtime nat [] [] 0%nat in
  let o := mk_conditional_loop (other_object ID_block 0) (other_object ID_block 1) in
  exists rt',
    loop.DoUntil_evaluate nat
      (fun _ r => (OK, loop.mk_runtime nat (loop.stack nat r) (loop.locals nat r)
                         (S (loop.rest nat r))))
      (fun _ => true) (fun _ => 0) 1 o rt
    = Some (OK, rt') /\ OK <> ERROR.
Proof.
  intros rt o. exists rt. split; [reflexivity | discriminate].
Qed.

(** ** Conversion to machine integers *)












(** For exponents from 17 to 63 the power of ten or its product with a
    kigit wraps around without being noticed: the result is neither the
    floor nor the saturated value.  1.85e16 fits the machine word and yet
    comes out wrong; 1e20 does not fit and is not saturated. *)
Lemma as_unsigned_wraps_unnoticed :
  decimal.as_unsigned true (mk_decimal ID_decimal 17 [185]) = 53255926290448 /\
  Qfloor (Qabs (value (mk_decimal ID_decimal 17 [185]))) = 18500000000000000 /\
  decimal.as_unsigned true (mk_decimal ID_decimal 21 [100]) = 200376420520689 /\
  ularge_max < Qfloor (Qabs (value (mk_decimal ID_decimal 21 [100]))).
Proof.
  repeat split.
Qed.

(** ** Multiplication *)


Lemma kigit_ok : forall l i, kigits_ok l -> 0 <= kigit l i < 1000.
Proof.
  unfold kigit. induction l as [|k r IH]; intros [|i] H; simpl; try lia;
    inversion H; subst; auto.
Qed.







Lemma Mint_app : forall a b,
  Mint (a ++ b) = Mint a * 1000 ^ Z.of_nat (length b) + Mint b.
Proof.
  induction a as [|k r IH]; intro b.
  - simpl. lia.
  - cbn [app Mint]. rewrite IH, length_app, Nat2Z.inj_add, Z.pow_add_r by lia.
    ring.
Qed.





(** *** Re-normalization keeps the value *)

(** Stripping leading zero kigits keeps the kigits in range; it keeps the
    value as long as the exponent, lowered by 3 for each kigit, stays
    an [int]. *)
Lemma strip_leading_spec : forall rb re,
  kigits_ok rb ->
  let '(re', rb') := strip_leading re rb in
  kigits_ok rb' /\ (length rb' <= length rb)%nat /\
  (- 2 ^ 31 <= re - 3 * Z.of_nat (length rb) -> re < 2 ^ 31 ->
   re - 3 * Z.of_nat (length rb) <= re' - 3 * Z.of_nat (length rb') /\
   re' <= re /\
   (mantissa rb' * inject_Z 10 ^ re' == mantissa rb * inject_Z 10 ^ re)%Q).
Proof.
  induction rb as [|k r IH]; intros re Hok.
  - simpl. repeat split; auto; try reflexivity; lia.
  - inversion Hok as [|? ? Hk Hr]; subst.
    cbn [strip_leading].
    destruct (Z.eqb_spec k 0) as [->|Hnz].
    + specialize (IH (cint (re - 3)) Hr).
      destruct (strip_leading (cint (re - 3)) r) as [re' rb'].
      destruct IH as (Ho & Hl & Hv).
      split; [assumption|]. split; [cbn [length]; lia|].
      intros Hlo Hhi. cbn [length] in Hlo.
      rewrite cint_small in Hv by lia.
      destruct (Hv ltac:(lia) ltac:(lia)) as (Hb1 & Hb2 & Hval).
      split; [cbn [length]; lia|]. split; [lia|].
      rewrite Hval. cbn [mantissa]. rewrite <- (pow10_sub3 re).
      field.
    + split; [assumption|]. split; [lia|].
      intros _ _. split; [lia|]. split; [lia | reflexivity].
Qed.

Lemma mantissa_strip_trailing_nil : forall rb,
  strip_trailing rb = [] -> (mantissa rb == 0)%Q.
Proof.
  induction rb as [|k r IH]; intro H; [reflexivity|].
  cbn [strip_trailing] in H.
  destruct (strip_trailing r) eqn:Hr; [|discriminate].
  destruct (Z.eqb_spec k 0) as [->|]; [|discriminate].
  cbn [mantissa]. rewrite IH by reflexivity. reflexivity.
Qed.

Lemma strip_trailing_spec : forall rb,
  kigits_ok rb ->
  kigits_ok (strip_trailing rb) /\
  (length (strip_trailing rb) <= length rb)%nat /\
  (mantissa (strip_trailing rb) == mantissa rb)%Q.
Proof.
  induction rb as [|k r IH]; intro Hok.
  - simpl. split; [constructor|]. split; [lia|reflexivity].
  - inversion Hok as [|? ? Hk Hr]; subst.
    destruct (IH Hr) as (Ho & Hl & Hv).
    cbn [strip_trailing].
    destruct (strip_trailing r) as [|k' r'] eqn:Hs.
    + pose proof (mantissa_strip_trailing_nil r Hs) as Hz.
      destruct (Z.eqb_spec k 0) as [->|Hnz].
      * split; [constructor|]. split; [cbn [length]; lia|].
        cbn [mantissa]. rewrite Hz. reflexivity.
      * split; [constructor; [exact Hk | constructor]|].
        split; [cbn [length]; lia|].
        cbn [mantissa]. rewrite Hz. reflexivity.
    + split; [constructor; assumption|].
      split; [cbn [length] in *; lia|].
      cbn [mantissa] in *. rewrite Hv. reflexivity.
Qed.

(** Shifting the digits left by one or two places multiplies the integer
    read from the array by 10 or 100, up to the digits pushed out of the
    first kigit. *)
Lemma shift_left_digits_spec : forall hmul lmul rb,
  (hmul = 10 /\ lmul = 100) \/ (hmul = 100 /\ lmul = 10) ->
  kigits_ok rb ->
  length (shift_left_digits hmul lmul rb) = length rb /\
  kigits_ok (shift_left_digits hmul lmul rb) /\
  Mint (shift_left_digits hmul lmul rb)
  + (hd 0 rb / lmul) * 1000 ^ Z.of_nat (length rb)
  = Mint rb * hmul.
Proof.
  intros hmul lmul rb Hmul; induction rb as [|k r IH]; intro Hok.
  - split; [reflexivity|]. split; [constructor|]. simpl. lia.
  - inversion Hok as [|? ? Hk Hr]; subst.
    destruct (IH Hr) as (Hl & Ho & Hs).
    cbn [shift_left_digits length hd Mint].
    assert (Hn : 0 <= hd 0 r < 1000).
    { destruct r as [|k' r']; simpl; [lia|]. inversion Hr; subst; assumption. }
    assert (Hpos : 0 <= k * hmul + hd 0 r / lmul).
    { assert (0 <= hd 0 r / lmul) by (apply Z.div_pos; lia).
      destruct Hmul as [[-> ->]|[-> ->]]; lia. }
    split; [|split].
    + rewrite Hl. reflexivity.
    + constructor; [apply Z.mod_pos_bound; lia | assumption].
    + rewrite Hl, pow1000_S.
      set (P := 1000 ^ Z.of_nat (length r)) in *.
      assert (Hmod : (k * hmul + hd 0 r / lmul) mod 1000
                     = k * hmul + hd 0 r / lmul - (k / lmul) * 1000).
      { symmetry. apply Z.mod_unique with (k / lmul).
        - left.
          destruct Hmul as [[-> ->]|[-> ->]].
          + pose proof (Z.div_mod k 100 ltac:(lia)).
            pose proof (Z.mod_pos_bound k 100 ltac:(lia)).
            assert (0 <= hd 0 r / 100 < 10)
              by (split; [apply Z.div_pos; lia | apply Z.div_lt_upper_bound; lia]).
            lia.
          + pose proof (Z.div_mod k 10 ltac:(lia)).
            pose proof (Z.mod_pos_bound k 10 ltac:(lia)).
            assert (0 <= hd 0 r / 10 < 100)
              by (split; [apply Z.div_pos; lia | apply Z.div_lt_upper_bound; lia]).
            lia.
        - lia. }
      rewrite Hmod.
      replace (Mint (shift_left_digits hmul lmul r))
        with (Mint r * hmul - hd 0 r / lmul * P) by lia.
      ring.
Qed.

(** *** What holds of every product *)



Lemma kint_small : forall z, 0 <= z < 65536 -> kint z = z.
Proof. intros z Hz. unfold kint. apply Z.mod_small. exact Hz. Qed.






(** Stripping up to two leading zero digits keeps the kigits in range; it
    keeps the value as long as the exponent, lowered by up to 2, stays an
    [int]. *)
Lemma strip_digits_spec : forall rb re,
  kigits_ok rb ->
  let '(re', rb') := decimal.strip_digits re rb in
  kigits_ok rb' /\ length rb' = length rb /\
  (- 2 ^ 31 <= re - 2 -> re < 2 ^ 31 ->
   (mantissa rb' * inject_Z 10 ^ re' == mantissa rb * inject_Z 10 ^ re)%Q).
Proof.
  intros rb re Hok. unfold decimal.strip_digits.
  destruct rb as [|k r].
  { split; [assumption|]. split; reflexivity. }
  destruct (Z.ltb_spec k 100) as [Hlt|Hge].
  2:{ split; [assumption|]. split; reflexivity. }
  inversion Hok as [|? ? Hk Hr]; subst.
  cbv zeta.
  set (hmul := if k <? 10 then 100 else 10).
  assert (Hmul : (hmul = 10 /\ 1000 / hmul = 100) \/ (hmul = 100 /\ 1000 / hmul = 10)).
  { unfold hmul. destruct (k <? 10); [right|left]; split; reflexivity. }
  destruct (shift_left_digits_spec hmul (1000 / hmul) (k :: r) Hmul Hok)
    as (Hl & Ho & Hs).
  split; [exact Ho|]. split; [exact Hl|].
  intros Hlo Hhi.
  rewrite cint_small by (destruct (k <? 10); cbn [Z.b2z]; lia).
  assert (Htop : hd 0 (k :: r) / (1000 / hmul) = 0).
  { cbn [hd]. unfold hmul. destruct (Z.ltb_spec k 10).
    - change (1000 / 100) with 10. apply Z.div_small; lia.
    - change (1000 / 10) with 100. apply Z.div_small; lia. }
  rewrite Htop, Z.mul_0_l, Z.add_0_r in Hs.
  rewrite (mantissa_ratio (shift_left_digits hmul (1000 / hmul) (k :: r))).
  rewrite (mantissa_ratio (k :: r)).
  rewrite Hl, Hs, inject_Z_mult.
  assert (Hpow : (inject_Z 10 ^ (re - (1 + Z.b2z (k <? 10))) * inject_Z hmul
                  == inject_Z 10 ^ re)%Q).
  { unfold hmul. destruct (k <? 10); cbn [Z.b2z].
    - replace (re - (1 + 1)) with (re + -2) by lia. rewrite pow10_add.
      change (inject_Z 10 ^ (-2))%Q with (/ inject_Z 100)%Q. field.
    - replace (re - (1 + 0)) with (re + -1) by lia. rewrite pow10_add.
      change (inject_Z 10 ^ (-1))%Q with (/ inject_Z 10)%Q. field. }
  rewrite <- Hpow.
  field. apply inject_pow1000_nonzero.
Qed.




(** *** The result is normalized *)

Lemma strip_leading_head : forall rb re,
  snd (strip_leading re rb) = [] \/ hd 0 (snd (strip_leading re rb)) <> 0.
Proof.
  induction rb as [|k r IH]; intro re; cbn [strip_leading].
  - left. reflexivity.
  - destruct (Z.eqb_spec k 0) as [->|Hnz]; [apply IH|].
    right. exact Hnz.
Qed.

Lemma strip_digits_head : forall rb re,
  kigits_ok rb -> rb = [] \/ hd 0 rb <> 0 ->
  snd (decimal.strip_digits re rb) = [] \/
  100 <= hd 0 (snd (decimal.strip_digits re rb)).
Proof.
  intros [|k r] re Hok Hhd; [left; reflexivity|]. right.
  destruct Hhd as [Hhd|Hhd]; [discriminate|]. cbn [hd] in Hhd.
  inversion Hok as [|? ? Hk Hr]; subst.
  unfold decimal.strip_digits.
  destruct (Z.ltb_spec k 100) as [Hlt|Hge]; [|cbn [snd hd]; lia].
  cbn [snd shift_left_digits hd].
  assert (Hn : 0 <= hd 0 r < 1000).
  { destruct r as [|k' r']; simpl; [lia|]. inversion Hr; subst; assumption. }
  destruct (Z.ltb_spec k 10) as [H10|H10].
  - change (1000 / 100) with 10.
    assert (0 <= hd 0 r / 10 < 100)
      by (split; [apply Z.div_pos; lia | apply Z.div_lt_upper_bound; lia]).
    rewrite Z.mod_small; lia.
  - change (1000 / 10) with 100.
    assert (0 <= hd 0 r / 100 < 10)
      by (split; [apply Z.div_pos; lia | apply Z.div_lt_upper_bound; lia]).
    rewrite Z.mod_small; lia.
Qed.








(** * Further properties *)

(** ** Signs, tests and comparison *)

Lemma id_eqb_eq : forall a b, id_eqb a b = true -> a = b.
Proof. intros a b; destruct a, b; simpl; intro H; congruence. Qed.

Lemma id_eqb_sym : forall a b, id_eqb a b = id_eqb b a.
Proof. intros a b; destruct a, b; reflexivity. Qed.

Lemma is_decimal_cases : forall ty,
  is_decimal ty = true -> ty = ID_decimal \/ ty = ID_neg_decimal.
Proof. intros ty; destruct ty; simpl; intro H; try discriminate H; auto. Qed.

Lemma normalized_normal : forall x,
  wf x -> normalizedb x = true -> kigs x <> [] -> normal x.
Proof.
  intros x Hwf Hn Hne. unfold normal. split; [exact Hwf|]. split; [exact Hne|].
  unfold normalizedb in Hn. destruct (kigs x) as [|k r] eqn:Hk; [congruence|].
  apply andb_prop in Hn. destruct Hn as [Hn Hlast].
  apply andb_prop in Hn. destruct Hn as [Hlo _].
  apply Z.leb_le in Hlo. apply negb_true_iff in Hlast. apply Z.eqb_neq in Hlast.
  split; [exact Hlo | exact Hlast].
Qed.

Lemma value_magnitude : forall x,
  (value x == sign_of (type x) * magnitude x)%Q.
Proof. intro x. unfold value, magnitude. ring. Qed.

Lemma value_no_kigits : forall x, kigs x = [] -> (value x == 0)%Q.
Proof. intros x H. unfold value. rewrite H. simpl. ring. Qed.

(** X6.  On a normalized decimal the three sign tests say what the value
    is: [is_zero] holds exactly when the value is 0, [is_negative] exactly
    when it is below 0, [is_negative_or_zero] exactly when it is at most 0
    (a negative zero included). *)
Theorem sign_tests_agree_with_value : forall x,
  wf x -> normalizedb x = true ->
  (decimal.is_zero x = true <-> (value x == 0)%Q) /\
  (decimal.is_negative x = true <-> (value x < 0)%Q) /\
  (decimal.is_negative_or_zero x = true <-> (value x <= 0)%Q).
Proof.
  intros x Hwf Hn.
  unfold decimal.is_zero, decimal.is_negative, decimal.is_negative_or_zero.
  destruct (kigs x) as [|k r] eqn:Hk.
  - (* no kigit: the value is 0 *)
    pose proof (value_no_kigits x Hk) as Hv. cbn [length Nat.eqb negb].
    repeat split; intros; try reflexivity; try lra;
      destruct (id_eqb (type x) ID_decimal); try discriminate; try lra;
      destruct (id_eqb (type x) ID_neg_decimal); reflexivity.
  - assert (Hnorm : normal x)
      by (apply normalized_normal; [assumption | assumption | congruence]).
    pose proof (magnitude_positive x Hnorm) as Hpos.
    pose proof (value_magnitude x) as Hv.
    destruct Hwf as [Hty _].
    cbn [length Nat.eqb negb].
    destruct (is_decimal_cases _ Hty) as [E|E]; rewrite E in *;
      cbn [id_eqb sign_of] in *;
      repeat split; intros; try reflexivity; try discriminate; lra.
Qed.

(** The witness: -12.5, normalized. *)
Lemma sign_tests_agree_with_value_witness :
  let x := mk_decimal ID_neg_decimal 2 [125] in
  decimal.is_zero x = false /\ decimal.is_negative x = true /\
  (value x < 0)%Q.
Proof.
  intro x.
  assert (Hwf : wf x) by (split; [reflexivity | repeat constructor; simpl; lia]).
  destruct (sign_tests_agree_with_value x Hwf eq_refl) as (_ & Hneg & _).
  split; [reflexivity|]. split; [reflexivity|].
  apply Hneg. reflexivity.
Defined.

(** X8.  [neg] negates: on a decimal it only swaps the tag, so the value
    changes sign, the result is a decimal again, and negating twice gives
    the object back. *)
Theorem neg_negates_value : forall x,
  is_decimal (type x) = true ->
  (value (decimal.neg x) == - value x)%Q /\
  is_decimal (type (decimal.neg x)) = true /\
  decimal.neg (decimal.neg x) = x.
Proof.
  intros [ty e ks] Hty. cbn [type] in Hty.
  destruct (is_decimal_cases _ Hty) as [E|E]; subst ty;
    unfold decimal.neg, value; cbn [type exponent kigs decimal.negtype id_eqb sign_of is_decimal orb];
    (split; [ring | split; reflexivity]).
Qed.

Lemma neg_negates_value_witness :
  let x := mk_decimal ID_decimal 2 [125] in
  (value (decimal.neg x) == - (25 # 2))%Q /\
  decimal.neg (decimal.neg x) = x.
Proof.
  intro x.
  destruct (neg_negates_value x eq_refl) as (Hv & _ & Hinv).
  split; [rewrite Hv; reflexivity | exact Hinv].
Defined.

(** *** Comparison *)

Lemma compare_kigits_swap : forall xb yb sign,
  decimal.compare_kigits sign yb xb
  = option_map Z.opp (decimal.compare_kigits sign xb yb).
Proof.
  induction xb as [|xk xr IH]; intros [|yk yr] sign; cbn [decimal.compare_kigits option_map];
    try reflexivity.
  destruct (Z.eqb_spec (xk - yk) 0) as [E|E];
    destruct (Z.eqb_spec (yk - xk) 0) as [E'|E']; try lia.
  - apply IH.
  - cbn [option_map]. f_equal. lia.
Qed.

Lemma compare_objects_swap : forall x y,
  Z.abs (exponent x - exponent y) < 2 ^ 31 ->
  decimal.compare_objects y x = - decimal.compare_objects x y.
Proof.
  intros x y Hexp. unfold decimal.compare_objects.
  rewrite (id_eqb_sym (type y) (type x)).
  destruct (id_eqb (type x) (type y)) eqn:Et; cbn [negb]; [|lia].
  apply id_eqb_eq in Et. rewrite <- Et.
  rewrite (Z.eqb_sym (exponent y) (exponent x)).
  destruct (Z.eqb_spec (exponent x) (exponent y)) as [Ee|Ee]; cbn [negb].
  - rewrite compare_kigits_swap.
    destruct (decimal.compare_kigits _ (kigs x) (kigs y)); cbn [option_map];
      [reflexivity|].
    rewrite (Z.eqb_sym (Z.of_nat (length (kigs y)))).
    destruct (Z.eqb_spec (Z.of_nat (length (kigs x)))
                (Z.of_nat (length (kigs y))));
      cbn [negb]; lia.
  - rewrite (cint_small (exponent y - exponent x)) by lia.
    rewrite (cint_small (exponent x - exponent y)) by lia.
    destruct (id_eqb (type x) ID_neg_decimal); rewrite !cint_small; lia.
Qed.

(** X10.  [compare] is antisymmetric: swapping the operands negates the
    result, for null pointers as well.  For two decimals this needs
    exponents that differ by less than 2^31: the difference of the
    exponents is taken in an [int]. *)
Theorem compare_antisymmetric : forall x y : option decimal,
  (forall dx dy, x = Some dx -> y = Some dy ->
     Z.abs (exponent dx - exponent dy) < 2 ^ 31) ->
  decimal.compare y x = - decimal.compare x y.
Proof.
  intros [x|] [y|] Hexp; cbn [decimal.compare]; try reflexivity.
  apply compare_objects_swap. apply Hexp; reflexivity.
Qed.

Lemma compare_antisymmetric_witness :
  decimal.compare (Some (mk_decimal ID_decimal 1 [999; 900]))
                  (Some (mk_decimal ID_decimal 2 [125]))
  = - decimal.compare (Some (mk_decimal ID_decimal 2 [125]))
                      (Some (mk_decimal ID_decimal 1 [999; 900]))
  /\ decimal.compare (Some (mk_decimal ID_decimal 2 [125])) None
     = - decimal.compare None (Some (mk_decimal ID_decimal 2 [125])).
Proof.
  split; apply compare_antisymmetric; intros dx dy Hx Hy;
    try discriminate.
  injection Hx as <-. injection Hy as <-. cbn [exponent]. vm_compute.
  reflexivity.
Defined.

Lemma compare_kigits_none : forall xb yb sign,
  decimal.compare_kigits sign xb yb = None ->
  length xb = length yb -> xb = yb.
Proof.
  induction xb as [|xk xr IH]; intros [|yk yr] sign H Hlen; simpl in Hlen;
    try discriminate; [reflexivity|].
  cbn [decimal.compare_kigits] in H.
  destruct (Z.eqb_spec (xk - yk) 0) as [E|E]; [|discriminate].
  f_equal; [lia | apply (IH yr sign H); lia].
Qed.

Lemma compare_kigits_some : forall xb yb sign r,
  sign <> 0 -> decimal.compare_kigits sign xb yb = Some r -> r <> 0.
Proof.
  induction xb as [|xk xr IH]; intros [|yk yr] sign r Hs H;
    cbn [decimal.compare_kigits] in H; try discriminate.
  destruct (Z.eqb_spec (xk - yk) 0) as [E|E].
  - apply (IH yr sign r Hs H).
  - injection H as <-. nia.
Qed.

(** A multiple of 2^32 is the only integer that is the [int] 0. *)
Lemma cint_zero : forall z, cint z = 0 -> exists k, z = 2 ^ 32 * k.
Proof.
  intros z H. destruct (cint_quotient z) as [k Hk]. exists (- k). lia.
Qed.

Lemma exponent_difference_nonzero : forall s xe ye,
  s = 1 \/ s = -1 ->
  - 2 ^ 31 <= xe < 2 ^ 31 -> - 2 ^ 31 <= ye < 2 ^ 31 -> xe <> ye ->
  cint (s * cint (xe - ye)) <> 0.
Proof.
  intros s xe ye Hs Hx Hy Hne H.
  rewrite cint_mul_r in H. apply cint_zero in H. destruct H as [k Hk].
  change (2 ^ 31) with 2147483648 in *. change (2 ^ 32) with 4294967296 in *.
  destruct Hs as [-> | ->]; lia.
Qed.

Lemma compare_objects_zero : forall x y,
  is_decimal (type x) = true -> is_decimal (type y) = true ->
  int_exponent x -> int_exponent y ->
  decimal.compare_objects x y = 0 -> x = y.
Proof.
  intros [xt xe xk] [yt ye yk] Hx Hy Ix Iy. unfold decimal.compare_objects.
  unfold int_exponent in Ix, Iy.
  cbn [type exponent kigs] in *.
  destruct (is_decimal_cases _ Hx) as [Ex|Ex];
    destruct (is_decimal_cases _ Hy) as [Ey|Ey]; subst xt yt;
      cbn [id_eqb negb Z.b2z]; try (intro H; discriminate H).
  - destruct (Z.eqb_spec xe ye) as [Ee|Ee]; cbn [negb].
    2:{ intro H. exfalso.
        apply (exponent_difference_nonzero 1 xe ye); auto. }
    subst ye.
    destruct (decimal.compare_kigits 1 xk yk) as [r|] eqn:Hc.
    + intro Hr. exfalso. apply (compare_kigits_some xk yk 1 r); [lia | exact Hc | exact Hr].
    + destruct (Z.eqb_spec (Z.of_nat (length xk)) (Z.of_nat (length yk))) as [El|El];
        cbn [negb]; [|intro; lia].
      intros _. f_equal. apply (compare_kigits_none xk yk 1 Hc). lia.
  - destruct (Z.eqb_spec xe ye) as [Ee|Ee]; cbn [negb].
    2:{ intro H. exfalso.
        apply (exponent_difference_nonzero (-1) xe ye); auto. }
    subst ye.
    destruct (decimal.compare_kigits (-1) xk yk) as [r|] eqn:Hc.
    + intro Hr. exfalso. apply (compare_kigits_some xk yk (-1) r); [lia | exact Hc | exact Hr].
    + destruct (Z.eqb_spec (Z.of_nat (length xk)) (Z.of_nat (length yk))) as [El|El];
        cbn [negb]; [|intro; lia].
      intros _. f_equal. apply (compare_kigits_none xk yk (-1) Hc). lia.
Qed.

(** X11.  For [compare], and so for the operator [==] derived from it, two
    decimals are equal exactly when they are the same object: same tag,
    same exponent, same kigits.  The exponents are those of objects:
    [int]s. *)
Theorem compare_zero_iff_identical : forall x y,
  is_decimal (type x) = true -> is_decimal (type y) = true ->
  int_exponent x -> int_exponent y ->
  (decimal.compare (Some x) (Some y) = 0 <-> x = y) /\
  (decimal.eq x y = true <-> x = y).
Proof.
  intros x y Hx Hy Ix Iy.
  assert (H : decimal.compare (Some x) (Some y) = 0 <-> x = y).
  { cbn [decimal.compare]. split.
    - apply compare_objects_zero; assumption.
    - intros <-. apply compare_objects_same. }
  split; [exact H|].
  unfold decimal.eq. rewrite Z.eqb_eq. exact H.
Qed.

Lemma compare_zero_iff_identical_witness :
  let x := mk_decimal ID_neg_decimal 2 [125] in
  decimal.compare (Some x) (Some x) = 0 /\ decimal.eq x x = true.
Proof.
  intro x.
  assert (Ix : int_exponent x) by (unfold int_exponent; cbn; lia).
  destruct (compare_zero_iff_identical x x eq_refl eq_refl Ix Ix) as [Hc He].
  split; [apply Hc | apply He]; reflexivity.
Defined.

(** X9.  On normalized decimals other than zero whose exponents differ by
    less than 2^31 (the difference is taken in an [int]), [compare] agrees
    with the order of the values: its result is negative, zero or
    positive as the value of x is below, equal to or above the value of
    y. *)
Theorem compare_agrees_with_order : forall x y,
  normal x -> normal y ->
  Z.abs (exponent x - exponent y) < 2 ^ 31 ->
  (decimal.compare (Some x) (Some y) < 0 <-> (value x < value y)%Q) /\
  (decimal.compare (Some x) (Some y) = 0 <-> (value x == value y)%Q) /\
  (0 < decimal.compare (Some x) (Some y) <-> (value y < value x)%Q).
Proof.
  intros x y Nx Ny Hexp.
  pose proof (compare_orders_normal_decimals x y Nx Ny Hexp) as H.
  rewrite <- Z.compare_lt_iff, <- Z.compare_eq_iff, <- (Z.compare_gt_iff _ 0).
  rewrite <- H.
  split; [|split].
  - symmetry. apply Qlt_alt.
  - symmetry. apply Qeq_alt.
  - symmetry. apply Qgt_alt.
Qed.

Lemma compare_agrees_with_order_witness :
  let x := mk_decimal ID_neg_decimal 2 [125] in
  let y := mk_decimal ID_neg_decimal 1 [999; 900] in
  decimal.compare (Some x) (Some y) < 0 /\ (value x < value y)%Q.
Proof.
  intros x y.
  assert (Nx : normal x).
  { repeat split; try (simpl; lia); try discriminate. repeat constructor; simpl; lia. }
  assert (Ny : normal y).
  { repeat split; try (simpl; lia); try discriminate. repeat constructor; simpl; lia. }
  destruct (compare_agrees_with_order x y Nx Ny ltac:(vm_compute; reflexivity))
    as (Hlt & _ & _).
  assert (Hc : decimal.compare (Some x) (Some y) < 0) by (vm_compute; reflexivity).
  split; [exact Hc | apply Hlt; exact Hc].
Defined.

(** X7.  On a normalized decimal [is_one] holds exactly when the value is
    1. *)
Theorem is_one_iff_value_one : forall x,
  wf x -> normalizedb x = true ->
  (decimal.is_one x = true <-> (value x == 1)%Q).
Proof.
  intros x Hwf Hn.
  set (one := mk_decimal ID_decimal 1 [100]).
  assert (None' : normal one).
  { repeat split; try (simpl; lia); try discriminate. repeat constructor; simpl; lia. }
  assert (Vone : (value one == 1)%Q) by reflexivity.
  split.
  - (* the representation of one *)
    unfold decimal.is_one. destruct x as [ty e ks]. cbn [type exponent kigs].
    destruct Hwf as [Hty _]. cbn [type] in Hty.
    destruct (is_decimal_cases _ Hty) as [E|E]; subst ty; cbn [id_eqb];
      [|discriminate].
    intro H. apply andb_prop in H. destruct H as [H Hk].
    apply andb_prop in H. destruct H as [He Hl].
    apply Z.eqb_eq in He. apply Nat.eqb_eq in Hl. apply Z.eqb_eq in Hk.
    destruct ks as [|k [|k' r]]; try discriminate Hl.
    unfold kigit in Hk. cbn [nth] in Hk. subst k e. reflexivity.
  - intro Hv.
    assert (Hne : kigs x <> []).
    { intro Hk. pose proof (value_no_kigits x Hk). lra. }
    pose proof (normalized_normal x Hwf Hn Hne) as Nx.
    pose proof (magnitude_positive x Nx) as Px.
    pose proof (value_magnitude x) as Vx.
    destruct Hwf as [Hty _].
    destruct (compare_magnitudes x one 1 Nx None') as (d & Hc & Hlt & Heq & Hgt).
    assert (Mone : (magnitude one == 1)%Q) by reflexivity.
    destruct x as [ty e ks]. cbn [type exponent kigs] in *.
    destruct (is_decimal_cases _ Hty) as [E|E]; subst ty;
      cbn [sign_of id_eqb] in Vx; [|lra].
    assert (Hd : d = 0).
    { destruct (Z.compare_spec d 0) as [H|H|H]; [exact H| |].
      - specialize (Hlt H). lra.
      - specialize (Hgt H). lra. }
    subst d. rewrite Z.mul_0_r in Hc.
    unfold decimal.is_one. cbn [type exponent kigs id_eqb one] in *.
    destruct (Z.eqb_spec e 1) as [He|He]; cbn [negb] in Hc; [|lia].
    destruct (decimal.compare_kigits 1 ks [100]) as [r|] eqn:Hk.
    + exfalso. apply (compare_kigits_some ks [100] 1 r); [lia | exact Hk | exact Hc].
    + destruct (Z.eqb_spec (Z.of_nat (length ks)) (Z.of_nat (length [100])))
        as [El|El]; cbn [negb] in Hc; [|lia].
      rewrite (compare_kigits_none ks [100] 1 Hk) by lia.
      reflexivity.
Qed.

Lemma is_one_iff_value_one_witness :
  let x := mk_decimal ID_decimal 1 [100] in
  decimal.is_one x = true /\ (value x == 1)%Q.
Proof.
  intro x.
  assert (Hwf : wf x) by (split; [reflexivity | repeat constructor; simpl; lia]).
  destruct (is_one_iff_value_one x Hwf eq_refl) as [H _].
  split; [reflexivity | apply H; reflexivity].
Defined.

Lemma compare_kigits_sign : forall xb yb sign,
  decimal.compare_kigits (- sign) xb yb
  = option_map Z.opp (decimal.compare_kigits sign xb yb).
Proof.
  induction xb as [|xk xr IH]; intros [|yk yr] sign;
    cbn [decimal.compare_kigits option_map]; try reflexivity.
  destruct (Z.eqb_spec (xk - yk) 0) as [E|E]; [apply IH|].
  cbn [option_map]. f_equal. lia.
Qed.

(** X12.  Negating both operands swaps the comparison: [compare] of -x
    and -y is [compare] of y and x. *)
Theorem compare_of_negated : forall x y,
  is_decimal (type x) = true -> is_decimal (type y) = true ->
  decimal.compare (Some (decimal.neg x)) (Some (decimal.neg y))
  = decimal.compare (Some y) (Some x).
Proof.
  intros [xt xe xk] [yt ye yk] Hx Hy. cbn [type] in Hx, Hy.
  cbn [decimal.compare].
  unfold decimal.compare_objects, decimal.neg.
  cbn [type exponent kigs].
  rewrite (Z.eqb_sym ye xe), (Z.eqb_sym (Z.of_nat (length yk))).
  destruct (is_decimal_cases _ Hx) as [Ex|Ex];
    destruct (is_decimal_cases _ Hy) as [Ey|Ey]; subst xt yt;
      cbn [decimal.negtype id_eqb negb Z.b2z]; try reflexivity.
  - destruct (Z.eqb_spec xe ye); cbn [negb].
    + rewrite (compare_kigits_swap xk yk 1).
      change (-1) with (- (1)). rewrite compare_kigits_sign.
      destruct (decimal.compare_kigits 1 xk yk); cbn [option_map];
        [reflexivity|].
      destruct (Z.of_nat (length xk) =? Z.of_nat (length yk)); cbn [negb]; lia.
    + rewrite !cint_mul_r. f_equal. ring.
  - destruct (Z.eqb_spec xe ye); cbn [negb].
    + rewrite (compare_kigits_swap xk yk (-1)).
      change 1 with (- (-1)) at 1. rewrite compare_kigits_sign.
      destruct (decimal.compare_kigits (-1) xk yk); cbn [option_map];
        [reflexivity|].
      destruct (Z.of_nat (length xk) =? Z.of_nat (length yk)); cbn [negb]; lia.
    + rewrite !cint_mul_r. f_equal. ring.
Qed.

Lemma compare_of_negated_witness :
  let x := mk_decimal ID_decimal 2 [125] in
  let y := mk_decimal ID_neg_decimal 0 [500] in
  decimal.compare (Some (decimal.neg x)) (Some (decimal.neg y)) = -1.
Proof.
  intros x y. rewrite (compare_of_negated x y eq_refl eq_refl). reflexivity.
Defined.


(** ** Values from kigits *)

(** The value of a decimal as a ratio of integers. *)
Lemma value_from_Mint : forall ty e ks a b num den,
  0 <= a -> 0 <= b -> e = a - b -> 0 < den ->
  Mint ks * 10 ^ a * den = num * 1000 ^ Z.of_nat (length ks) * 10 ^ b ->
  (value (mk_decimal ty e ks) == sign_of ty * (inject_Z num / inject_Z den))%Q.
Proof.
  intros ty e ks a b num den Ha Hb He Hden H.
  unfold value. cbn [type exponent kigs].
  rewrite mantissa_ratio.
  replace e with (a + - b) by lia.
  rewrite pow10_add, Qpower_opp.
  rewrite <- !Zpower_Qpower by lia.
  change (inject_Z 10) with 10%Q.
  set (P := 1000 ^ Z.of_nat (length ks)) in *.
  assert (HP : ~ (inject_Z P == 0)%Q) by apply inject_pow1000_nonzero.
  assert (HA : 0 < 10 ^ a) by (apply Z.pow_pos_nonneg; lia).
  assert (HB : 0 < 10 ^ b) by (apply Z.pow_pos_nonneg; lia).
  assert (HB' : ~ (inject_Z (10 ^ b) == 0)%Q).
  { intro E. unfold Qeq in E. simpl in E. lia. }
  assert (HD : ~ (inject_Z den == 0)%Q).
  { intro E. unfold Qeq in E. simpl in E. lia. }
  assert (HQ : (inject_Z (Mint ks) * inject_Z (10 ^ a) * inject_Z den
                == inject_Z num * inject_Z P * inject_Z (10 ^ b))%Q).
  { rewrite <- !inject_Z_mult. rewrite H. reflexivity. }
  transitivity
    (sign_of ty
     * ((inject_Z (Mint ks) * inject_Z (10 ^ a) * inject_Z den)
        / (inject_Z P * inject_Z (10 ^ b) * inject_Z den)))%Q.
  - field. repeat split; assumption.
  - rewrite HQ. field. repeat split; assumption.
Qed.


(** ** The packed representation, continued *)

(** Writing a kigit keeps the low bits of the byte it shares with the
    next one. *)
Lemma keep_low_bits : forall sh b v,
  (sh = 2 \/ sh = 4 \/ sh = 6) ->
  Z.land (Z.shiftl
            (kint (packed.byte
                     (Z.lor (Z.land b (Z.lnot (Z.shiftl 255 ((8 - sh) mod 8))))
                            (packed.byte (Z.shiftl v ((8 - sh) mod 8))))))
            (sh + 2)) 1023
  = Z.land (Z.shiftl (kint b) (sh + 2)) 1023.
Proof.
  intros sh b v Hsh. unfold packed.byte, kint.
  change 256 with (2 ^ 8). change 65536 with (2 ^ 16). change 1023 with (Z.ones 10).
  change 255 with (Z.ones 8).
  rewrite <- !Z.land_ones by lia.
  destruct Hsh as [ Hs | [ Hs | Hs ] ]; subst sh;
    [ change ((8 - 2) mod 8) with 6
    | change ((8 - 4) mod 8) with 4
    | change ((8 - 6) mod 8) with 2 ];
    Z.bitblast;
    rewrite (Z.testbit_neg_r v) by lia;
    destruct (Z.testbit b _); reflexivity.
Qed.

Lemma packed_write_keeps_higher : forall p i j v,
  (i < j)%nat -> (S (i * 10 / 8) < length p)%nat ->
  packed.kigit (packed.set_kigit p i v) j = packed.kigit p j.
Proof.
  intros p i j v Hij Hlen.
  destruct (index_cases i) as (q & m & Hi & Hm & Hoff & Hmod).
  destruct (index_cases j) as (q' & m' & Hj & Hm' & Hoff' & Hmod').
  unfold packed.kigit, packed.set_kigit.
  rewrite Hoff in *. rewrite Hoff', Hmod, Hmod'.
  set (off := (5 * q + m)%nat) in *. set (off' := (5 * q' + m')%nat).
  assert (Hlt : (off < off')%nat) by (unfold off, off'; lia).
  rewrite (nth_upd_other _ (S off) (S off')) by lia.
  rewrite (nth_upd_other _ off (S off')) by lia.
  destruct (Nat.eq_dec (S off) off') as [Heq|Hne].
  - rewrite <- Heq. rewrite nth_upd_same by (rewrite upd_length; lia).
    rewrite (nth_upd_other _ off (S off)) by lia.
    assert (Hmm : m' = S m /\ q = q') by (unfold off, off' in Heq; lia).
    destruct Hmm as [Hmm Hqq]. rewrite Hmm.
    replace (Z.of_nat (S m * 2 + 2)) with (Z.of_nat (m * 2 + 2) + 2) by lia.
    rewrite !Z.land_lor_distr_l.
    rewrite keep_low_bits by lia. reflexivity.
  - rewrite (nth_upd_other _ (S off) off') by lia.
    rewrite (nth_upd_other _ off off') by lia.
    reflexivity.
Qed.

(** X1.  Reading a kigit that was just written gives back the value that
    was written, for every value below 1024 (ten bits), whatever the two
    bytes held before; the write changes neither the number of bytes nor
    the range of any byte. *)
Theorem packed_kigit_read_after_write : forall p i v,
  0 <= v < 1024 -> (S (i * 10 / 8) < length p)%nat ->
  packed.kigit (packed.set_kigit p i v) i = v /\
  length (packed.set_kigit p i v) = length p /\
  (packed.bytes_ok p -> packed.bytes_ok (packed.set_kigit p i v)).
Proof.
  intros p i v Hv Hlen. split; [|split].
  - apply packed_read_write; assumption.
  - apply set_kigit_length.
  - apply set_kigit_bytes_ok.
Qed.

Lemma packed_kigit_read_after_write_witness :
  packed.kigit (packed.set_kigit [255; 255; 255; 255; 255] 2 999) 2 = 999.
Proof.
  apply (packed_kigit_read_after_write [255; 255; 255; 255; 255] 2 999);
    [lia | simpl; lia].
Defined.

(** X2.  Writing kigit [i] changes no other kigit: the bits that kigit [i]
    shares a byte with belong to its two neighbours and are written back
    as they were. *)
Theorem packed_kigit_write_keeps_others : forall p i j v,
  i <> j -> packed.bytes_ok p -> 0 <= v < 1024 ->
  (S (i * 10 / 8) < length p)%nat ->
  packed.kigit (packed.set_kigit p i v) j = packed.kigit p j.
Proof.
  intros p i j v Hij Hp Hv Hlen.
  destruct (Nat.lt_ge_cases j i) as [Hlt|Hge].
  - apply packed_write_keeps_lower; assumption.
  - apply packed_write_keeps_higher; [lia | assumption].
Qed.

Lemma packed_kigit_write_keeps_others_witness :
  let p := [249; 198; 64; 2; 0; 1; 234] in
  packed.kigit (packed.set_kigit p 1 555) 0 = 999 /\
  packed.kigit (packed.set_kigit p 1 555) 2 = 0.
Proof.
  intro p.
  assert (Hp : packed.bytes_ok p) by (repeat constructor; simpl; lia).
  assert (Hv : 0 <= 555 < 1024) by lia.
  assert (Hlen : (S (1 * 10 / 8) < length p)%nat) by (vm_compute; lia).
  split.
  - rewrite (packed_kigit_write_keeps_others p 1 0 555 ltac:(lia) Hp Hv Hlen).
    reflexivity.
  - rewrite (packed_kigit_write_keeps_others p 1 2 555 ltac:(lia) Hp Hv Hlen).
    reflexivity.
Defined.

Lemma packed_kigits_store_witness :
  packed.kigits (packed.store 0 [999; 100; 0; 512; 7] (repeat 170 7)) 5
  = [999; 100; 0; 512; 7].
Proof.
  apply (packed_kigits_store [999; 100; 0; 512; 7] (repeat 170 7)).
  - repeat constructor; simpl; lia.
  - repeat constructor; simpl; lia.
  - apply Nat.leb_le. reflexivity.
Defined.


(** ** Construction from an integer *)

Section FromIntegerProperties.

(** The integer type of the template holds at least the non-negative
    values of an [int]. *)
Variable Int : Z -> Z.
Hypothesis Int_small : forall z, 0 <= z < 2 ^ 31 -> Int z = z.

Lemma scale_loop_done : forall fuel exp mul div,
  decimal.scale_loop Int (S fuel) 0 exp mul div = (exp, mul, div).
Proof. reflexivity. Qed.

Lemma scale_loop_high : forall fuel copy exp mul div,
  0 < copy -> 1 < mul ->
  decimal.scale_loop Int (S fuel) copy exp mul div
  = decimal.scale_loop Int fuel (copy / 10) (exp + 1) (mul / 10) div.
Proof.
  intros fuel copy exp mul div Hc Hm. cbn [decimal.scale_loop].
  destruct (Z.eqb_spec copy 0); [lia|].
  destruct (Z.ltb_spec 1 mul); [|lia].
  rewrite !Z.quot_div_nonneg by lia. reflexivity.
Qed.

Lemma scale_loop_low : forall fuel copy exp div,
  0 < copy -> 0 <= div * 10 < 2 ^ 31 ->
  decimal.scale_loop Int (S fuel) copy exp 1 div
  = decimal.scale_loop Int fuel (copy / 10) (exp + 1) 1 (div * 10).
Proof.
  intros fuel copy exp div Hc Hd. cbn [decimal.scale_loop].
  destruct (Z.eqb_spec copy 0); [lia|].
  cbn [Z.ltb Z.compare Pos.compare Pos.compare_cont].
  rewrite Z.quot_div_nonneg by lia. rewrite Int_small by exact Hd. reflexivity.
Qed.

(** The number of digits of [value], and the scale factors that go with
    it. *)
Lemma scale_loop_digits : forall v,
  0 <= v < 2 ^ 31 ->
  decimal.scale_loop Int 20 v 0 1000 1 =
  if v <? 1 then (0, 1000, 1)
  else if v <? 10 then (1, 100, 1)
  else if v <? 100 then (2, 10, 1)
  else if v <? 1000 then (3, 1, 1)
  else if v <? 10000 then (4, 1, 10)
  else if v <? 100000 then (5, 1, 100)
  else if v <? 1000000 then (6, 1, 1000)
  else if v <? 10000000 then (7, 1, 10000)
  else if v <? 100000000 then (8, 1, 100000)
  else if v <? 1000000000 then (9, 1, 1000000)
  else (10, 1, 10000000).
Proof.
  intros v Hv. change (2 ^ 31) with 2147483648 in Hv.
  assert (H31 : 2 ^ 31 = 2147483648) by reflexivity.
  repeat
    (match goal with
     | |- context [?a <? ?b] => destruct (Z.ltb_spec a b)
     end);
    try lia;
    repeat
      (first
         [ rewrite scale_loop_high by (Z.to_euclidean_division_equations; lia)
         | rewrite scale_loop_low
             by (rewrite ?H31; Z.to_euclidean_division_equations; lia) ];
       cbn [Z.add Z.mul Z.div Z.div_eucl Z.pos_div_eucl Pos.add Pos.mul Pos.succ
            Z.leb Z.ltb Z.compare Pos.compare Pos.compare_cont Z.pos_sub
            Z.succ_double Z.pred_double Z.double Pos.pred_double fst snd]);
    match goal with
    | |- decimal.scale_loop Int (S _) ?c _ _ _ = _ =>
        replace c with 0 by (Z.to_euclidean_division_equations; lia);
        rewrite scale_loop_done
    end;
    reflexivity.
Qed.

(** The digits that [required_memory] counts. *)
Lemma count_digits_step : forall fuel v iexp,
  0 < v ->
  decimal.count_digits (S fuel) v iexp
  = decimal.count_digits fuel (v / 10) (iexp + 1).
Proof.
  intros fuel v iexp Hv. cbn [decimal.count_digits].
  destruct (Z.eqb_spec v 0); [lia|].
  rewrite Z.quot_div_nonneg by lia. reflexivity.
Qed.

Lemma count_digits_done : forall fuel iexp,
  decimal.count_digits (S fuel) 0 iexp = iexp.
Proof. reflexivity. Qed.

Lemma count_digits_digits : forall v,
  0 <= v < 2 ^ 31 ->
  decimal.count_digits 20 v 0 =
  if v <? 1 then 0
  else if v <? 10 then 1
  else if v <? 100 then 2
  else if v <? 1000 then 3
  else if v <? 10000 then 4
  else if v <? 100000 then 5
  else if v <? 1000000 then 6
  else if v <? 10000000 then 7
  else if v <? 100000000 then 8
  else if v <? 1000000000 then 9
  else 10.
Proof.
  intros v Hv. change (2 ^ 31) with 2147483648 in Hv.
  repeat
    (match goal with
     | |- context [?a <? ?b] => destruct (Z.ltb_spec a b)
     end);
    try lia;
    repeat
      (rewrite count_digits_step by (Z.to_euclidean_division_equations; lia);
       cbn [Z.add Pos.add Pos.succ]);
    match goal with
    | |- decimal.count_digits (S _) ?c _ = _ =>
        replace c with 0 by (Z.to_euclidean_division_equations; lia);
        rewrite count_digits_done
    end;
    reflexivity.
Qed.

(** Kigits below 1024 come back from the payload as they were written. *)
Lemma stored_kigits : forall ks n p,
  n = length ks ->
  packed.bytes_ok p -> Forall (fun k => 0 <= k < 1024) ks ->
  (packed.required_memory n <= length p)%nat ->
  packed.kigits (packed.store 0 ks p) n = ks.
Proof.
  intros ks n p -> Hp Hks Hlen.
  unfold packed.kigits.
  apply nth_ext with (d := 0) (d' := 0).
  - now rewrite length_map, length_seq.
  - intros i Hi. rewrite length_map, length_seq in Hi.
    rewrite (nth_indep _ 0 (packed.kigit (packed.store 0 ks p) 0))
      by (now rewrite length_map, length_seq).
    rewrite map_nth, seq_nth by assumption.
    apply (store_read ks 0 p i); assumption.
Qed.

Lemma zero_bytes_ok : forall n, packed.bytes_ok (repeat 0 n).
Proof.
  intro n. apply Forall_forall. intros b Hb.
  apply repeat_spec in Hb. subst b. lia.
Qed.

Lemma integer_kigits_step : forall n v mul div,
  0 <= v * mul < 2 ^ 31 -> 0 < div ->
  decimal.integer_kigits Int (S n) v mul div
  = option_map (cons (v * mul / div mod 1000))
      (decimal.integer_kigits Int n v mul (div / 1000)).
Proof.
  intros n v mul div Hv Hd. cbn [decimal.integer_kigits].
  destruct (Z.eqb_spec div 0); [lia|].
  rewrite Int_small by exact Hv.
  rewrite !Z.quot_div_nonneg by lia.
  rewrite Z.rem_mod_nonneg
    by (try lia; apply Z.div_pos; lia).
  rewrite kint_small
    by (pose proof (Z.mod_pos_bound (v * mul / div) 1000 ltac:(lia)); lia).
  destruct (decimal.integer_kigits Int n v mul (div / 1000)); reflexivity.
Qed.

Lemma integer_kigits_zero : forall n v mul,
  decimal.integer_kigits Int (S n) v mul 0 = None.
Proof. reflexivity. Qed.

Ltac digits_case :=
  repeat
    (match goal with
     | |- context [?a <? ?b] => destruct (Z.ltb_spec a b); try lia
     end).

Ltac closed_div :=
  repeat
    (match goal with
     | |- context [Z.pos ?p / Z.pos ?q] =>
         let r := eval vm_compute in (Z.pos p / Z.pos q) in
         change (Z.pos p / Z.pos q) with r
     end).

Ltac kigits_steps :=
  repeat
    (rewrite integer_kigits_step
       by (change (2 ^ 31) with 2147483648; lia);
     closed_div).

(** X5.  The constructor from an integer divides by zero for every value
    whose number of decimal digits is above 3 and not a multiple of 3:
    [div] starts as 10 to the number of digits minus 3 and is divided by
    1000 after each kigit, so it is 0 before the last kigit unless it
    started as a power of 1000. *)
Theorem construct_divides_by_zero : forall ty v,
  1000 <= v < 100000 \/ 1000000 <= v < 100000000 \/
  1000000000 <= v < 2 ^ 31 ->
  decimal.construct Int ty v 0 = None.
Proof.
  intros ty v Hv. change (2 ^ 31) with 2147483648 in Hv.
  unfold decimal.construct.
  rewrite scale_loop_digits by (change (2 ^ 31) with 2147483648; lia).
  digits_case;
    match goal with
    | |- context [Z.to_nat ?n] =>
        let k := eval vm_compute in (Z.to_nat n) in
        change (Z.to_nat n) with k
    end;
    kigits_steps; rewrite integer_kigits_zero;
    repeat (cbn [option_map]); reflexivity.
Qed.

(** X4.  The constructor from an integer is exact for the values it can
    build: with up to 3 decimal digits, with 6 or with 9.  The decimal it
    returns stands for [value], with kigits in 0..999 and, unless [value]
    is 0, a leading kigit of at least 100. *)
Theorem construct_exact : forall ty v,
  0 <= v < 1000 \/ 100000 <= v < 1000000 \/
  100000000 <= v < 1000000000 ->
  exists d,
    decimal.construct Int ty v 0 = Some d /\
    type d = ty /\ kigits_ok (kigs d) /\
    (value d == sign_of ty * inject_Z v)%Q /\
    (0 < v -> 100 <= hd 0 (kigs d)).
Proof.
  intros ty v Hv.
  unfold decimal.construct, decimal.required_memory.
  rewrite scale_loop_digits, count_digits_digits
    by (change (2 ^ 31) with 2147483648; lia).
  digits_case;
    repeat
      (match goal with
       | |- context [Z.to_nat ?n] =>
           let k := eval vm_compute in (Z.to_nat n) in
           progress change (Z.to_nat n) with k
       end);
    kigits_steps; cbn [decimal.integer_kigits option_map];
    match goal with
    | |- context [(?a <? ?b)%nat] =>
        let r := eval vm_compute in (a <? b)%nat in
        change (a <? b)%nat with r
    end;
    cbv iota;
    rewrite stored_kigits
      by (try reflexivity; try apply zero_bytes_ok;
          try (rewrite repeat_length; vm_compute; lia);
          repeat constructor;
          match goal with
          | |- _ <= ?a mod 1000 =>
              pose proof (Z.mod_pos_bound a 1000 ltac:(lia)); lia
          | |- ?a mod 1000 < _ =>
              pose proof (Z.mod_pos_bound a 1000 ltac:(lia)); lia
          end);
    (eexists; split; [reflexivity|]);
    cbn [type kigs hd];
    (split; [reflexivity|]);
    (split;
     [ repeat constructor; apply Z.mod_pos_bound; lia
     | split;
       [ match goal with
         | |- (value (mk_decimal _ ?e _) == _)%Q =>
             rewrite (value_from_Mint _ _ _ e 0 v 1);
             [ field
             | lia | lia | lia | lia
             | cbn [Mint length Z.of_nat Pos.of_succ_nat Pos.succ];
               change (1000 ^ 0) with 1; change (1000 ^ 1) with 1000;
               change (1000 ^ 2) with 1000000;
               change (1000 ^ 3) with 1000000000;
               change (10 ^ 0) with 1;
               change (10 ^ 1) with 10; change (10 ^ 2) with 100;
               change (10 ^ 3) with 1000; change (10 ^ 6) with 1000000;
               change (10 ^ 9) with 1000000000;
               Z.to_euclidean_division_equations; lia ]
         end
       | intro; Z.to_euclidean_division_equations; lia ] ]).
Qed.

End FromIntegerProperties.

Lemma ularge_holds_int : forall z, 0 <= z < 2 ^ 31 -> ularge z = z.
Proof.
  intros z Hz. apply ularge_small.
  change (2 ^ 31) with 2147483648 in Hz.
  change (2 ^ 64) with 18446744073709551616. lia.
Qed.

Lemma construct_exact_witness :
  exists d,
    decimal.construct ularge ID_decimal 123456 0 = Some d /\
    (value d == 123456)%Q.
Proof.
  destruct (construct_exact ularge ularge_holds_int ID_decimal 123456
              ltac:(lia)) as (d & Hc & _ & _ & Hv & _).
  exists d. split; [exact Hc|]. rewrite Hv. reflexivity.
Defined.

Lemma construct_divides_by_zero_witness :
  decimal.construct ularge ID_decimal 1234 0 = None.
Proof.
  apply (construct_divides_by_zero ularge ularge_holds_int ID_decimal 1234).
  lia.
Defined.


(** ** Rounding towards zero *)

Lemma abs_value : forall x,
  kigits_ok (kigs x) ->
  (Qabs (value x) == mantissa (kigs x) * inject_Z 10 ^ exponent x)%Q.
Proof.
  intros x Hok. unfold value.
  rewrite !Qabs_Qmult, sign_of_abs.
  pose proof (mantissa_nonneg (kigs x) Hok) as Hm.
  pose proof (pow10_positive (exponent x)) as Hp.
  rewrite (Qabs_pos (mantissa (kigs x))) by exact Hm.
  rewrite (Qabs_pos (inject_Z 10 ^ exponent x)) by lra.
  ring.
Qed.

Lemma mantissa_pointwise_le : forall a b,
  kigits_ok a -> kigits_ok b -> (length a <= length b)%nat ->
  (forall i, nth i a 0 <= nth i b 0) ->
  (mantissa a <= mantissa b)%Q.
Proof.
  induction a as [|k r IH]; intros b Ha Hb Hlen Hle.
  - simpl. apply mantissa_nonneg. exact Hb.
  - destruct b as [|k' r']; [simpl in Hlen; lia|].
    inversion Ha as [|? ? Hk Hr]; subst.
    inversion Hb as [|? ? Hk' Hr']; subst.
    assert (Hrec : (mantissa r <= mantissa r')%Q).
    { apply IH; try assumption; [simpl in Hlen; lia|].
      intro i. apply (Hle (S i)). }
    pose proof (Hle 0%nat) as H0. cbn [nth] in H0.
    assert (HQ : (inject_Z k <= inject_Z k')%Q) by (rewrite <- Zle_Qle; exact H0).
    cbn [mantissa]. change (inject_Z 1000) with 1000%Q.
    apply Qle_shift_div_l; [lra|].
    field_simplify. lra.
Qed.

Lemma round_last_bounds : forall rm k,
  0 <= k < 1000 -> 0 <= decimal.round_last rm k <= k.
Proof.
  intros rm k Hk. unfold decimal.round_last.
  destruct (rm =? 0); [lia|].
  destruct (rm =? 1).
  - rewrite kint_small by (Z.to_euclidean_division_equations; lia).
    Z.to_euclidean_division_equations; lia.
  - destruct (rm =? 2); [|lia].
    rewrite kint_small by (Z.to_euclidean_division_equations; lia).
    Z.to_euclidean_division_equations; lia.
Qed.

(** X15.  [round_to_zero] never moves away from zero: applied to a decimal
    with kigits in 0..999 it returns a decimal with kigits in 0..999 whose
    magnitude is at most the magnitude of its argument, and which is either
    the positive zero or has the tag and the exponent of the argument. *)
Theorem round_to_zero_never_grows : forall x to_exp,
  wf x ->
  exists r,
    decimal.round_to_zero x to_exp = Some r /\
    wf r /\
    (Qabs (value r) <= Qabs (value x))%Q /\
    (r = mk_decimal ID_decimal 0 [] \/
     (type r = type x /\ exponent r = exponent x)).
Proof.
  intros x to_exp [Hty Hok].
  assert (Hzero : wf (mk_decimal ID_decimal 0 []) /\
            (Qabs (value (mk_decimal ID_decimal 0 [])) <= Qabs (value x))%Q).
  { split; [split; [reflexivity | constructor]|].
    change (Qabs (value (mk_decimal ID_decimal 0 []))) with (Qabs (1 * 0 * 1)).
    apply Qabs_nonneg. }
  unfold decimal.round_to_zero.
  destruct (exponent x <? to_exp).
  { exists (mk_decimal ID_decimal 0 []).
    split; [reflexivity|]. destruct Hzero. auto. }
  destruct (length (kigs x) <? Z.to_nat (Z.quot (exponent x - to_exp) 3))%nat.
  { exists (mk_decimal ID_decimal 0 []).
    split; [reflexivity|]. destruct Hzero. auto. }
  set (n := (length (kigs x) - Z.to_nat (Z.quot (exponent x - to_exp) 3))%nat).
  set (rm := Z.rem (exponent x - to_exp) 3).
  set (f := fun i : nat =>
              let k := kigit (kigs x) i in
              if (i =? n - 1)%nat then decimal.round_last rm k else k).
  assert (Hf : forall i, 0 <= f i <= kigit (kigs x) i /\ 0 <= f i < 1000).
  { intro i. unfold f. cbv zeta.
    pose proof (kigit_ok (kigs x) i Hok) as Hk.
    pose proof (round_last_bounds rm _ Hk).
    destruct (i =? n - 1)%nat; lia. }
  eexists. split; [reflexivity|].
  assert (Hok' : kigits_ok (map f (seq 0 n))).
  { apply Forall_forall. intros k Hin. apply in_map_iff in Hin.
    destruct Hin as (i & <- & _). apply Hf. }
  split; [split; [exact Hty | exact Hok']|].
  split; [|right; split; reflexivity].
  rewrite !abs_value by assumption. cbn [kigs exponent].
  apply Qmult_le_compat_r; [|apply Qlt_le_weak, pow10_positive].
  apply mantissa_pointwise_le; try assumption.
  - rewrite length_map, length_seq. unfold n. lia.
  - intro i. destruct (Nat.lt_ge_cases i n) as [Hi|Hi].
    + rewrite (nth_indep _ 0 (f 0%nat)) by (now rewrite length_map, length_seq).
      rewrite map_nth, seq_nth by exact Hi. apply Hf.
    + rewrite nth_overflow by (now rewrite length_map, length_seq).
      apply (kigit_ok (kigs x) i Hok).
Qed.

Lemma round_to_zero_never_grows_witness :
  exists r,
    decimal.round_to_zero (mk_decimal ID_neg_decimal 2 [125]) 0 = Some r /\
    (Qabs (value r) <= 25 # 2)%Q.
Proof.
  assert (Hwf : wf (mk_decimal ID_neg_decimal 2 [125]))
    by (split; [reflexivity | repeat constructor; simpl; lia]).
  destruct (round_to_zero_never_grows (mk_decimal ID_neg_decimal 2 [125]) 0 Hwf)
    as (r & Hr & _ & Hle & _).
  exists r. split; [exact Hr|].
  eapply Qle_trans; [exact Hle|]. vm_compute. discriminate.
Defined.

(** X16.  On a decimal with a single kigit whose exponent is 1 or 2 above
    [to_exp], [round_to_zero] is the truncation to a multiple of
    10^[to_exp]: the result stands for the integer part of the magnitude
    counted in units of 10^[to_exp], with the sign of the argument. *)
Theorem round_to_zero_single_kigit : forall ty e k to_exp,
  0 <= k < 1000 -> e = to_exp + 1 \/ e = to_exp + 2 ->
  let x := mk_decimal ty e [k] in
  exists r,
    decimal.round_to_zero x to_exp = Some r /\
    (value r ==
     sign_of ty
     * inject_Z (Qfloor (Qabs (value x) / inject_Z 10 ^ to_exp))
     * inject_Z 10 ^ to_exp)%Q.
Proof.
  intros ty e k to_exp Hk He x.
  assert (Hok : kigits_ok [k]) by (repeat constructor; lia).
  assert (Hfloor :
    Qfloor (Qabs (value x) / inject_Z 10 ^ to_exp)
    = k * 10 ^ (e - to_exp) / 1000).
  { rewrite abs_value by exact Hok. cbn [kigs exponent x mantissa].
    rewrite <- Qfloor_ratio by lia.
    assert (Hq : ((inject_Z k + 0) / inject_Z 1000 * inject_Z 10 ^ e
                  / inject_Z 10 ^ to_exp
                  == inject_Z (k * 10 ^ (e - to_exp)) / inject_Z 1000)%Q).
    { replace e with (to_exp + (e - to_exp)) at 1 by lia.
      rewrite pow10_add, inject_Z_mult.
      rewrite (Zpower_Qpower 10 (e - to_exp)) by lia.
      pose proof (pow10_positive to_exp).
      change (inject_Z 10) with 10%Q in *. change (inject_Z 1000) with 1000%Q.
      field. lra. }
    rewrite Hq. reflexivity. }
  rewrite Hfloor.
  unfold decimal.round_to_zero. cbn [exponent kigs type length x].
  destruct (Z.ltb_spec e to_exp); [lia|].
  destruct He as [He|He]; subst e.
  - replace (to_exp + 1 - to_exp) with 1 by lia.
    change (Z.quot 1 3) with 0. change (Z.rem 1 3) with 1.
    cbn [Z.to_nat Nat.ltb Nat.leb Nat.sub seq map Nat.eqb kigit nth].
    eexists. split; [reflexivity|].
    cbn [decimal.round_last Z.eqb Pos.eqb].
    rewrite kint_small by (Z.to_euclidean_division_equations; lia).
    change (10 ^ 1) with 10.
    unfold value. cbn [type exponent kigs mantissa].
    rewrite pow10_add.
    assert (E : k - k mod 100 = 100 * (k * 10 / 1000))
      by (Z.to_euclidean_division_equations; lia).
    rewrite E, inject_Z_mult.
    change (inject_Z 10 ^ 1)%Q with 10%Q.
    change (inject_Z 1000) with 1000%Q. change (inject_Z 100) with 100%Q.
    field.
  - replace (to_exp + 2 - to_exp) with 2 by lia.
    change (Z.quot 2 3) with 0. change (Z.rem 2 3) with 2.
    cbn [Z.to_nat Nat.ltb Nat.leb Nat.sub seq map Nat.eqb kigit nth].
    eexists. split; [reflexivity|].
    cbn [decimal.round_last Z.eqb Pos.eqb].
    rewrite kint_small by (Z.to_euclidean_division_equations; lia).
    change (10 ^ 2) with 100.
    unfold value. cbn [type exponent kigs mantissa].
    rewrite pow10_add.
    assert (E : k - k mod 10 = 10 * (k * 100 / 1000))
      by (Z.to_euclidean_division_equations; lia).
    rewrite E, inject_Z_mult.
    change (inject_Z 10 ^ 2)%Q with 100%Q.
    change (inject_Z 1000) with 1000%Q. change (inject_Z 10) with 10%Q.
    field.
Qed.

Lemma round_to_zero_single_kigit_witness :
  exists r,
    decimal.round_to_zero (mk_decimal ID_neg_decimal 2 [125]) 0 = Some r /\
    (value r == - (12))%Q.
Proof.
  destruct (round_to_zero_single_kigit ID_neg_decimal 2 125 0
              ltac:(lia) ltac:(lia)) as (r & Hr & Hv).
  exists r. split; [exact Hr|]. rewrite Hv. reflexivity.
Defined.


(** ** File names *)

Lemma basename_loop_cases : forall p path,
  (no_separator p /\ file.basename_loop p path = path) \/
  (exists dir c,
     is_separator c = true /\
     p = dir ++ c :: file.basename_loop p path /\
     no_separator (file.basename_loop p path)).
Proof.
  induction p as [|c r IH]; intro path.
  - left. split; [constructor | reflexivity].
  - cbn [file.basename_loop].
    destruct ((c =? 47) || (c =? 92)) eqn:Hc.
    + right. destruct (IH r) as [[Hns Hb]|(dir & c' & Hc' & Hp & Hns)].
      * exists [], c. rewrite Hb. repeat split; assumption.
      * exists (c :: dir), c'. split; [exact Hc'|]. split; [|exact Hns].
        cbn [app]. f_equal. exact Hp.
    + destruct (IH path) as [[Hns Hb]|(dir & c' & Hc' & Hp & Hns)].
      * left. split; [constructor; assumption | exact Hb].
      * right. exists (c :: dir), c'. split; [exact Hc'|]. split; [|exact Hns].
        cbn [app]. f_equal. exact Hp.
Qed.

Lemma basename_loop_no_separator : forall p path,
  no_separator p -> file.basename_loop p path = path.
Proof.
  induction p as [|c r IH]; intros path H; [reflexivity|].
  inversion H as [|? ? Hc Hr]; subst. cbn [file.basename_loop].
  unfold is_separator in Hc. rewrite Hc. apply IH. exact Hr.
Qed.

Lemma basename_loop_after_separator : forall p path path',
  ~ no_separator p ->
  file.basename_loop p path = file.basename_loop p path'.
Proof.
  induction p as [|c r IH]; intros path path' H.
  - exfalso. apply H. constructor.
  - cbn [file.basename_loop].
    destruct ((c =? 47) || (c =? 92)) eqn:Hc; [reflexivity|].
    apply IH. intro Hr. apply H. constructor; assumption.
Qed.

Lemma no_separator_dec : forall p, no_separator p \/ ~ no_separator p.
Proof.
  induction p as [|c r [IH|IH]].
  - left. constructor.
  - destruct (is_separator c) eqn:Hc.
    + right. intro H. inversion H; subst. congruence.
    + left. constructor; assumption.
  - right. intro H. inversion H; subst. contradiction.
Qed.

Lemma basename_no_separator : forall path,
  no_separator (file.basename path).
Proof.
  intro path. unfold file.basename.
  destruct (basename_loop_cases path path) as [[Hns Hb]|(dir & c & _ & _ & Hns)].
  - rewrite Hb. exact Hns.
  - exact Hns.
Qed.

(** X17.  [basename] cuts the path after its last separator: the path is
    a directory part, empty or ending in [/] or [\], followed by the base
    name; the base name holds no separator; and the base name of a base
    name is that base name. *)
Theorem basename_splits_path : forall path,
  (exists dir,
     path = dir ++ file.basename path /\
     (dir = [] \/ is_separator (last dir 0) = true)) /\
  no_separator (file.basename path) /\
  file.basename (file.basename path) = file.basename path.
Proof.
  intro path.
  pose proof (basename_no_separator path) as Hns.
  split; [|split].
  - unfold file.basename.
    destruct (basename_loop_cases path path) as [[_ Hb]|(dir & c & Hc & Hp & _)].
    + exists []. rewrite Hb. split; [reflexivity | left; reflexivity].
    + exists (dir ++ [c]). split.
      * rewrite <- app_assoc. exact Hp.
      * right. rewrite last_last. exact Hc.
  - exact Hns.
  - apply basename_loop_no_separator. exact Hns.
Qed.

Lemma extension_loop_after_separator : forall p ext ext',
  ~ no_separator p ->
  file.extension_loop p ext = file.extension_loop p ext'.
Proof.
  induction p as [|c r IH]; intros ext ext' H.
  - exfalso. apply H. constructor.
  - cbn [file.extension_loop].
    destruct ((c =? 92) || (c =? 47)) eqn:Hc; [reflexivity|].
    assert (Hr : ~ no_separator r).
    { intro Hr. apply H. constructor; [|exact Hr].
      unfold is_separator. rewrite orb_comm. exact Hc. }
    destruct (c =? 46); apply IH; exact Hr.
Qed.

Lemma extension_loop_basename : forall p,
  file.extension_loop p None
  = file.extension_loop (file.basename_loop p p) None.
Proof.
  induction p as [|c r IH]; [reflexivity|].
  cbn [file.extension_loop file.basename_loop].
  rewrite (orb_comm (c =? 47) (c =? 92)).
  destruct ((c =? 92) || (c =? 47)) eqn:Hc; [exact IH|].
  destruct (no_separator_dec r) as [Hr|Hr].
  - rewrite (basename_loop_no_separator r (c :: r) Hr).
    cbn [file.extension_loop]. rewrite Hc. reflexivity.
  - rewrite (basename_loop_after_separator r (c :: r) r Hr).
    rewrite <- IH.
    destruct (c =? 46); [|reflexivity].
    apply extension_loop_after_separator. exact Hr.
Qed.

(** X18.  The extension of a path is the extension of its base name: the
    directory part never contributes, even when it holds dots; and a null
    path has no extension. *)
Theorem extension_of_basename : forall path,
  file.extension (Some path) = file.extension (Some (file.basename path)) /\
  file.extension None = None.
Proof.
  intro path. split; [|reflexivity].
  cbn [file.extension]. unfold file.basename. apply extension_loop_basename.
Qed.

Lemma extension_loop_last_dot : forall p ext,
  no_separator p ->
  (no_dot p /\ file.extension_loop p ext = ext) \/
  (exists stem t,
     p = stem ++ 46 :: t /\ no_dot t /\
     file.extension_loop p ext = Some (46 :: t)).
Proof.
  induction p as [|c r IH]; intros ext Hns.
  - left. split; [constructor | reflexivity].
  - inversion Hns as [|? ? Hc Hr]; subst.
    cbn [file.extension_loop].
    unfold is_separator in Hc. rewrite orb_comm in Hc. rewrite Hc.
    destruct (Z.eqb_spec c 46) as [E|E].
    + subst c. right.
      destruct (IH (Some (46 :: r)) Hr) as [[Hnd He]|(stem & t & Hp & Hnd & He)].
      * exists [], r. rewrite He. repeat split; assumption.
      * exists (46 :: stem), t. rewrite He. split; [|split; [exact Hnd|reflexivity]].
        cbn [app]. f_equal. exact Hp.
    + destruct (IH ext Hr) as [[Hnd He]|(stem & t & Hp & Hnd & He)].
      * left. split; [constructor; assumption | exact He].
      * right. exists (c :: stem), t. rewrite He.
        split; [|split; [exact Hnd|reflexivity]].
        cbn [app]. f_equal. exact Hp.
Qed.

(** X19.  [extension] finds the last dot of the base name: when the base
    name holds no dot the result is null, and otherwise the result starts
    at a dot, runs to the end of the path and holds no other dot. *)
Theorem extension_is_last_dot : forall path,
  (no_dot (file.basename path) /\ file.extension (Some path) = None) \/
  (exists stem t,
     file.basename path = stem ++ 46 :: t /\ no_dot t /\
     file.extension (Some path) = Some (46 :: t)).
Proof.
  intro path. cbn [file.extension].
  rewrite extension_loop_basename.
  apply extension_loop_last_dot. apply basename_no_separator.
Qed.


(** ** Addition and subtraction, continued *)

Lemma add_kigit_aligned : forall xb yb lmul ko carry,
  decimal.add_kigit xb yb 0 0 1 lmul ko carry
  = decimal.add_kigit yb xb 0 0 1 lmul ko carry.
Proof.
  intros xb yb lmul ko carry. unfold decimal.add_kigit.
  cbn [Nat.leb Z.eqb negb andb].
  rewrite Nat.sub_0_r, !Z.div_1_r.
  f_equal. f_equal. f_equal. apply Z.add_comm.
Qed.

Lemma add_loop_aligned : forall xb yb lmul ko rb carry,
  decimal.add_loop xb yb 0 0 1 lmul ko rb carry
  = decimal.add_loop yb xb 0 0 1 lmul ko rb carry.
Proof.
  intros xb yb lmul ko; induction ko as [|ko IH]; intros rb carry;
    cbn [decimal.add_loop]; [reflexivity|].
  rewrite (add_kigit_aligned xb yb). apply IH.
Qed.

(** X13.  [add] is commutative: on two operands with the same tag it
    returns the same object whichever comes first. *)
Theorem add_commutative : forall Settings x y,
  type x = type y ->
  decimal.add Settings x y = decimal.add Settings y x.
Proof.
  intros Settings x y Hty. unfold decimal.add. rewrite Hty.
  destruct (Z.ltb_spec (exponent x) (exponent y)) as [Hlt|Hge];
    destruct (Z.ltb_spec (exponent y) (exponent x)) as [Hlt'|Hge'];
    try lia; try reflexivity.
  assert (He : exponent x = exponent y) by lia. rewrite He.
  rewrite Z.sub_diag. cbn [Z.to_nat Nat.div Nat.modulo Nat.divmod fst snd Z.of_nat Nat.sub].
  change ((0 + 2) / 3)%nat with 0%nat. rewrite !Nat.add_0_r.
  rewrite (Nat.max_comm (length (kigs y))).
  rewrite (add_loop_aligned (kigs x) (kigs y)). reflexivity.
Qed.

Lemma add_commutative_witness :
  let x := mk_decimal ID_decimal 1 [100] in
  let y := mk_decimal ID_decimal (-1) [110] in
  decimal.add default_settings y x = mk_decimal ID_decimal 1 [101; 100].
Proof.
  intros x y. rewrite <- (add_commutative default_settings x y eq_refl).
  reflexivity.
Defined.

Lemma strip_leading_zeros : forall n xe,
  exists e, strip_leading xe (repeat 0 n) = (e, []).
Proof.
  induction n as [|n IH]; intro xe.
  - exists xe. reflexivity.
  - cbn [repeat strip_leading Z.eqb]. apply IH.
Qed.

Lemma sub_loop_self : forall xb lmul ko rb,
  kigits_ok xb -> (ko <= length xb)%nat ->
  decimal.sub_loop xb xb 0 0 1 lmul ko rb 0 = (repeat 0 ko ++ rb, 0).
Proof.
  intros xb lmul ko; induction ko as [|ko IH]; intros rb Hok Hlen;
    [reflexivity|].
  cbn [decimal.sub_loop].
  assert (Hk : decimal.sub_kigit xb xb 0 0 1 lmul ko 0 = (0, 0)).
  { unfold decimal.sub_kigit. cbn [Nat.leb Z.eqb negb andb].
    rewrite Nat.sub_0_r.
    destruct (Nat.ltb_spec ko (length xb)); [|lia].
    pose proof (kigit_ok xb ko Hok) as Hb.
    rewrite Z.div_1_r. cbn [Z.add].
    rewrite (kint_small (kigit xb ko)) by lia.
    rewrite Z.ltb_irrefl. cbn [Z.b2z Z.eqb negb].
    rewrite Z.sub_diag. reflexivity. }
  rewrite Hk. rewrite IH by (try assumption; lia).
  f_equal. change (0 :: rb) with ([0] ++ rb). rewrite app_assoc. f_equal.
  change [0] with (repeat 0 1). rewrite <- repeat_app. f_equal. lia.
Qed.

(** X14.  Subtracting a decimal from itself gives zero in its normal
    form: no kigit, exponent 0, and the tag of the operand. *)
Theorem sub_self_is_zero : forall Settings x,
  kigits_ok (kigs x) ->
  decimal.sub Settings x x = mk_decimal (type x) 0 [].
Proof.
  intros Settings x Hok. unfold decimal.sub.
  rewrite Z.ltb_irrefl, Z.sub_diag.
  cbn [Z.to_nat Nat.div Nat.modulo Nat.divmod fst snd Z.of_nat Nat.sub].
  change ((0 + 2) / 3)%nat with 0%nat. rewrite Nat.add_0_r, Nat.max_id.
  cbn [Nat.ltb Nat.leb].
  change (decimal.hmul_of 0) with 1.
  rewrite sub_loop_self by (try assumption; apply Nat.le_min_r).
  cbn [Z.eqb negb]. rewrite app_nil_r.
  match goal with
  | |- context [strip_leading ?e (repeat 0 ?n)] =>
      destruct (strip_leading_zeros n e) as [e' He]; rewrite He
  end.
  reflexivity.
Qed.

Lemma sub_self_is_zero_witness :
  decimal.sub default_settings (mk_decimal ID_neg_decimal 2 [125; 500])
    (mk_decimal ID_neg_decimal 2 [125; 500])
  = mk_decimal ID_neg_decimal 0 [].
Proof.
  apply (sub_self_is_zero default_settings (mk_decimal ID_neg_decimal 2 [125; 500])).
  repeat constructor; simpl; lia.
Defined.


(** ** Reading the text of a number *)

Lemma number_snoc : forall w d, number (w ++ [d]) = number w * 10 + d.
Proof. intros w d. unfold number. rewrite fold_left_app. reflexivity. Qed.

Lemma is_digit_byte : forall d, digit d -> is_digit (48 + d) = true.
Proof.
  intros d Hd. unfold digit in Hd. unfold is_digit.
  apply andb_true_intro. split; [apply Z.leb_le | apply Z.leb_le]; lia.
Qed.

Lemma scan_digit_dot : forall c st,
  sc_decimalDot (scan_digit c st) = sc_decimalDot st.
Proof.
  intros c st. unfold scan_digit.
  repeat match goal with
         | |- context [if ?b then _ else _] => destruct b
         end; reflexivity.
Qed.

Lemma scan_digit_scanned : forall w k st d,
  scanned w k st -> digit d ->
  scanned (w ++ [d]) (if sc_decimalDot st <? 0 then k else k + 1)
    (scan_digit (48 + d) st).
Proof.
  intros w k [kg kc ex dot dg zr scr] d
    (Hdg & Hok & Hkc & Hkg & Hnum & Hex & Hz) Hd.
  cbn [sc_digits sc_scratch sc_kigc sc_kigit sc_exponent sc_zeroes
       sc_decimalDot] in *.
  unfold digit in Hd.
  assert (Hlen : S dg = length (w ++ [d]))
    by (rewrite length_app; simpl; lia).
  assert (Hc : kc = 0 \/ kc = 1 \/ kc = 2) by lia.
  unfold scan_digit, scanned.
  cbn [sc_digits sc_scratch sc_kigc sc_kigit sc_exponent sc_zeroes
       sc_decimalDot].
  replace (48 + d - 48) with d by lia.
  rewrite number_snoc.
  destruct zr; cbn [negb orb].
  - (* only zeroes so far *)
    destruct (Hz eq_refl) as (Hn0 & Hs0 & Hk0). subst scr kc.
    change (10 ^ 0) with 1 in *. cbn [Mint length Z.of_nat] in *.
    assert (kg = 0) by lia. subst kg.
    destruct (Z.eqb_spec (48 + d) 48) as [E|E]; cbn [negb].
    + assert (d = 0) by lia. subst d.
      destruct (Z.ltb_spec dot 0) as [Hdot|Hdot].
      * destruct (Z.leb_spec 0 dot); [lia|].
        cbn [sc_digits sc_scratch sc_kigc sc_kigit sc_exponent sc_zeroes].
        change (10 ^ 0) with 1. cbn [Mint length Z.of_nat].
        repeat split; try assumption; try lia.
      * destruct (Z.leb_spec 0 dot); [|lia].
        cbn [sc_digits sc_scratch sc_kigc sc_kigit sc_exponent sc_zeroes].
        change (10 ^ 0) with 1. cbn [Mint length Z.of_nat].
        repeat split; try assumption; try lia.
    + change (0 + 1 =? 3) with false.
      cbn [sc_digits sc_scratch sc_kigc sc_kigit sc_exponent sc_zeroes].
      rewrite kint_small by lia.
      change (10 ^ (0 + 1)) with 10. cbn [Mint length Z.of_nat].
      destruct (Z.ltb_spec dot 0);
        repeat split; try assumption; try lia; try discriminate.
  - (* a digit other than 0 was seen *)
    rewrite kint_small
      by (destruct Hc as [E|[E|E]]; subst kc;
          [change (10 ^ 0) with 1 in Hkg
          |change (10 ^ 1) with 10 in Hkg
          |change (10 ^ 2) with 100 in Hkg]; lia).
    destruct Hc as [E|[E|E]]; subst kc.
    + change (0 + 1 =? 3) with false.
      cbn [sc_digits sc_scratch sc_kigc sc_kigit sc_exponent sc_zeroes].
      change (10 ^ 0) with 1 in *. change (10 ^ (0 + 1)) with 10.
      destruct (Z.ltb_spec dot 0);
        repeat split; try assumption; try lia; try discriminate.
    + change (1 + 1 =? 3) with false.
      cbn [sc_digits sc_scratch sc_kigc sc_kigit sc_exponent sc_zeroes].
      change (10 ^ 1) with 10 in *. change (10 ^ (1 + 1)) with 100.
      destruct (Z.ltb_spec dot 0);
        repeat split; try assumption; try lia; try discriminate.
    + change (2 + 1 =? 3) with true.
      cbn [sc_digits sc_scratch sc_kigc sc_kigit sc_exponent sc_zeroes].
      change (10 ^ 2) with 100 in *. change (10 ^ 0) with 1.
      rewrite Mint_app, !length_app. cbn [Mint length].
      change (1000 ^ Z.of_nat 1) with 1000. change (1000 ^ Z.of_nat 0) with 1.
      assert (Hok' : kigits_ok (scr ++ [kg * 10 + d])).
      { apply Forall_app. split; [exact Hok|]. repeat constructor; lia. }
      destruct (Z.ltb_spec dot 0);
        repeat split; try assumption; try lia; try discriminate.
Qed.

(** The exponent moves by at most one for each digit scanned. *)
Lemma scan_digit_exponent : forall c st,
  Z.abs (sc_exponent st) <= Z.of_nat (sc_digits st) ->
  Z.abs (sc_exponent (scan_digit c st))
  <= Z.of_nat (sc_digits (scan_digit c st)).
Proof.
  intros c st H. unfold scan_digit.
  repeat match goal with
         | |- context [if ?b then _ else _] => destruct b
         end;
    cbn [sc_exponent sc_digits]; lia.
Qed.

Lemma scan_all_exponent : forall ds st,
  Z.abs (sc_exponent st) <= Z.of_nat (sc_digits st) ->
  Z.abs (sc_exponent (scan_all st ds)) <= Z.of_nat (sc_digits (scan_all st ds)).
Proof.
  induction ds as [|d r IH]; intros st H; [exact H|].
  cbn [scan_all fold_left]. fold (scan_all (scan_digit (48 + d) st) r).
  apply IH, scan_digit_exponent, H.
Qed.

Lemma scan_all_app : forall st a b,
  scan_all st (a ++ b) = scan_all (scan_all st a) b.
Proof. intros. unfold scan_all. apply fold_left_app. Qed.

Lemma scan_all_dot : forall ds st,
  sc_decimalDot (scan_all st ds) = sc_decimalDot st.
Proof.
  induction ds as [|d r IH]; intro st; [reflexivity|].
  cbn [scan_all fold_left]. fold (scan_all (scan_digit (48 + d) st) r).
  rewrite IH. apply scan_digit_dot.
Qed.

Lemma scan_all_scanned : forall ds w k st,
  scanned w k st -> Forall digit ds ->
  scanned (w ++ ds)
    (if sc_decimalDot st <? 0 then k else k + Z.of_nat (length ds))
    (scan_all st ds).
Proof.
  induction ds as [|d r IH]; intros w k st Hs Hds.
  - rewrite app_nil_r. cbn [scan_all fold_left length Z.of_nat].
    destruct (sc_decimalDot st <? 0); [exact Hs|].
    rewrite Z.add_0_r. exact Hs.
  - inversion Hds as [|? ? Hd Hr]; subst.
    cbn [scan_all fold_left]. fold (scan_all (scan_digit (48 + d) st) r).
    pose proof (scan_digit_scanned w k st d Hs Hd) as H1.
    pose proof (IH (w ++ [d]) _ _ H1 Hr) as H2.
    rewrite scan_digit_dot in H2.
    rewrite <- app_assoc in H2. cbn [app] in H2.
    destruct (sc_decimalDot st <? 0); [exact H2|].
    replace (k + Z.of_nat (length (d :: r)))
      with (k + 1 + Z.of_nat (length r))
      by (cbn [length]; lia).
    exact H2.
Qed.

(** The scan loop over a run of digits in the text. *)
Lemma scan_digits_run : forall ds pre post f st,
  Forall digit ds ->
  scan_digits (pre ++ digit_bytes ds ++ post) (length ds + f) (length pre) st
  = scan_digits (pre ++ digit_bytes ds ++ post) f (length pre + length ds)
      (scan_all st ds).
Proof.
  induction ds as [|d r IH]; intros pre post f st Hds.
  - cbn [length Nat.add scan_all fold_left]. rewrite Nat.add_0_r. reflexivity.
  - inversion Hds as [|? ? Hd Hr]; subst.
    change (digit_bytes (d :: r)) with ((48 + d) :: digit_bytes r).
    cbn [app length Nat.add scan_digits].
    assert (Hb : byte_at (pre ++ (48 + d) :: digit_bytes r ++ post) (length pre)
                 = 48 + d).
    { unfold byte_at. rewrite app_nth2 by lia. rewrite Nat.sub_diag.
      reflexivity. }
    rewrite Hb, (is_digit_byte d Hd).
    cbn [scan_all fold_left]. fold (scan_all (scan_digit (48 + d) st) r).
    specialize (IH (pre ++ [48 + d]) post f (scan_digit (48 + d) st) Hr).
    rewrite <- app_assoc in IH. cbn [app] in IH.
    rewrite length_app in IH. cbn [length] in IH.
    replace (length pre + 1)%nat with (S (length pre)) in IH by lia.
    rewrite IH. f_equal. lia.
Qed.

Lemma scan_digits_mark : forall pre sep post f st,
  sep = 46 \/ sep = 44 -> sc_decimalDot st < 0 ->
  scan_digits (pre ++ sep :: post) (S f) (length pre) st
  = scan_digits (pre ++ sep :: post) f (S (length pre))
      (mk_scan (sc_kigit st) (sc_kigc st) (sc_exponent st)
         (Z.of_nat (length pre)) (sc_digits st) (sc_zeroes st)
         (sc_scratch st)).
Proof.
  intros pre sep post f st Hsep Hdot. cbn [scan_digits].
  assert (Hb : byte_at (pre ++ sep :: post) (length pre) = sep).
  { unfold byte_at. rewrite app_nth2 by lia. rewrite Nat.sub_diag.
    reflexivity. }
  rewrite Hb.
  assert (Hnd : is_digit sep = false) by (destruct Hsep; subst sep; reflexivity).
  rewrite Hnd.
  destruct (Z.ltb_spec (sc_decimalDot st) 0); [|lia].
  assert (Hs : (sep =? 46) || (sep =? 44) = true)
    by (destruct Hsep; subst sep; reflexivity).
  rewrite Hs. reflexivity.
Qed.

Lemma scan_digits_stop : forall src f s st,
  f = 0%nat \/
  (is_digit (byte_at src s) = false /\
   (0 <= sc_decimalDot st \/
    (byte_at src s <> 46 /\ byte_at src s <> 44))) ->
  scan_digits src f s st = (s, st).
Proof.
  intros src f s st [Hf|[Hnd Hm]]; [subst f; reflexivity|].
  destruct f as [|f]; [reflexivity|]. cbn [scan_digits]. rewrite Hnd.
  destruct Hm as [Hdot|[H46 H44]].
  - destruct (Z.ltb_spec (sc_decimalDot st) 0); [lia|]. reflexivity.
  - destruct (Z.eqb_spec (byte_at src s) 46); [contradiction|].
    destruct (Z.eqb_spec (byte_at src s) 44); [contradiction|].
    rewrite andb_false_r. reflexivity.
Qed.

Lemma scanned_start : scanned [] 0 (mk_scan 0 0 0 (-1) 0 true []).
Proof.
  unfold scanned. cbn. repeat split; try lia; try constructor.
Qed.

(** The scan of a whole mantissa. *)
Lemma scan_mantissa : forall ip frac post f,
  well_written ip frac ->
  exists st,
    scan_digits (mantissa_text ip frac ++ post)
      (length (mantissa_text ip frac) + f) 0 (mk_scan 0 0 0 (-1) 0 true [])
    = scan_digits (mantissa_text ip frac ++ post) f
        (length (mantissa_text ip frac)) st /\
    scanned (ip ++ fraction_digits frac)
      (Z.of_nat (length (fraction_digits frac))) st /\
    (0 <=? sc_decimalDot st)
    = match frac with Some _ => true | None => false end /\
    Z.abs (sc_exponent st) <= Z.of_nat (sc_digits st).
Proof.
  intros ip frac post f (Hip & Hfp & Hlen & Hmark).
  set (st0 := mk_scan 0 0 0 (-1) 0 true []).
  pose proof (scan_all_scanned ip [] 0 st0 scanned_start Hip) as H1.
  cbn [app] in H1. change (sc_decimalDot st0 <? 0) with true in H1.
  cbv iota in H1.
  destruct frac as [[mark fp]|]; cbn [fraction_digits] in *.
  - (* with a decimal mark *)
    unfold mantissa_text.
    set (st1 := scan_all st0 ip) in *.
    set (st2 := mk_scan (sc_kigit st1) (sc_kigc st1) (sc_exponent st1)
                  (Z.of_nat (length ip)) (sc_digits st1)
                  (sc_zeroes st1) (sc_scratch st1)).
    exists (scan_all st2 fp).
    assert (Hd1 : sc_decimalDot st1 < 0)
      by (unfold st1; rewrite scan_all_dot; simpl; lia).
    assert (H2 : scanned ip 0 st2) by exact H1.
    pose proof (scan_all_scanned fp ip 0 st2 H2 Hfp) as H3.
    assert (Hd2 : sc_decimalDot st2 = Z.of_nat (length ip))
      by reflexivity.
    destruct (Z.ltb_spec (sc_decimalDot st2) 0) as [Hneg|_]; [lia|].
    rewrite Z.add_0_l in H3.
    assert (Hb1 : Z.abs (sc_exponent st1) <= Z.of_nat (sc_digits st1))
      by (apply scan_all_exponent; simpl; lia).
    split; [|split; [exact H3|split]].
    3:{ apply scan_all_exponent. exact Hb1. }
    + rewrite <- !app_assoc. cbn [app].
      rewrite length_app. cbn [length].
      assert (Hl : length (digit_bytes ip) = length ip)
        by (unfold digit_bytes; apply length_map).
      assert (Hl' : length (digit_bytes fp) = length fp)
        by (unfold digit_bytes; apply length_map).
      rewrite Hl, Hl'.
      replace (length ip + S (length fp) + f)%nat
        with (length ip + S (length fp + f))%nat by lia.
      pose proof (scan_digits_run ip [] (mark :: digit_bytes fp ++ post)
                    (S (length fp + f)) st0 Hip) as R1.
      cbn [app length Nat.add] in R1. rewrite R1. fold st1.
      pose proof (scan_digits_mark (digit_bytes ip) mark
                    (digit_bytes fp ++ post) (length fp + f) st1 Hmark Hd1)
        as R2.
      rewrite Hl in R2. rewrite R2. fold st2.
      pose proof (scan_digits_run fp (digit_bytes ip ++ [mark]) post f st2 Hfp)
        as R3.
      rewrite <- !app_assoc in R3. cbn [app] in R3.
      rewrite length_app, Hl in R3. cbn [length] in R3.
      replace (length ip + 1)%nat with (S (length ip)) in R3 by lia.
      rewrite R3. f_equal. lia.
    + rewrite scan_all_dot. rewrite Hd2.
      apply Z.leb_le. lia.
  - (* digits only *)
    unfold mantissa_text. rewrite !app_nil_r in *.
    exists (scan_all st0 ip).
    assert (Hl : length (digit_bytes ip) = length ip)
      by (unfold digit_bytes; apply length_map).
    split; [|split; [exact H1|split]].
    + rewrite Hl.
      pose proof (scan_digits_run ip [] post f st0 Hip) as R1.
      cbn [app length Nat.add] in R1. exact R1.
    + rewrite scan_all_dot. reflexivity.
    + apply scan_all_exponent. simpl. lia.
Qed.

Lemma pow10_cubed : forall n : nat, 10 ^ (3 * Z.of_nat n) = 1000 ^ Z.of_nat n.
Proof.
  intro n. rewrite Z.pow_mul_r by lia. reflexivity.
Qed.

(** The decimal built from the scan variables stands for the number
    scanned. *)
Lemma scanned_value : forall w k st ty,
  scanned w k st -> 0 <= k ->
  let scratch :=
    if negb (sc_kigc st =? 0)
    then sc_scratch st ++ [pad_kigit 3 (sc_kigc st) (sc_kigit st)]
    else sc_scratch st in
  kigits_ok scratch /\
  (value (mk_decimal ty (sc_exponent st) scratch)
   == sign_of ty * (inject_Z (number w) / inject_Z (10 ^ k)))%Q.
Proof.
  intros w k [kg kc ex dot dg zr scr] ty
    (Hdg & Hok & Hkc & Hkg & Hnum & Hex & Hz) Hk.
  cbn [sc_digits sc_scratch sc_kigc sc_kigit sc_exponent sc_zeroes] in *.
  assert (Hc : kc = 0 \/ kc = 1 \/ kc = 2) by lia.
  assert (HT : 0 < 10 ^ k) by (apply Z.pow_pos_nonneg; lia).
  pose proof (pow1000_pos (length scr)) as HP.
  destruct Hc as [E|[E|E]]; subst kc; cbn [Z.eqb negb]; cbv zeta.
  - change (10 ^ 0) with 1 in *.
    split; [exact Hok|].
    apply (value_from_Mint ty ex scr (3 * Z.of_nat (length scr)) k);
      try lia.
    rewrite pow10_cubed. replace (Mint scr) with (number w) by lia. ring.
  - change (10 ^ 1) with 10 in *.
    cbn [pad_kigit Z.ltb Z.compare Pos.compare Pos.compare_cont Z.add Pos.add Pos.succ].
    rewrite (kint_small (kg * 10)) by lia.
    rewrite (kint_small (kg * 10 * 10)) by lia.
    split.
    { apply Forall_app. split; [exact Hok|]. repeat constructor; lia. }
    apply (value_from_Mint ty ex _ (3 * Z.of_nat (length scr) + 1) k);
      try lia.
    rewrite Mint_app, length_app. cbn [Mint length].
    change (1000 ^ Z.of_nat 1) with 1000. change (1000 ^ Z.of_nat 0) with 1.
    rewrite Z.pow_add_r by lia. rewrite pow10_cubed.
    replace (Z.of_nat (length scr + 1)) with (Z.of_nat (length scr) + 1) by lia.
    rewrite Z.pow_add_r by lia.
    change (10 ^ 1) with 10. change (1000 ^ 1) with 1000.
    rewrite <- Hnum. ring.
  - change (10 ^ 2) with 100 in *.
    cbn [pad_kigit Z.ltb Z.compare Pos.compare Pos.compare_cont Z.add Pos.add Pos.succ].
    rewrite (kint_small (kg * 10)) by lia.
    split.
    { apply Forall_app. split; [exact Hok|]. repeat constructor; lia. }
    apply (value_from_Mint ty ex _ (3 * Z.of_nat (length scr) + 2) k);
      try lia.
    rewrite Mint_app, length_app. cbn [Mint length].
    change (1000 ^ Z.of_nat 1) with 1000. change (1000 ^ Z.of_nat 0) with 1.
    rewrite Z.pow_add_r by lia. rewrite pow10_cubed.
    replace (Z.of_nat (length scr + 1)) with (Z.of_nat (length scr) + 1) by lia.
    rewrite Z.pow_add_r by lia.
    change (10 ^ 2) with 100. change (1000 ^ 1) with 1000.
    rewrite <- Hnum. ring.
Qed.

Lemma mantissa_text_length : forall ip frac,
  length (mantissa_text ip frac)
  = (length ip
     + match frac with Some (_, fp) => S (length fp) | None => 0 end)%nat.
Proof.
  intros ip frac. unfold mantissa_text, digit_bytes.
  rewrite length_app, length_map.
  destruct frac as [[mark fp]|]; cbn [length]; [rewrite length_map|];
    reflexivity.
Qed.

Lemma mantissa_text_first : forall ip frac post,
  well_written ip frac ->
  let c := byte_at (mantissa_text ip frac ++ post) 0 in
  c <> 43 /\ c <> 45.
Proof.
  intros ip frac post (Hip & Hfp & Hlen & Hmark). unfold mantissa_text, byte_at.
  destruct ip as [|d r].
  - destruct frac as [[mark fp]|]; cbn [fraction_digits] in *.
    + cbn [digit_bytes map app nth]. destruct Hmark; subst mark; lia.
    + simpl in Hlen. lia.
  - inversion Hip as [|? ? Hd _]; subst. unfold digit in Hd.
    cbn [digit_bytes map app nth]. lia.
Qed.

Lemma parse_start : forall Settings prec ip frac post,
  well_written ip frac ->
  exists st,
    decimal_parse Settings
      (mk_parser (mantissa_text ip frac ++ post)
         (length (mantissa_text ip frac ++ post)) prec)
    = (let '(s, st') :=
         scan_digits (mantissa_text ip frac ++ post) (length post)
           (length (mantissa_text ip frac)) st in
       parse_tail Settings (mantissa_text ip frac ++ post)
         (length (mantissa_text ip frac ++ post)) ID_decimal s st') /\
    scanned (ip ++ fraction_digits frac)
      (Z.of_nat (length (fraction_digits frac))) st /\
    (0 <=? sc_decimalDot st)
    = match frac with Some _ => true | None => false end /\
    Z.abs (sc_exponent st) <= Z.of_nat (sc_digits st).
Proof.
  intros Settings prec ip frac post Hw.
  destruct (scan_mantissa ip frac post (length post) Hw)
    as (st & Hscan & Hst & Hdot & Hexp).
  exists st. split; [|split; [|split]; assumption].
  unfold decimal_parse. cbn [source p_length precedence].
  destruct (mantissa_text_first ip frac post Hw) as [H43 H45].
  cbv zeta in H43, H45.
  destruct (Z.eqb_spec (byte_at (mantissa_text ip frac ++ post) 0) 43);
    [contradiction|].
  destruct (Z.eqb_spec (byte_at (mantissa_text ip frac ++ post) 0) 45);
    [contradiction|].
  cbn [orb andb]. rewrite Nat.sub_0_r, length_app.
  rewrite Hscan. reflexivity.
Qed.

(** X20.  The parser reads what is written: a text made of digits, with
    or without a decimal mark (a dot or a comma) among them, is parsed in
    full into a positive decimal with kigits in 0..999 that stands for
    exactly the number written, provided the digits are no more than the
    precision allows. *)
Theorem parse_reads_mantissa : forall Settings prec ip frac,
  well_written ip frac ->
  (TooManyDigitsErrors Settings = true ->
   (length ip + length (fraction_digits frac) <= Precision Settings)%nat) ->
  ExponentSeparator Settings <> 0 ->
  let text := mantissa_text ip frac in
  exists d,
    decimal_parse Settings (mk_parser text (length text) prec)
    = Parsed (length text) d /\
    type d = ID_decimal /\ kigits_ok (kigs d) /\
    (value d
     == inject_Z (number (ip ++ fraction_digits frac))
        / inject_Z (10 ^ Z.of_nat (length (fraction_digits frac))))%Q.
Proof.
  intros Settings prec ip frac Hw Hmax Hsep text.
  destruct (parse_start Settings prec ip frac [] Hw) as (st & Hp & Hst & _).
  rewrite app_nil_r in Hp. fold text in Hp. rewrite Hp. clear Hp.
  cbn [length scan_digits].
  pose proof Hst as (Hdg & _).
  destruct Hw as (_ & _ & Hlen & _).
  unfold parse_tail. rewrite Hdg, length_app.
  destruct (Nat.eqb_spec (length ip + length (fraction_digits frac)) 0); [lia|].
  assert (Hcheck : TooManyDigitsErrors Settings
                   && (Precision Settings
                       <? length ip + length (fraction_digits frac))%nat
                   = false).
  { destruct (TooManyDigitsErrors Settings); [|reflexivity].
    cbn [andb]. apply Nat.ltb_ge. apply Hmax. reflexivity. }
  rewrite Hcheck.
  assert (Hend : byte_at text (length text) = 0)
    by (unfold byte_at; apply nth_overflow; lia).
  assert (Hcp : utf8_codepoint text (length text) = 0)
    by (unfold utf8_codepoint; rewrite Hend; reflexivity).
  rewrite Hend, Hcp.
  change (0 =? 101) with false. change (0 =? 69) with false. cbn [orb].
  destruct (Z.eqb_spec 0 (ExponentSeparator Settings)) as [E|_];
    [symmetry in E; contradiction|].
  destruct (scanned_value _ _ st ID_decimal Hst ltac:(lia)) as [Hok Hv].
  cbv zeta in Hok, Hv.
  eexists. split; [reflexivity|].
  cbn [type kigs]. split; [reflexivity|]. split; [exact Hok|].
  rewrite Hv. cbn [sign_of id_eqb]. ring.
Qed.

Lemma parse_reads_mantissa_witness :
  exists d,
    parse_text default_settings 0 "3,14159" = Parsed 7 d /\
    (value d == 314159 # 100000)%Q.
Proof.
  assert (Hw : well_written [3] (Some (44, [1; 4; 1; 5; 9]))).
  { unfold well_written. cbn [fraction_digits].
    split; [repeat (apply Forall_cons; [unfold digit; lia|]); apply Forall_nil|].
    split; [repeat (apply Forall_cons; [unfold digit; lia|]); apply Forall_nil|].
    split; [simpl; lia | right; reflexivity]. }
  destruct (parse_reads_mantissa default_settings 0 [3]
              (Some (44, [1; 4; 1; 5; 9])) Hw)
    as (d & Hp & _ & _ & Hv).
  - intros _. simpl. lia.
  - discriminate.
  - exists d. split; [exact Hp|]. rewrite Hv. reflexivity.
Defined.

(** X22.  With the setting that makes too many digits an error, a text
    with more digits than the precision allows is rejected with a
    mantissa error placed at the end of the mantissa; zeroes in front
    count as digits. *)
Theorem parse_rejects_too_many_digits : forall Settings prec ip frac,
  well_written ip frac ->
  TooManyDigitsErrors Settings = true ->
  (Precision Settings < length ip + length (fraction_digits frac))%nat ->
  let text := mantissa_text ip frac in
  decimal_parse Settings (mk_parser text (length text) prec)
  = Failed (mantissa_error (length text)).
Proof.
  intros Settings prec ip frac Hw Herr Hmax text.
  destruct (parse_start Settings prec ip frac [] Hw)
    as (st & Hp & Hst & Hdot & _).
  rewrite app_nil_r in Hp. fold text in Hp. rewrite Hp. clear Hp.
  cbn [length scan_digits].
  pose proof Hst as (Hdg & _).
  destruct Hw as (_ & _ & Hlen & _).
  unfold parse_tail. rewrite Hdg, length_app.
  destruct (Nat.eqb_spec (length ip + length (fraction_digits frac)) 0); [lia|].
  rewrite Herr. cbn [andb].
  destruct (Nat.ltb_spec (Precision Settings)
              (length ip + length (fraction_digits frac))); [|lia].
  rewrite Hdot. unfold text. rewrite mantissa_text_length.
  destruct frac as [[mark fp]|]; cbn [fraction_digits Z.b2z length];
    [change (Z.to_nat 1) with 1%nat | change (Z.to_nat 0) with 0%nat];
    match goal with
    | |- Failed (mantissa_error ?a) = Failed (mantissa_error ?b) =>
        replace a with b by lia
    end; reflexivity.
Qed.

Lemma parse_rejects_too_many_digits_witness :
  parse_text minimal_settings 0 "0001" = Failed (mantissa_error 4).
Proof.
  assert (Hw : well_written [0; 0; 0; 1] None).
  { unfold well_written. cbn [fraction_digits].
    split; [repeat (apply Forall_cons; [unfold digit; lia|]); apply Forall_nil|].
    split; [apply Forall_nil|].
    split; [simpl; lia | exact I]. }
  apply (parse_rejects_too_many_digits minimal_settings 0 [0; 0; 0; 1] None Hw).
  - reflexivity.
  - simpl. lia.
Defined.

Lemma atoi_digits_bytes : forall ds acc,
  Forall digit ds ->
  atoi_digits (digit_bytes ds) acc = fold_left (fun n d => n * 10 + d) ds acc.
Proof.
  induction ds as [|d r IH]; intros acc Hds; [reflexivity|].
  inversion Hds as [|? ? Hd Hr]; subst.
  cbn [digit_bytes map atoi_digits fold_left]. fold (digit_bytes r).
  rewrite (is_digit_byte d Hd). rewrite IH by exact Hr.
  f_equal. lia.
Qed.

Lemma number_nonneg : forall ds acc,
  Forall digit ds -> 0 <= acc ->
  0 <= fold_left (fun n d => n * 10 + d) ds acc.
Proof.
  induction ds as [|d r IH]; intros acc Hds Hacc; [exact Hacc|].
  inversion Hds as [|? ? Hd Hr]; subst. unfold digit in Hd.
  cbn [fold_left]. apply IH; [exact Hr | lia].
Qed.

Lemma atoi_exponent : forall sign ed,
  sign = [] \/ sign = [43] \/ sign = [45] ->
  Forall digit ed -> ed <> [] ->
  atoi_number (sign ++ digit_bytes ed) = exponent_value sign ed.
Proof.
  intros sign ed Hs Hed Hne.
  destruct Hs as [E|[E|E]]; subst sign; cbn [app exponent_value].
  - destruct ed as [|d r]; [congruence|].
    inversion Hed as [|? ? Hd Hr]; subst. unfold digit in Hd.
    change (digit_bytes (d :: r)) with ((48 + d) :: digit_bytes r).
    cbn [atoi_number].
    assert (Hsp : is_space (48 + d) = false).
    { unfold is_space.
      destruct (Z.eqb_spec (48 + d) 32); [lia|].
      destruct (Z.leb_spec (48 + d) 13); [lia|].
      rewrite andb_false_r. reflexivity. }
    rewrite Hsp.
    destruct (Z.eqb_spec (48 + d) 45); [lia|].
    destruct (Z.eqb_spec (48 + d) 43); [lia|].
    change ((48 + d) :: digit_bytes r) with (digit_bytes (d :: r)).
    apply atoi_digits_bytes. exact Hed.
  - cbn [atoi_number]. change (is_space 43) with false. cbn [Z.eqb Pos.eqb].
    apply atoi_digits_bytes. exact Hed.
  - cbn [atoi_number]. change (is_space 45) with false. cbn [Z.eqb Pos.eqb].
    f_equal. apply atoi_digits_bytes. exact Hed.
Qed.

Lemma exponent_value_bound : forall sign ed,
  Forall digit ed -> Z.abs (exponent_value sign ed) = number ed.
Proof.
  intros sign ed Hed.
  pose proof (number_nonneg ed 0 Hed ltac:(lia)) as Hn. fold (number ed) in Hn.
  unfold exponent_value.
  destruct sign as [|c r]; [lia|].
  destruct (Z.eq_dec c 45) as [->|Hc]; [lia|].
  assert (E : match c with 45 => - number ed | _ => number ed end = number ed).
  { destruct c as [|p|p]; try reflexivity.
    repeat (destruct p as [p|p|]; try reflexivity). congruence. }
  rewrite E. lia.
Qed.

Lemma scan_exponent_run : forall ds pre f,
  Forall digit ds ->
  scan_exponent (pre ++ digit_bytes ds) (length ds + f) (length pre)
  = (length pre + length ds)%nat.
Proof.
  induction ds as [|d r IH]; intros pre f Hds.
  - cbn [length Nat.add digit_bytes map]. rewrite app_nil_r, Nat.add_0_r.
    destruct f as [|f]; [reflexivity|]. cbn [scan_exponent].
    unfold byte_at. rewrite nth_overflow by lia. reflexivity.
  - inversion Hds as [|? ? Hd Hr]; subst.
    change (digit_bytes (d :: r)) with ((48 + d) :: digit_bytes r).
    cbn [length Nat.add scan_exponent].
    assert (Hb : byte_at (pre ++ (48 + d) :: digit_bytes r) (length pre)
                 = 48 + d).
    { unfold byte_at. rewrite app_nth2 by lia. rewrite Nat.sub_diag.
      reflexivity. }
    rewrite Hb, (is_digit_byte d Hd).
    specialize (IH (pre ++ [48 + d]) f Hr).
    rewrite <- app_assoc in IH. cbn [app] in IH.
    rewrite length_app in IH. cbn [length] in IH.
    replace (length pre + 1)%nat with (S (length pre)) in IH by lia.
    rewrite IH. lia.
Qed.

Lemma value_exponent_shift : forall ty e x ks,
  (value (mk_decimal ty (e + x) ks)
   == value (mk_decimal ty e ks) * inject_Z 10 ^ x)%Q.
Proof.
  intros ty e x ks. unfold value. cbn [type exponent kigs].
  rewrite pow10_add. ring.
Qed.

(** X21.  An exponent is read as written: when the mantissa is followed
    by the letter E or e, an optional sign and digits, the text is parsed
    in full and the decimal stands for the number of the mantissa times
    ten to the exponent.  The exponent is an [int], from [atoi] and after
    the sum with the exponent of the mantissa: the number written as
    exponent and the number of digits of the mantissa add up to less than
    2^31. *)
Theorem parse_reads_exponent : forall Settings prec ip frac letter sign ed,
  well_written ip frac ->
  (TooManyDigitsErrors Settings = true ->
   (length ip + length (fraction_digits frac) <= Precision Settings)%nat) ->
  letter = 69 \/ letter = 101 ->
  sign = [] \/ sign = [43] \/ sign = [45] ->
  Forall digit ed -> ed <> [] ->
  Z.of_nat (length ip + length (fraction_digits frac)) + number ed < 2 ^ 31 ->
  let text := mantissa_text ip frac ++ exponent_text letter sign ed in
  exists d,
    decimal_parse Settings (mk_parser text (length text) prec)
    = Parsed (length text) d /\
    type d = ID_decimal /\ kigits_ok (kigs d) /\
    (value d
     == inject_Z (number (ip ++ fraction_digits frac))
        / inject_Z (10 ^ Z.of_nat (length (fraction_digits frac)))
        * inject_Z 10 ^ exponent_value sign ed)%Q.
Proof.
  intros Settings prec ip frac letter sign ed Hw Hmax Hletter Hsign Hed Hne
    Hint text.
  destruct (parse_start Settings prec ip frac (exponent_text letter sign ed) Hw)
    as (st & Hp & Hst & _ & Hexp).
  fold text in Hp. rewrite Hp. clear Hp.
  set (m := mantissa_text ip frac) in *.
  set (s := length m).
  assert (Htext0 : text = m ++ exponent_text letter sign ed) by reflexivity.
  clearbody text.
  assert (Hb0 : byte_at text s = letter).
  { rewrite Htext0. unfold byte_at, exponent_text.
    rewrite app_nth2 by (unfold s; lia).
    unfold s. rewrite Nat.sub_diag. reflexivity. }
  assert (Hnd : is_digit letter = false)
    by (destruct Hletter; subst letter; reflexivity).
  rewrite scan_digits_stop
    by (right; rewrite Hb0; split;
        [exact Hnd | right; destruct Hletter; subst letter; lia]).
  pose proof Hst as (Hdg & _).
  destruct Hw as (_ & _ & Hlen & _).
  unfold parse_tail. rewrite Hdg, length_app.
  destruct (Nat.eqb_spec (length ip + length (fraction_digits frac)) 0); [lia|].
  assert (Hcheck : TooManyDigitsErrors Settings
                   && (Precision Settings
                       <? length ip + length (fraction_digits frac))%nat
                   = false).
  { destruct (TooManyDigitsErrors Settings); [|reflexivity].
    cbn [andb]. apply Nat.ltb_ge. apply Hmax. reflexivity. }
  rewrite Hcheck. fold s. rewrite Hb0.
  assert (Hcond : (letter =? 101) || (letter =? 69)
                  || (utf8_codepoint text s =? ExponentSeparator Settings)
                  = true)
    by (destruct Hletter; subst letter; reflexivity).
  rewrite Hcond.
  assert (Hnext : utf8_next text s = S s).
  { unfold utf8_next. rewrite Hb0.
    destruct Hletter; subst letter; cbn; lia. }
  rewrite Hnext.
  assert (Htext : text = (m ++ letter :: sign) ++ digit_bytes ed).
  { rewrite Htext0. unfold exponent_text. rewrite <- app_assoc. reflexivity. }
  assert (Hpre : length (m ++ letter :: sign) = (S s + length sign)%nat).
  { rewrite length_app. cbn [length]. fold s. lia. }
  assert (Hstart :
    (if (byte_at text (S s) =? 43) || (byte_at text (S s) =? 45)
     then S (S s) else S s) = (S s + length sign)%nat).
  { destruct Hsign as [E|[E|E]]; subst sign.
    - destruct ed as [|d r]; [congruence|].
      pose proof (Forall_inv Hed) as Hd. unfold digit in Hd.
      assert (Hc : byte_at text (S s) = 48 + d).
      { rewrite Htext0. unfold byte_at, exponent_text.
        rewrite app_nth2 by (fold s; lia).
        fold s. replace (S s - s)%nat with 1%nat by lia. reflexivity. }
      rewrite Hc.
      destruct (Z.eqb_spec (48 + d) 43); [lia|].
      destruct (Z.eqb_spec (48 + d) 45); [lia|].
      cbn [orb length]. lia.
    - assert (Hc : byte_at text (S s) = 43).
      { rewrite Htext0. unfold byte_at, exponent_text.
        rewrite app_nth2 by (fold s; lia).
        fold s. replace (S s - s)%nat with 1%nat by lia. reflexivity. }
      rewrite Hc. cbn [Z.eqb Pos.eqb orb length]. lia.
    - assert (Hc : byte_at text (S s) = 45).
      { rewrite Htext0. unfold byte_at, exponent_text.
        rewrite app_nth2 by (fold s; lia).
        fold s. replace (S s - s)%nat with 1%nat by lia. reflexivity. }
      rewrite Hc. cbn [Z.eqb Pos.eqb orb length]. lia. }
  rewrite Hstart.
  assert (Hlt : length text = (S s + length sign + length ed)%nat).
  { rewrite Htext, length_app, Hpre. unfold digit_bytes. rewrite length_map.
    reflexivity. }
  assert (Hrun : scan_exponent text (length text - (S s + length sign))
                   (S s + length sign)
                 = length text).
  { replace (length text - (S s + length sign))%nat
      with (length ed + 0)%nat by lia.
    rewrite Htext at 1. rewrite <- Hpre.
    rewrite scan_exponent_run by exact Hed. rewrite Hpre. lia. }
  rewrite Hrun.
  destruct (Nat.eqb_spec (length text) (S s + length sign)) as [E|_].
  { destruct ed; [congruence|]. cbn [length] in Hlt. lia. }
  assert (Hskip : skipn (S s) text = sign ++ digit_bytes ed).
  { rewrite Htext0. unfold exponent_text.
    change (letter :: sign ++ digit_bytes ed)
      with ([letter] ++ (sign ++ digit_bytes ed)).
    rewrite app_assoc.
    rewrite skipn_app.
    assert (Hl1 : length (m ++ [letter]) = S s)
      by (rewrite length_app; cbn [length]; fold s; lia).
    rewrite skipn_all2 by lia. rewrite Hl1, Nat.sub_diag. reflexivity. }
  unfold atoi. rewrite Hskip, (atoi_exponent sign ed Hsign Hed Hne).
  pose proof (exponent_value_bound sign ed Hed) as Hev.
  pose proof (number_nonneg ed 0 Hed ltac:(lia)) as Hn0.
  fold (number ed) in Hn0.
  rewrite Hdg, length_app in Hexp.
  rewrite (cint_small (exponent_value sign ed)) by lia.
  rewrite cint_small by lia.
  destruct (scanned_value _ _ st ID_decimal Hst ltac:(lia)) as [Hok Hv].
  cbv zeta in Hok, Hv.
  eexists. split; [reflexivity|].
  cbn [type kigs]. split; [reflexivity|]. split; [exact Hok|].
  rewrite value_exponent_shift, Hv. cbn [sign_of id_eqb]. ring.
Qed.

Lemma parse_reads_exponent_witness :
  exists d,
    parse_text default_settings 0 "1.5E-3" = Parsed 6 d /\
    (value d == 15 # 10000)%Q.
Proof.
  assert (Hw : well_written [1] (Some (46, [5]))).
  { unfold well_written. cbn [fraction_digits].
    split; [repeat (apply Forall_cons; [unfold digit; lia|]); apply Forall_nil|].
    split; [repeat (apply Forall_cons; [unfold digit; lia|]); apply Forall_nil|].
    split; [simpl; lia | left; reflexivity]. }
  destruct (parse_reads_exponent default_settings 0 [1] (Some (46, [5]))
              69 [45] [3] Hw)
    as (d & Hp & _ & _ & Hv).
  - intros _. simpl. lia.
  - left. reflexivity.
  - right. right. reflexivity.
  - repeat (apply Forall_cons; [unfold digit; lia|]). apply Forall_nil.
  - discriminate.
  - vm_compute. reflexivity.
  - exists d. split; [exact Hp|]. rewrite Hv. reflexivity.
Defined.


(** ** Loops, continued *)

Section MoreLoopProperties.

Variable heap : Type.
Variable evaluate : object -> loop.runtime heap -> result * loop.runtime heap.
Variable interrupted : loop.runtime heap -> bool.
Variable as_truth : object -> Z.
Variable alg_add : object -> object -> object.
Variable alg_lt : object -> object -> object.
Variable alg_gt : object -> object -> object.

Abbreviation runtime := (loop.runtime heap).
Abbreviation counted_fast := (loop.counted_fast heap evaluate interrupted).
Abbreviation StartStep_evaluate :=
  (loop.StartStep_evaluate heap evaluate interrupted as_truth alg_add alg_lt alg_gt).
Abbreviation ForNext_evaluate :=
  (loop.ForNext_evaluate heap evaluate interrupted as_truth alg_add alg_lt alg_gt).
Abbreviation after_body := (loop_spec.after_body heap evaluate).
Abbreviation after_step := (loop_spec.after_step heap evaluate).
Abbreviation repeated := (loop_spec.repeated heap).
Abbreviation runs_counting_up :=
  (loop_steps.runs_counting_up heap evaluate interrupted).
Abbreviation named_round := (loop_steps.named_round heap evaluate).
Abbreviation named_rounds := (loop_steps.named_rounds heap evaluate).
Abbreviation runs_clean_named :=
  (loop_steps.runs_clean_named heap evaluate interrupted).

Lemma runs_counting_up_tail : forall body k n rt,
  runs_counting_up body k (S n) rt ->
  runs_counting_up body k n (after_step body rt).
Proof.
  intros body k n rt H i Hi. apply (H (S i)). lia.
Qed.

Lemma hd_error_pop : forall (rt : runtime) o,
  hd_error (loop.stack heap rt) = Some o ->
  exists rt', loop.pop heap rt = Some (o, rt').
Proof.
  intros rt o H. unfold loop.pop.
  destruct (loop.stack heap rt) as [|o' tl]; simpl in H; [discriminate|].
  injection H as ->. eexists; reflexivity.
Qed.

Lemma counted_fast_step_runs :
  forall body k last, 0 < k ->
  forall n cnt incr rt fuel,
    (0 < n)%nat -> 0 <= cnt ->
    cnt + k * Z.of_nat n < 2 ^ 64 ->
    last < cnt + k * Z.of_nat n ->
    (cnt + k * (Z.of_nat n - 1) <= last \/ n = 1%nat) ->
    runs_counting_up body k n rt ->
    (n < fuel)%nat ->
    counted_fast fuel body true false incr cnt last rt
    = Some (loop.Returned heap OK (repeated (after_step body) n rt)).
Proof.
  intros body k last Hk n; induction n as [|n IH];
    intros cnt incr rt fuel Hn Hcnt Hmax Hhi Hlo Hclean Hfuel; [lia|].
  destruct fuel as [|fuel]; [lia|].
  unfold loop.counted_fast. cbn [loop.while_loop loop.f_rt].
  destruct (Hclean 0%nat ltac:(lia)) as (Hpoll & Hok & Htop).
  cbn [loop_spec.repeated] in Hpoll, Hok, Htop. rewrite Hpoll.
  unfold loop.counted_fast_round. cbn [loop.f_rt loop.f_cnt loop.f_incr].
  destruct (hd_error_pop _ _ Htop) as [rt2 Hpop].
  assert (Hafter : after_step body rt = rt2).
  { unfold loop_spec.after_step. rewrite Hpop. reflexivity. }
  unfold loop_spec.after_body in Hpop.
  destruct (evaluate body rt) as [r rt1] eqn:Hev. cbn [fst snd] in *. subst r.
  cbn [result_eqb negb]. rewrite Hpop.
  cbn [object_type id_eqb]. unfold loop.fast_next.
  assert (Hk64 : 0 <= k < 2 ^ 64) by nia.
  rewrite (ularge_small k) by exact Hk64.
  rewrite (ularge_small (cnt + k)) by nia.
  cbn [loop_spec.repeated]. rewrite Hafter.
  destruct (Z.ltb_spec last (cnt + k)) as [Hend|Hmore].
  - assert (n = 0%nat) by nia. subst n. reflexivity.
  - assert (Hn' : (0 < n)%nat) by nia.
    apply (IH (cnt + k) k rt2 fuel Hn');
      [ lia | nia | nia | left; nia
      | rewrite <- Hafter; apply runs_counting_up_tail, Hclean | lia ].
Qed.

(** X23.  START ... STEP with a positive integer step: with integer
    bounds start and finish and a body that leaves the step k on the
    stack, the body runs 1 + max(0, finish - start) / k times, the step
    being popped after each run: once for each counter value start,
    start + k, ... up to finish, and once even when start is above
    finish. *)
Theorem StartStep_counts_up :
  forall body k s f tail rt fuel,
    loop.stack heap rt
    = integer_object ID_integer f :: integer_object ID_integer s :: tail ->
    0 < k -> 0 <= s -> 0 <= f -> s + k < 2 ^ 64 -> f + k < 2 ^ 64 ->
    let n := Z.to_nat (1 + Z.max 0 (f - s) / k) in
    runs_counting_up body k n (loop.drop heap 2 rt) ->
    (n < fuel)%nat ->
    StartStep_evaluate fuel body rt
    = Some (OK, repeated (after_step body) n (loop.drop heap 2 rt)).
Proof.
  intros body k s f tail rt fuel Hst Hk Hs Hf Hsk Hfk n Hclean Hfuel.
  assert (Hq : 0 <= Z.max 0 (f - s) / k) by (apply Z.div_pos; lia).
  assert (Hdiv := Z.div_mod (Z.max 0 (f - s)) k ltac:(lia)).
  assert (Hmod := Z.mod_pos_bound (Z.max 0 (f - s)) k Hk).
  set (q := Z.max 0 (f - s) / k) in *.
  assert (Hn : Z.of_nat n = 1 + q) by (unfold n; lia).
  unfold loop.StartStep_evaluate, loop.counted. rewrite Hst.
  cbn [as_integer_value]. rewrite !ularge_small by lia.
  rewrite (counted_fast_step_runs body k f Hk n s 1 (loop.drop heap 2 rt) fuel);
    try assumption; try reflexivity; try nia.
Qed.

Lemma runs_clean_named_tail : forall body n cnt rt,
  runs_clean_named body (S n) cnt rt ->
  runs_clean_named body n (cnt + 1) (named_round body cnt rt).
Proof.
  intros body n cnt rt H i Hi.
  specialize (H (S i) ltac:(lia)). cbn [loop_steps.named_rounds] in H.
  replace (cnt + 1 + Z.of_nat i) with (cnt + Z.of_nat (S i)) by lia.
  exact H.
Qed.

Lemma counted_fast_named_runs :
  forall body last n cnt rt fuel,
    (0 < n)%nat -> 0 <= cnt < 2 ^ 64 - 1 -> last < 2 ^ 64 - 1 ->
    cnt + Z.of_nat n = last + 1 \/ (n = 1%nat /\ last < cnt) ->
    runs_clean_named body n cnt rt ->
    (n < fuel)%nat ->
    counted_fast fuel body false true 1 cnt last rt
    = Some (loop.Returned heap OK (named_rounds body n cnt rt)).
Proof.
  intros body last n; induction n as [|n IH];
    intros cnt rt fuel Hn Hcnt Hmax Hlast Hclean Hfuel; [lia|].
  destruct fuel as [|fuel]; [lia|].
  unfold loop.counted_fast. cbn [loop.while_loop loop.f_rt].
  destruct (Hclean 0%nat ltac:(lia)) as [Hpoll Hok].
  cbn [loop_steps.named_rounds] in Hpoll, Hok. rewrite Hpoll.
  rewrite Z.add_0_r in Hok.
  unfold loop.counted_fast_round. cbn [loop.f_rt loop.f_cnt loop.f_incr].
  cbn [loop_steps.named_rounds]. unfold loop_steps.named_round at 1.
  destruct (evaluate body (loop.set_local0 heap (integer_make cnt) rt))
    as [r rt1] eqn:Hev.
  cbn [fst snd] in *. subst r.
  cbn [result_eqb negb]. unfold loop.fast_next.
  rewrite (ularge_small (cnt + 1)) by lia.
  destruct (Z.ltb_spec last (cnt + 1)) as [Hgt|Hle].
  - assert (n = 0%nat) by lia. subst n. reflexivity.
  - assert (Hn' : (0 < n)%nat) by lia.
    specialize (IH (cnt + 1) rt1 fuel Hn' ltac:(lia) Hmax ltac:(left; lia)).
    apply IH; [|lia].
    apply runs_clean_named_tail in Hclean.
    unfold loop_steps.named_round in Hclean. rewrite Hev in Hclean.
    exact Hclean.
Qed.

(** X24.  FOR ... NEXT binds its counter, for integer bounds start and
    finish below 2^64 - 1 (so that the counter, a 64-bit unsigned integer,
    does not wrap) and a body that runs without error or interruption:
    the start value becomes the one local variable of the loop, start and
    finish are popped, and before each run of the body local 0 is set to
    the counter, which goes from start to finish by 1; when the loop ends
    the local frame is removed again.  The body runs once per integer
    from start to finish, and once when start is above finish. *)
Theorem ForNext_binds_counter :
  forall body s f tail rt fuel,
    loop.stack heap rt
    = integer_object ID_integer f :: integer_object ID_integer s :: tail ->
    0 <= s < 2 ^ 64 - 1 -> 0 <= f < 2 ^ 64 - 1 ->
    let n := Z.to_nat (Z.max 1 (f - s + 1)) in
    let rt0 :=
      loop.mk_runtime heap tail
        (integer_object ID_integer s :: loop.locals heap rt)
        (loop.rest heap rt) in
    runs_clean_named body n s rt0 ->
    (n < fuel)%nat ->
    ForNext_evaluate fuel body rt
    = Some (OK, loop.unlocals1 heap (named_rounds body n s rt0)).
Proof.
  intros body s f tail rt fuel Hst Hs Hf n rt0 Hclean Hfuel.
  unfold loop.ForNext_evaluate, loop.ForNext_counted. rewrite Hst.
  unfold loop.push, loop.enter_locals1. cbn [loop.stack loop.locals loop.rest].
  unfold loop.counted. rewrite Hst. cbn [loop.stack].
  cbn [as_integer_value]. rewrite !ularge_small by lia.
  unfold loop.drop. cbn [loop.stack loop.locals loop.rest skipn].
  fold rt0.
  rewrite (counted_fast_named_runs body f n s rt0 fuel);
    try assumption; try reflexivity; subst n; lia.
Qed.

End MoreLoopProperties.

Lemma StartStep_counts_up_witness :
  loop.StartStep_evaluate nat push_three never int_value int_add int_lt int_gt
    5 a_body (loop.mk_runtime nat (integers [10; 1]) [] 0%nat)
  = Some (OK, loop.mk_runtime nat [] [] 4%nat).
Proof.
  rewrite (StartStep_counts_up nat push_three never int_value int_add int_lt
             int_gt a_body 3 1 10 []
             (loop.mk_runtime nat (integers [10; 1]) [] 0%nat) 5%nat eq_refl);
    try lia.
  - reflexivity.
  - intros i Hi. vm_compute in Hi.
    do 4 (destruct i as [|i]; [repeat split; reflexivity|]). lia.
  - vm_compute. lia.
Defined.

Lemma ForNext_binds_counter_witness :
  loop.ForNext_evaluate nat recall_counter never int_value int_add int_lt int_gt
    4 a_body (loop.mk_runtime nat (integers [5; 3; 7]) [] 0%nat)
  = Some (OK, loop.mk_runtime nat (integers [5; 4; 3; 7]) [] 3%nat).
Proof.
  rewrite (ForNext_binds_counter nat recall_counter never int_value int_add
             int_lt int_gt a_body 3 5 (integers [7])
             (loop.mk_runtime nat (integers [5; 3; 7]) [] 0%nat) 4%nat eq_refl);
    try lia.
  - reflexivity.
  - intros i Hi. vm_compute in Hi.
    do 3 (destruct i as [|i]; [split; reflexivity|]). lia.
Defined.


(** ** Addition is exact without carry *)

Lemma hmul_of_cases : forall yshift : nat,
  let mod3 := Z.of_nat (yshift mod 3) in
  (mod3 = 0 /\ decimal.hmul_of mod3 = 1) \/
  (mod3 = 1 /\ decimal.hmul_of mod3 = 10) \/
  (mod3 = 2 /\ decimal.hmul_of mod3 = 100).
Proof.
  intro yshift. cbv zeta.
  pose proof (Nat.mod_upper_bound yshift 3 ltac:(lia)) as H.
  destruct (yshift mod 3)%nat as [|[|[|n]]]; [| | |lia]; cbn; auto.
Qed.

Ltac kint_simpl :=
  repeat
    (match goal with
     | |- context [kint ?z] => rewrite (kint_small z) by lia
     end).

(** The loop body is the column plus the carry. *)
Lemma add_kigit_column : forall xb yb kshift mod3 hmul lmul ko carry,
  kigits_ok xb -> kigits_ok yb ->
  (mod3 = 0 /\ hmul = 1 /\ lmul = 1000) \/
  (mod3 = 1 /\ hmul = 10 /\ lmul = 100) \/
  (mod3 = 2 /\ hmul = 100 /\ lmul = 10) ->
  0 <= carry <= 1 ->
  decimal.add_kigit xb yb kshift mod3 hmul lmul ko carry
  = add_column xb yb kshift hmul lmul ko + carry /\
  0 <= add_column xb yb kshift hmul lmul ko <= 1998.
Proof.
  intros xb yb kshift mod3 hmul lmul ko carry Hx Hy Hm Hc.
  unfold decimal.add_kigit, add_column, kigit.
  pose proof (kigit_ok xb ko Hx) as Hxk. unfold kigit in Hxk.
  pose proof (kigit_ok yb (ko - kshift) Hy) as Hyk. unfold kigit in Hyk.
  pose proof (kigit_ok yb (ko - kshift - 1) Hy) as Hyl. unfold kigit in Hyl.
  assert (Hxk' : (if (ko <? length xb)%nat then nth ko xb 0 else 0)
                 = nth ko xb 0).
  { destruct (Nat.ltb_spec ko (length xb)); [reflexivity|].
    rewrite nth_overflow by assumption. reflexivity. }
  assert (Hyk' : (if (ko - kshift <? length yb)%nat
                  then nth (ko - kshift) yb 0 else 0)
                 = nth (ko - kshift) yb 0).
  { destruct (Nat.ltb_spec (ko - kshift) (length yb)); [reflexivity|].
    rewrite nth_overflow by assumption. reflexivity. }
  rewrite Hxk', Hyk'.
  set (xk := nth ko xb 0) in *. set (yk := nth (ko - kshift) yb 0) in *.
  set (yl := nth (ko - kshift - 1) yb 0) in *.
  destruct (Nat.leb_spec kshift ko) as [Hle|Hgt].
  - destruct (Nat.ltb_spec kshift ko) as [Hlt|Hge].
    + (* a kigit of y and the low digits of the one before *)
      destruct (Nat.ltb_spec (ko - kshift - 1) (length yb)) as [Hin|Hout].
      * destruct Hm as [(-> & -> & ->)|[(-> & -> & ->)|(-> & -> & ->)]];
          cbn [Z.eqb negb andb].
        -- rewrite !Z.div_1_r, !Z.mod_1_r.
           kint_simpl. lia.
        -- assert (0 <= yk / 10 <= 99) by (Z.to_euclidean_division_equations; lia).
           assert (0 <= yl mod 10 <= 9) by (Z.to_euclidean_division_equations; lia).
           kint_simpl. lia.
        -- assert (0 <= yk / 100 <= 9) by (Z.to_euclidean_division_equations; lia).
           assert (0 <= yl mod 100 <= 99) by (Z.to_euclidean_division_equations; lia).
           kint_simpl. lia.
      * assert (Hz : yl = 0) by (unfold yl; apply nth_overflow; lia).
        rewrite Hz, Z.mod_0_l
          by (destruct Hm as [(_ & -> & _)|[(_ & -> & _)|(_ & -> & _)]]; lia).
        rewrite andb_false_r. cbn [andb].
        assert (0 <= yk / hmul <= 999)
          by (destruct Hm as [(_ & -> & _)|[(_ & -> & _)|(_ & -> & _)]];
              Z.to_euclidean_division_equations; lia).
        kint_simpl. lia.
    + rewrite andb_false_r. cbn [andb].
      assert (0 <= yk / hmul <= 999)
        by (destruct Hm as [(_ & -> & _)|[(_ & -> & _)|(_ & -> & _)]];
            Z.to_euclidean_division_equations; lia).
      kint_simpl. lia.
  - destruct (Nat.ltb_spec kshift ko); [lia|].
    kint_simpl. lia.
Qed.

Lemma add_loop_horner : forall xb yb kshift mod3 hmul lmul,
  kigits_ok xb -> kigits_ok yb ->
  (mod3 = 0 /\ hmul = 1 /\ lmul = 1000) \/
  (mod3 = 1 /\ hmul = 10 /\ lmul = 100) \/
  (mod3 = 2 /\ hmul = 100 /\ lmul = 10) ->
  forall ko rb carry,
    kigits_ok rb -> 0 <= carry <= 1 ->
    exists rb' c',
      decimal.add_loop xb yb kshift mod3 hmul lmul ko rb carry = (rb', c') /\
      kigits_ok rb' /\ length rb' = (ko + length rb)%nat /\ 0 <= c' <= 1 /\
      c' * 1000 ^ Z.of_nat (length rb') + Mint rb'
      = Mint rb
        + 1000 ^ Z.of_nat (length rb)
          * (carry + horner (add_column xb yb kshift hmul lmul) ko).
Proof.
  intros xb yb kshift mod3 hmul lmul Hx Hy Hm ko.
  induction ko as [|ko IH]; intros rb carry Hrb Hc.
  - exists rb, carry. cbn [decimal.add_loop horner Nat.add].
    repeat split; try assumption; try lia.
  - cbn [decimal.add_loop].
    destruct (add_kigit_column xb yb kshift mod3 hmul lmul ko carry Hx Hy Hm Hc)
      as [Hk Hcol].
    rewrite Hk.
    set (col := add_column xb yb kshift hmul lmul ko) in *.
    assert (Hd : 0 <= (col + carry) mod 1000 < 1000)
      by (apply Z.mod_pos_bound; lia).
    assert (Hq : 0 <= (col + carry) / 1000 <= 1)
      by (Z.to_euclidean_division_equations; lia).
    destruct (IH ((col + carry) mod 1000 :: rb) ((col + carry) / 1000))
      as (rb' & c' & Hloop & Hok & Hlen & Hc' & Hsum).
    { constructor; assumption. }
    { exact Hq. }
    exists rb', c'. rewrite Hloop.
    split; [reflexivity|]. split; [exact Hok|].
    split; [rewrite Hlen; cbn [length]; lia|]. split; [exact Hc'|].
    rewrite Hsum. cbn [Mint length horner]. fold col.
    rewrite pow1000_S.
    pose proof (Z.div_mod (col + carry) 1000 ltac:(lia)) as Hdm.
    set (P := 1000 ^ Z.of_nat (length rb)) in *.
    set (q := (col + carry) / 1000) in *. set (d := (col + carry) mod 1000) in *.
    set (S0 := horner (add_column xb yb kshift hmul lmul) ko) in *.
    replace (col) with (1000 * q + d - carry) by lia. ring.
Qed.

Lemma horner_ext : forall f g n,
  (forall i, (i < n)%nat -> f i = g i) -> horner f n = horner g n.
Proof.
  intros f g n; induction n as [|n IH]; intro H; [reflexivity|].
  cbn [horner]. rewrite IH by (intros i Hi; apply H; lia).
  rewrite (H n) by lia. reflexivity.
Qed.

Lemma horner_add : forall f g n,
  horner (fun i => f i + g i) n = horner f n + horner g n.
Proof.
  intros f g n; induction n as [|n IH]; [reflexivity|].
  cbn [horner]. rewrite IH. ring.
Qed.

Lemma horner_zero : forall f n,
  (forall i, (i < n)%nat -> f i = 0) -> horner f n = 0.
Proof.
  intros f n; induction n as [|n IH]; intro H; [reflexivity|].
  cbn [horner]. rewrite IH by (intros i Hi; apply H; lia).
  rewrite (H n) by lia. reflexivity.
Qed.

Lemma horner_nth : forall l,
  horner (fun i => nth i l 0) (length l) = Mint l.
Proof.
  induction l as [|a l' IH] using rev_ind; [reflexivity|].
  rewrite length_app. cbn [length]. rewrite Nat.add_1_r. cbn [horner].
  rewrite (horner_ext _ (fun i => nth i l' 0))
    by (intros i Hi; apply app_nth1; exact Hi).
  rewrite IH, Mint_app. cbn [Mint length].
  rewrite app_nth2 by lia. rewrite Nat.sub_diag. cbn [nth].
  change (1000 ^ Z.of_nat 1) with 1000. change (1000 ^ Z.of_nat 0) with 1.
  ring.
Qed.

Lemma horner_nth_pad : forall l d,
  horner (fun i => nth i l 0) (length l + d)
  = Mint l * 1000 ^ Z.of_nat d.
Proof.
  intros l d; induction d as [|d IH].
  - rewrite Nat.add_0_r, horner_nth. change (1000 ^ Z.of_nat 0) with 1. ring.
  - rewrite Nat.add_succ_r. cbn [horner]. rewrite IH.
    rewrite nth_overflow by lia. rewrite pow1000_S. ring.
Qed.

Lemma horner_shift : forall g kshift m,
  horner (fun i => if (kshift <=? i)%nat then g (i - kshift)%nat else 0)
    (kshift + m)
  = horner g m.
Proof.
  intros g kshift m; induction m as [|m IH].
  - rewrite Nat.add_0_r. apply horner_zero.
    intros i Hi. destruct (Nat.leb_spec kshift i); [lia | reflexivity].
  - rewrite Nat.add_succ_r. cbn [horner]. rewrite IH.
    destruct (Nat.leb_spec kshift (kshift + m)); [|lia].
    replace (kshift + m - kshift)%nat with m by lia. reflexivity.
Qed.

(** The digits of y shifted right by the digits that [hmul] stands for:
    kigit [j] takes the high digits of kigit [j] of y and the low digits of
    the kigit before. *)
Lemma horner_digit_shift : forall yb hmul lmul m,
  (hmul = 1 /\ lmul = 1000) \/ (hmul = 10 /\ lmul = 100) \/
  (hmul = 100 /\ lmul = 10) ->
  hmul
  * horner (fun j => nth j yb 0 / hmul
                     + (if (0 <? j)%nat
                        then nth (j - 1) yb 0 mod hmul * lmul else 0)) m
  = horner (fun j => nth j yb 0) m
    - (if (0 <? m)%nat then nth (m - 1) yb 0 mod hmul else 0).
Proof.
  intros yb hmul lmul m Hm; induction m as [|m IH]; [cbn; lia|].
  cbn [horner]. rewrite Z.mul_add_distr_l, Z.mul_assoc, IH.
  replace (S m - 1)%nat with m by lia.
  change (0 <? S m)%nat with true. cbv iota.
  assert (Hh : 0 < hmul /\ hmul * lmul = 1000)
    by (destruct Hm as [[-> ->]|[[-> ->]|[-> ->]]]; lia).
  pose proof (Z.div_mod (nth m yb 0) hmul ltac:(lia)) as Hdm.
  destruct (Nat.ltb_spec 0 m) as [Hpos|Hz].
  - set (r := nth (m - 1) yb 0 mod hmul) in *.
    set (a := nth m yb 0 / hmul) in *. set (b := nth m yb 0 mod hmul) in *.
    destruct Hh as [Hh0 Hhl].
    assert (E : hmul * (a + r * lmul) = hmul * a + r * 1000)
      by (rewrite <- Hhl; ring).
    lia.
  - set (a := nth m yb 0 / hmul) in *. set (b := nth m yb 0 mod hmul) in *.
    lia.
Qed.

Lemma horner_add_column : forall xb yb kshift hmul lmul rs,
  (hmul = 1 /\ lmul = 1000) \/ (hmul = 10 /\ lmul = 100) \/
  (hmul = 100 /\ lmul = 10) ->
  (length xb <= rs)%nat ->
  (kshift + length yb + (if (hmul =? 1)%Z then 0 else 1) <= rs)%nat ->
  hmul * horner (add_column xb yb kshift hmul lmul) rs
  = hmul * Mint xb * 1000 ^ Z.of_nat (rs - length xb)
    + Mint yb * 1000 ^ Z.of_nat (rs - kshift - length yb).
Proof.
  intros xb yb kshift hmul lmul rs Hm Hx Hy.
  set (g := fun j => nth j yb 0 / hmul
                     + (if (0 <? j)%nat
                        then nth (j - 1) yb 0 mod hmul * lmul else 0)).
  rewrite (horner_ext _
             (fun i => nth i xb 0
                       + (if (kshift <=? i)%nat then g (i - kshift)%nat else 0))).
  2:{ intros i _. unfold add_column, g.
      destruct (Nat.leb_spec kshift i) as [Hle|Hgt]; [|reflexivity].
      destruct (Nat.ltb_spec kshift i), (Nat.ltb_spec 0 (i - kshift));
        try lia; reflexivity. }
  rewrite horner_add, Z.mul_add_distr_l.
  replace rs with (length xb + (rs - length xb))%nat at 1 by lia.
  rewrite horner_nth_pad.
  replace rs with (kshift + (rs - kshift))%nat at 2 by lia.
  rewrite horner_shift. unfold g. rewrite (horner_digit_shift yb hmul lmul _ Hm).
  replace (rs - kshift)%nat
    with (length yb + (rs - kshift - length yb))%nat at 1
    by (destruct (hmul =? 1); lia).
  rewrite horner_nth_pad.
  assert (Hr : (if (0 <? rs - kshift)%nat
                then nth (rs - kshift - 1) yb 0 mod hmul else 0) = 0).
  { destruct (Nat.ltb_spec 0 (rs - kshift)); [|reflexivity].
    destruct (Z.eqb_spec hmul 1) as [->|Hne].
    - apply Z.mod_1_r.
    - rewrite nth_overflow by lia. apply Z.mod_0_l.
      destruct Hm as [[? ?]|[[? ?]|[? ?]]]; lia. }
  rewrite Hr. ring.
Qed.

Lemma exponent_gap : forall xe ye : Z,
  ye <= xe ->
  let yshift := Z.to_nat (xe - ye) in
  (inject_Z 10 ^ xe
   == inject_Z 10 ^ ye
      * inject_Z (1000 ^ Z.of_nat (yshift / 3)
                  * decimal.hmul_of (Z.of_nat (yshift mod 3))))%Q.
Proof.
  intros xe ye Hle yshift.
  replace xe with (ye + Z.of_nat yshift) at 1 by (unfold yshift; lia).
  rewrite pow10_add. apply Qmult_comp; [reflexivity|].
  rewrite <- Zpower_Qpower by lia.
  rewrite (Nat.div_mod_eq yshift 3) at 1.
  rewrite Nat2Z.inj_add, Nat2Z.inj_mul, Z.pow_add_r by lia.
  change (Z.of_nat 3) with 3. rewrite pow10_cubed.
  assert (Hm : (yshift mod 3 < 3)%nat) by (apply Nat.mod_upper_bound; lia).
  destruct (yshift mod 3)%nat as [|[|[|m]]]; try lia; reflexivity.
Qed.

Lemma kigit_shift_round_up : forall yshift : nat,
  ((yshift + 2) / 3
   = yshift / 3 + (if (yshift mod 3 =? 0)%nat then 0 else 1))%nat.
Proof.
  intro yshift.
  pose proof (Nat.div_mod_eq yshift 3) as Hd.
  pose proof (Nat.mod_upper_bound yshift 3 ltac:(lia)) as Hm.
  symmetry.
  destruct (Nat.eqb_spec (yshift mod 3) 0) as [H|H].
  - apply Nat.div_unique with (r := 2%nat); lia.
  - apply Nat.div_unique with (r := (yshift mod 3 - 1)%nat); lia.
Qed.

Lemma hmul_lmul_cases : forall m : nat,
  (m < 3)%nat ->
  let mod3 := Z.of_nat m in
  let hmul := decimal.hmul_of mod3 in
  let lmul := kint (1000 / hmul) in
  ((mod3 = 0 /\ hmul = 1 /\ lmul = 1000) \/
   (mod3 = 1 /\ hmul = 10 /\ lmul = 100) \/
   (mod3 = 2 /\ hmul = 100 /\ lmul = 10))
  /\ (hmul =? 1) = (m =? 0)%nat.
Proof.
  intros m Hm. destruct m as [|[|[|m]]]; try lia; cbv; intuition congruence.
Qed.

(** An integer [H] that is the sum, or with [s] equal to -1 the
    difference, of the two integer readings brought to the same scale
    stands for the sum or difference of the two magnitudes. *)
Lemma columns_value : forall xb yb (xe ye : Z) (rs : nat) (s H : Z),
  ye <= xe ->
  let yshift := Z.to_nat (xe - ye) in
  let kshift := (yshift / 3)%nat in
  let hmul := decimal.hmul_of (Z.of_nat (yshift mod 3)) in
  (Nat.max (length xb) (length yb + (yshift + 2) / 3) <= rs)%nat ->
  hmul * H
  = hmul * Mint xb * 1000 ^ Z.of_nat (rs - length xb)
    + s * (Mint yb * 1000 ^ Z.of_nat (rs - kshift - length yb)) ->
  (inject_Z H / inject_Z (1000 ^ Z.of_nat rs) * inject_Z 10 ^ xe
   == mantissa xb * inject_Z 10 ^ xe
      + inject_Z s * (mantissa yb * inject_Z 10 ^ ye))%Q.
Proof.
  intros xb yb xe ye rs s H Hle yshift kshift hmul Hfit HZ.
  assert (Hm3 : (yshift mod 3 < 3)%nat) by (apply Nat.mod_upper_bound; lia).
  destruct (hmul_lmul_cases _ Hm3) as [Hcases Hone].
  fold hmul in Hcases, Hone.
  rewrite kigit_shift_round_up in Hfit. fold kshift in Hfit.
  assert (Hh : 0 < hmul)
    by (destruct Hcases as [(_ & Hc & _)|[(_ & Hc & _)|(_ & Hc & _)]]; lia).
  rewrite (exponent_gap xe ye Hle). fold yshift kshift hmul.
  set (Ey := (inject_Z 10 ^ ye)%Q).
  assert (HPx : 1000 ^ Z.of_nat rs
                = 1000 ^ Z.of_nat (length xb) * 1000 ^ Z.of_nat (rs - length xb)).
  { rewrite <- Z.pow_add_r by lia. f_equal. lia. }
  assert (HPy : 1000 ^ Z.of_nat rs
                = 1000 ^ Z.of_nat (length yb) * 1000 ^ Z.of_nat kshift
                  * 1000 ^ Z.of_nat (rs - kshift - length yb)).
  { rewrite <- !Z.pow_add_r by lia. f_equal.
    destruct (yshift mod 3 =? 0)%nat; lia. }
  pose proof (mantissa_Mint xb) as HX. pose proof (mantissa_Mint yb) as HY.
  pose proof (pow1000_pos (length xb)) as Px0.
  pose proof (pow1000_pos (length yb)) as Py0.
  pose proof (pow1000_pos kshift) as Pk0.
  pose proof (pow1000_pos (rs - length xb)) as A0.
  pose proof (pow1000_pos (rs - kshift - length yb)) as B0.
  set (Px := 1000 ^ Z.of_nat (length xb)) in *.
  set (Py := 1000 ^ Z.of_nat (length yb)) in *.
  set (Pk := 1000 ^ Z.of_nat kshift) in *.
  set (A := 1000 ^ Z.of_nat (rs - length xb)) in *.
  set (B := 1000 ^ Z.of_nat (rs - kshift - length yb)) in *.
  set (mx := mantissa xb) in *. set (my := mantissa yb) in *.
  assert (nz : forall z, 0 < z -> ~ (inject_Z z == 0)%Q).
  { intros z Hz E. unfold Qeq in E. simpl in E. lia. }
  assert (HZq : (inject_Z hmul * inject_Z H
                 == inject_Z hmul * (mx * inject_Z Px) * inject_Z A
                    + inject_Z s * (my * inject_Z Py * inject_Z B))%Q).
  { rewrite HX, HY. rewrite <- !inject_Z_mult, <- inject_Z_plus.
    rewrite HZ. reflexivity. }
  assert (HH : (inject_Z H
                == (inject_Z hmul * (mx * inject_Z Px) * inject_Z A
                    + inject_Z s * (my * inject_Z Py * inject_Z B))
                   / inject_Z hmul)%Q).
  { rewrite <- HZq. field. apply nz; lia. }
  rewrite HH.
  rewrite HPy at 1.
  assert (HAB : (inject_Z Px * inject_Z A
                 == inject_Z Py * inject_Z Pk * inject_Z B)%Q).
  { rewrite <- !inject_Z_mult. rewrite <- HPx, <- HPy. reflexivity. }
  assert (HPxq : (inject_Z Px
                  == inject_Z Py * inject_Z Pk * inject_Z B / inject_Z A)%Q).
  { rewrite <- HAB. field. apply nz; lia. }
  rewrite HPxq. rewrite !inject_Z_mult.
  field. repeat split; apply nz; lia.
Qed.

(** The column sums of the addition, read as one number, stand for the sum
    of the two magnitudes when the result is as long as both operands
    need. *)
Lemma add_columns_value : forall xb yb (xe ye : Z) (rs : nat),
  ye <= xe ->
  let yshift := Z.to_nat (xe - ye) in
  let kshift := (yshift / 3)%nat in
  let hmul := decimal.hmul_of (Z.of_nat (yshift mod 3)) in
  let lmul := kint (1000 / hmul) in
  (Nat.max (length xb) (length yb + (yshift + 2) / 3) <= rs)%nat ->
  (inject_Z (horner (add_column xb yb kshift hmul lmul) rs)
   / inject_Z (1000 ^ Z.of_nat rs) * inject_Z 10 ^ xe
   == mantissa xb * inject_Z 10 ^ xe + mantissa yb * inject_Z 10 ^ ye)%Q.
Proof.
  intros xb yb xe ye rs Hle yshift kshift hmul lmul Hfit.
  assert (Hm3 : (yshift mod 3 < 3)%nat) by (apply Nat.mod_upper_bound; lia).
  destruct (hmul_lmul_cases _ Hm3) as [Hcases Hone].
  fold hmul lmul in Hcases, Hone.
  pose proof Hfit as Hfit'.
  rewrite kigit_shift_round_up in Hfit'. fold kshift in Hfit'.
  assert (HZ := horner_add_column xb yb kshift hmul lmul rs).
  specialize (HZ ltac:(tauto) ltac:(lia)).
  specialize (HZ ltac:(rewrite Hone; lia)).
  pose proof (columns_value xb yb xe ye rs 1
                (horner (add_column xb yb kshift hmul lmul) rs) Hle Hfit)
    as Hval.
  cbv zeta in Hval. fold yshift kshift hmul in Hval.
  rewrite Hval by (rewrite HZ; ring).
  change (inject_Z 1) with 1%Q. ring.
Qed.

Lemma add_loop_exact : forall xb yb (xe ye : Z) (ps : nat),
  kigits_ok xb -> kigits_ok yb -> ye <= xe ->
  let yshift := Z.to_nat (xe - ye) in
  let kshift := (yshift / 3)%nat in
  let mod3 := Z.of_nat (yshift mod 3) in
  let hmul := decimal.hmul_of mod3 in
  let lmul := kint (1000 / hmul) in
  let rs := Nat.min ps (Nat.max (length xb) (length yb + (yshift + 2) / 3)) in
  (Nat.max (length xb) (length yb + (yshift + 2) / 3) <= ps)%nat ->
  (mantissa xb * inject_Z 10 ^ xe + mantissa yb * inject_Z 10 ^ ye
   < inject_Z 10 ^ xe)%Q ->
  (rs <? kshift)%nat = false /\
  exists rb,
    decimal.add_loop xb yb kshift mod3 hmul lmul rs [] 0 = (rb, 0) /\
    kigits_ok rb /\
    (mantissa rb * inject_Z 10 ^ xe
     == mantissa xb * inject_Z 10 ^ xe + mantissa yb * inject_Z 10 ^ ye)%Q.
Proof.
  intros xb yb xe ye ps Hx Hy Hle yshift kshift mod3 hmul lmul rs Hfit Hsum.
  assert (Hrs : rs = Nat.max (length xb) (length yb + (yshift + 2) / 3))
    by (unfold rs; lia).
  assert (Hm3 : (yshift mod 3 < 3)%nat) by (apply Nat.mod_upper_bound; lia).
  destruct (hmul_lmul_cases _ Hm3) as [Hcases _].
  fold mod3 hmul lmul in Hcases.
  split.
  { apply Nat.ltb_ge. rewrite Hrs, kigit_shift_round_up. fold kshift. lia. }
  destruct (add_loop_horner xb yb kshift mod3 hmul lmul Hx Hy Hcases rs [] 0)
    as (rb & c & Hloop & Hok & Hlen & Hc & Heq).
  { constructor. } { lia. }
  cbn [Mint length] in Heq. rewrite Nat.add_0_r in Hlen. rewrite Hlen in Heq.
  change (1000 ^ Z.of_nat 0) with 1 in Heq.
  pose proof (add_columns_value xb yb xe ye rs Hle) as Hval.
  cbv zeta in Hval. fold yshift kshift mod3 hmul lmul in Hval.
  specialize (Hval ltac:(fold yshift; lia)).
  set (H := horner (add_column xb yb kshift hmul lmul) rs) in *.
  pose proof (pow1000_pos rs) as HP.
  pose proof (Mint_bounds rb Hok) as Hb. rewrite Hlen in Hb.
  assert (HE : (0 < inject_Z 10 ^ xe)%Q) by apply pow10_positive.
  assert (HPq : (0 < inject_Z (1000 ^ Z.of_nat rs))%Q)
    by (unfold Qlt; simpl; lia).
  assert (Hc0 : c = 0).
  { destruct (Z.eq_dec c 0) as [E|E]; [exact E|exfalso].
    assert (Hc1 : c = 1) by lia. subst c.
    assert (Hge : 1000 ^ Z.of_nat rs <= H) by lia.
    rewrite <- Hval in Hsum.
    assert (H1 : (1 <= inject_Z H / inject_Z (1000 ^ Z.of_nat rs))%Q).
    { apply Qle_shift_div_l; [exact HPq|].
      rewrite Qmult_1_l. rewrite <- Zle_Qle. exact Hge. }
    assert (H2 : (1 * inject_Z 10 ^ xe
                  <= inject_Z H / inject_Z (1000 ^ Z.of_nat rs)
                     * inject_Z 10 ^ xe)%Q).
    { apply Qmult_le_compat_r; [exact H1 | apply Qlt_le_weak, HE]. }
    rewrite Qmult_1_l in H2.
    apply (Qlt_irrefl (inject_Z 10 ^ xe)).
    eapply Qle_lt_trans; [exact H2 | exact Hsum]. }
  subst c. exists rb. split; [exact Hloop|]. split; [exact Hok|].
  rewrite <- Hval. rewrite mantissa_ratio, Hlen.
  replace H with (Mint rb) by lia. reflexivity.
Qed.

(** X25.  Adding two decimals of the same sign is exact when the sum needs
    no more kigits than the precision gives and does not carry into a new
    leading digit: the value of the result is the sum of the values. *)
Theorem add_exact_without_carry : forall Settings x y,
  wf x -> wf y -> type y = type x ->
  (sum_kigits x y <= (Precision Settings + 2) / 3)%nat ->
  (magnitude x + magnitude y
   < inject_Z 10 ^ Z.max (exponent x) (exponent y))%Q ->
  (value (decimal.add Settings x y) == value x + value y)%Q.
Proof.
  intros Settings [tx ex xb] [ty ey yb] [_ Hx] [_ Hy] Hty Hfit Hsum.
  cbn [type exponent kigs] in *. subst ty.
  unfold sum_kigits, magnitude in *. unfold decimal.add, value.
  cbn [type exponent kigs] in *.
  destruct (Z.ltb_spec ex ey) as [Hlt|Hge].
  - rewrite Z.max_r in Hsum by lia. rewrite Qplus_comm in Hsum.
    destruct (add_loop_exact yb xb ey ex ((Precision Settings + 2) / 3)
                Hy Hx ltac:(lia) Hfit Hsum) as [Hneg (rb & Hloop & Hok & Hval)].
    rewrite Hneg, Hloop. cbn [Z.eqb negb type exponent kigs].
    destruct (strip_trailing_spec rb Hok) as (_ & _ & Hstrip).
    rewrite Hstrip.
    rewrite <- !Qmult_assoc, Hval. ring.
  - rewrite Z.max_l in Hsum by lia.
    destruct (add_loop_exact xb yb ex ey ((Precision Settings + 2) / 3)
                Hx Hy ltac:(lia) Hfit Hsum) as [Hneg (rb & Hloop & Hok & Hval)].
    rewrite Hneg, Hloop. cbn [Z.eqb negb type exponent kigs].
    destruct (strip_trailing_spec rb Hok) as (_ & _ & Hstrip).
    rewrite Hstrip.
    rewrite <- !Qmult_assoc, Hval. ring.
Qed.

Lemma add_exact_without_carry_witness :
  Qeq (value (decimal.add default_settings
                (mk_decimal ID_decimal 1 [150])
                (mk_decimal ID_decimal 0 [250; 500])))
      (Qplus (value (mk_decimal ID_decimal 1 [150]))
             (value (mk_decimal ID_decimal 0 [250; 500])))
  /\ decimal.add default_settings
       (mk_decimal ID_decimal 1 [150]) (mk_decimal ID_decimal 0 [250; 500])
     = mk_decimal ID_decimal 1 [175; 50].
Proof.
  split; [|reflexivity].
  apply add_exact_without_carry.
  - split; [reflexivity|]. repeat constructor; lia.
  - split; [reflexivity|]. repeat constructor; lia.
  - reflexivity.
  - vm_compute. lia.
  - vm_compute. reflexivity.
Defined.

(** *** Subtraction with aligned kigits *)

Lemma nth_kigit_range : forall l i,
  kigits_ok l -> 0 <= nth i l 0 < 1000.
Proof.
  intros l i Hok. destruct (Nat.lt_ge_cases i (length l)) as [Hi|Hi].
  - apply (proj1 (Forall_forall _ l) Hok). apply nth_In. exact Hi.
  - rewrite nth_overflow by exact Hi. lia.
Qed.

Lemma sub_kigit_column : forall xb yb kshift lmul ko carry,
  kigits_ok xb -> kigits_ok yb -> 0 <= carry <= 1 ->
  decimal.sub_kigit xb yb kshift 0 1 lmul ko carry
  = ((sub_column xb yb kshift ko - carry) mod 1000,
     Z.b2z (sub_column xb yb kshift ko - carry <? 0)).
Proof.
  intros xb yb kshift lmul ko carry Hx Hy Hc.
  unfold decimal.sub_kigit, sub_column, kigit.
  change (negb (0 =? 0)) with false. cbn [andb].
  pose proof (nth_kigit_range xb ko Hx) as Hxk.
  pose proof (nth_kigit_range yb (ko - kshift) Hy) as Hyk.
  assert (Hxn : (if (ko <? length xb)%nat then nth ko xb 0 else 0)
                = nth ko xb 0).
  { destruct (Nat.ltb_spec ko (length xb)); [reflexivity|].
    rewrite nth_overflow by lia. reflexivity. }
  rewrite Hxn. rewrite Z.div_1_r.
  set (xk := nth ko xb 0) in *.
  set (yk0 := if (kshift <=? ko)%nat then nth (ko - kshift) yb 0 else 0).
  assert (Hyk0 : 0 <= yk0 < 1000) by (unfold yk0; destruct (kshift <=? ko)%nat; lia).
  assert (Hyn : (if (kshift <=? ko)%nat
                 then if (ko - kshift <? length yb)%nat
                      then kint (carry + nth (ko - kshift) yb 0)
                      else carry
                 else carry) = carry + yk0).
  { unfold yk0. destruct (kshift <=? ko)%nat; [|lia].
    destruct (Nat.ltb_spec (ko - kshift) (length yb)).
    - apply kint_small. lia.
    - rewrite nth_overflow by lia. lia. }
  rewrite Hyn.
  replace (xk - yk0 - carry) with (xk - (carry + yk0)) by lia.
  set (yk := carry + yk0) in *.
  destruct (Z.ltb_spec xk yk) as [Hlt|Hge]; cbn [Z.b2z Z.eqb negb].
  - destruct (Z.ltb_spec (xk - yk) 0); [|lia]. cbn [Z.b2z].
    rewrite (kint_small (xk + 1000)) by lia.
    rewrite kint_small by lia. f_equal.
    apply Z.mod_unique with (q := -1); lia.
  - destruct (Z.ltb_spec (xk - yk) 0); [lia|]. cbn [Z.b2z].
    rewrite kint_small by lia. f_equal.
    symmetry. apply Z.mod_small. lia.
Qed.

Lemma sub_loop_horner : forall xb yb kshift lmul,
  kigits_ok xb -> kigits_ok yb ->
  forall ko rb carry,
    kigits_ok rb -> 0 <= carry <= 1 ->
    exists rb' c',
      decimal.sub_loop xb yb kshift 0 1 lmul ko rb carry = (rb', c') /\
      kigits_ok rb' /\ length rb' = (ko + length rb)%nat /\ 0 <= c' <= 1 /\
      Mint rb' - c' * 1000 ^ Z.of_nat (length rb')
      = Mint rb
        + 1000 ^ Z.of_nat (length rb)
          * (horner (sub_column xb yb kshift) ko - carry).
Proof.
  intros xb yb kshift lmul Hx Hy ko.
  induction ko as [|ko IH]; intros rb carry Hrb Hc.
  - exists rb, carry. cbn [decimal.sub_loop horner Nat.add].
    repeat split; try assumption; try lia.
  - cbn [decimal.sub_loop].
    rewrite (sub_kigit_column xb yb kshift lmul ko carry Hx Hy Hc).
    set (col := sub_column xb yb kshift ko) in *.
    assert (Hd : 0 <= (col - carry) mod 1000 < 1000)
      by (apply Z.mod_pos_bound; lia).
    assert (Hcol : -999 <= col <= 999).
    { unfold col, sub_column.
      pose proof (nth_kigit_range xb ko Hx).
      pose proof (nth_kigit_range yb (ko - kshift) Hy).
      destruct (kshift <=? ko)%nat; lia. }
    assert (Hb : 0 <= Z.b2z (col - carry <? 0) <= 1)
      by (destruct (col - carry <? 0); cbn; lia).
    destruct (IH ((col - carry) mod 1000 :: rb) (Z.b2z (col - carry <? 0)))
      as (rb' & c' & Hloop & Hok & Hlen & Hc' & Hsum).
    { constructor; assumption. }
    { exact Hb. }
    exists rb', c'. rewrite Hloop.
    split; [reflexivity|]. split; [exact Hok|].
    split; [rewrite Hlen; cbn [length]; lia|]. split; [exact Hc'|].
    rewrite Hsum. cbn [Mint length horner]. fold col.
    rewrite pow1000_S.
    assert (Hdm : col - carry
                  = (col - carry) mod 1000 - 1000 * Z.b2z (col - carry <? 0)).
    { destruct (Z.ltb_spec (col - carry) 0); cbn [Z.b2z].
      - assert ((col - carry) mod 1000 = col - carry + 1000)
          by (symmetry; apply Z.mod_unique with (q := -1); lia).
        lia.
      - rewrite Z.mod_small by lia. lia. }
    set (P := 1000 ^ Z.of_nat (length rb)) in *.
    set (d := (col - carry) mod 1000) in *.
    set (b := Z.b2z (col - carry <? 0)) in *.
    set (S0 := horner (sub_column xb yb kshift) ko) in *.
    replace col with (d - 1000 * b + carry) by lia. ring.
Qed.

Lemma horner_opp : forall f n,
  horner (fun i => - f i) n = - horner f n.
Proof.
  intros f n; induction n as [|n IH]; [reflexivity|].
  cbn [horner]. rewrite IH. ring.
Qed.

Lemma horner_sub_column : forall xb yb kshift rs,
  (length xb <= rs)%nat -> (kshift + length yb <= rs)%nat ->
  horner (sub_column xb yb kshift) rs
  = Mint xb * 1000 ^ Z.of_nat (rs - length xb)
    - Mint yb * 1000 ^ Z.of_nat (rs - kshift - length yb).
Proof.
  intros xb yb kshift rs Hx Hy.
  rewrite (horner_ext _
             (fun i => nth i xb 0
                       + (if (kshift <=? i)%nat
                          then (fun j => - nth j yb 0) (i - kshift)%nat
                          else 0))).
  2:{ intros i _. unfold sub_column. destruct (kshift <=? i)%nat; lia. }
  rewrite horner_add.
  replace rs with (length xb + (rs - length xb))%nat at 1 by lia.
  rewrite horner_nth_pad.
  replace rs with (kshift + (rs - kshift))%nat at 2 by lia.
  rewrite (horner_shift (fun j => - nth j yb 0)), horner_opp.
  replace (rs - kshift)%nat
    with (length yb + (rs - kshift - length yb))%nat at 1 by lia.
  rewrite horner_nth_pad. ring.
Qed.

Lemma sub_loop_exact : forall xb yb (xe ye : Z) (ps : nat),
  kigits_ok xb -> kigits_ok yb -> ye <= xe ->
  let yshift := Z.to_nat (xe - ye) in
  let kshift := (yshift / 3)%nat in
  let rs := Nat.min ps (Nat.max (length xb) (length yb + (yshift + 2) / 3)) in
  (yshift mod 3 = 0)%nat ->
  (Nat.max (length xb) (length yb + (yshift + 2) / 3) <= ps)%nat ->
  (mantissa yb * inject_Z 10 ^ ye <= mantissa xb * inject_Z 10 ^ xe)%Q ->
  (rs <? kshift)%nat = false /\
  exists rb,
    decimal.sub_loop xb yb kshift 0 1 1000 rs [] 0 = (rb, 0) /\
    kigits_ok rb /\ length rb = rs /\
    (mantissa rb * inject_Z 10 ^ xe
     == mantissa xb * inject_Z 10 ^ xe - mantissa yb * inject_Z 10 ^ ye)%Q.
Proof.
  intros xb yb xe ye ps Hx Hy Hle yshift kshift rs Hmod Hfit Hsum.
  assert (Hrs : rs = Nat.max (length xb) (length yb + (yshift + 2) / 3))
    by (unfold rs; lia).
  pose proof (kigit_shift_round_up yshift) as Hup.
  rewrite Hmod in Hup. cbn [Nat.eqb] in Hup. fold kshift in Hup.
  split.
  { apply Nat.ltb_ge. lia. }
  destruct (sub_loop_horner xb yb kshift 1000 Hx Hy rs [] 0)
    as (rb & c & Hloop & Hok & Hlen & Hc & Heq).
  { constructor. } { lia. }
  cbn [Mint length] in Heq. rewrite Nat.add_0_r in Hlen. rewrite Hlen in Heq.
  change (1000 ^ Z.of_nat 0) with 1 in Heq.
  pose proof (horner_sub_column xb yb kshift rs ltac:(lia) ltac:(lia)) as HZ.
  set (H := horner (sub_column xb yb kshift) rs) in *.
  pose proof (columns_value xb yb xe ye rs (-1) H Hle) as Hval.
  cbv zeta in Hval. fold yshift kshift in Hval.
  rewrite Hmod in Hval. change (decimal.hmul_of (Z.of_nat 0)) with 1 in Hval.
  specialize (Hval ltac:(lia) ltac:(lia)).
  assert (Hval' : (inject_Z H / inject_Z (1000 ^ Z.of_nat rs) * inject_Z 10 ^ xe
                   == mantissa xb * inject_Z 10 ^ xe
                      - mantissa yb * inject_Z 10 ^ ye)%Q).
  { rewrite Hval. change (inject_Z (-1)) with (-1)%Q. ring. }
  clear Hval.
  pose proof (pow1000_pos rs) as HP.
  pose proof (Mint_bounds rb Hok) as Hb. rewrite Hlen in Hb.
  assert (HE : (0 < inject_Z 10 ^ xe)%Q) by apply pow10_positive.
  assert (HPq : (0 < inject_Z (1000 ^ Z.of_nat rs))%Q)
    by (unfold Qlt; simpl; lia).
  assert (Hc0 : c = 0).
  { destruct (Z.eq_dec c 0) as [E|E]; [exact E|exfalso].
    assert (Hc1 : c = 1) by lia. subst c.
    assert (Hneg : H < 0) by lia.
    assert (H1 : (inject_Z H / inject_Z (1000 ^ Z.of_nat rs) * inject_Z 10 ^ xe
                  < 0)%Q).
    { setoid_replace 0%Q
        with (0 / inject_Z (1000 ^ Z.of_nat rs) * inject_Z 10 ^ xe)%Q
        by (unfold Qdiv; ring).
      apply Qmult_lt_compat_r; [exact HE|].
      apply Qmult_lt_compat_r; [apply Qinv_lt_0_compat; exact HPq|].
      change 0%Q with (inject_Z 0). rewrite <- Zlt_Qlt. exact Hneg. }
    rewrite Hval' in H1.
    apply (Qlt_irrefl 0).
    eapply Qle_lt_trans; [|exact H1].
    rewrite <- (Qplus_opp_r (mantissa yb * inject_Z 10 ^ ye)).
    unfold Qminus. apply Qplus_le_compat; [exact Hsum | apply Qle_refl]. }
  subst c. exists rb. split; [exact Hloop|]. split; [exact Hok|].
  split; [exact Hlen|].
  rewrite <- Hval'. rewrite mantissa_ratio, Hlen.
  replace H with (Mint rb) by lia. reflexivity.
Qed.

(** X26.  Subtracting the smaller of two decimals of the same sign from the
    larger is exact when their exponents differ by a multiple of 3 and the
    difference needs no more kigits than the precision gives: the value of
    the result is the difference of the values.  The exponents are taken
    between -2^30 and 2^30 and the precision at most 2^29 digits, so that
    the exponent of the result, lowered for each leading zero, stays an
    [int]. *)
Theorem sub_exact_when_aligned : forall Settings x y,
  wf x -> wf y -> type y = type x ->
  small_exponent x -> small_exponent y ->
  Z.of_nat (Precision Settings) <= 2 ^ 29 ->
  exponent y <= exponent x ->
  (exponent x - exponent y) mod 3 = 0 ->
  (sum_kigits x y <= (Precision Settings + 2) / 3)%nat ->
  (magnitude y <= magnitude x)%Q ->
  (value (decimal.sub Settings x y) == value x - value y)%Q.
Proof.
  intros Settings [tx ex xb] [ty ey yb] [_ Hx] [_ Hy] Hty Ix Iy Hprec
    Hle Hmod Hfit Hsum.
  unfold small_exponent in Ix, Iy.
  cbn [type exponent kigs] in *. subst ty.
  unfold sum_kigits, magnitude in *. unfold decimal.sub, value.
  cbn [type exponent kigs] in *.
  destruct (Z.ltb_spec ex ey) as [Hlt|_]; [lia|].
  assert (Hmod' : (Z.to_nat (ex - ey) mod 3 = 0)%nat).
  { apply Nat2Z.inj. rewrite Nat2Z.inj_mod, Z2Nat.id by lia. exact Hmod. }
  destruct (sub_loop_exact xb yb ex ey ((Precision Settings + 2) / 3)
              Hx Hy Hle Hmod' Hfit Hsum)
    as [Hneg (rb & Hloop & Hok & Hlen & Hval)].
  rewrite Hneg, Hmod'.
  change (decimal.hmul_of (Z.of_nat 0)) with 1.
  change (kint (1000 / 1)) with 1000. change (Z.of_nat 0) with 0.
  rewrite Hloop. cbn [Z.eqb negb].
  assert (Hps : (3 * ((Precision Settings + 2) / 3) <= Precision Settings + 2)%nat)
    by apply Nat.Div0.mul_div_le.
  assert (Hrs : 3 * Z.of_nat (length rb) <= 2 ^ 29 + 2) by (rewrite Hlen; lia).
  change (2 ^ 29) with 536870912 in *. change (2 ^ 30) with 1073741824 in *.
  assert (H31 : 2 ^ 31 = 2147483648) by reflexivity.
  pose proof (strip_leading_spec rb ex Hok) as K3.
  pose proof (strip_leading_head rb ex) as H3.
  destruct (strip_leading ex rb) as [xe3 rb3]. cbn [snd] in H3.
  destruct K3 as (Ho3 & Hl3 & Hv3).
  destruct Hv3 as (Hb3 & Hb3' & Hv3); [lia | lia |].
  assert (Hgoal : (sign_of tx * mantissa xb * inject_Z 10 ^ ex
                   - sign_of tx * mantissa yb * inject_Z 10 ^ ey
                   == sign_of tx * (mantissa rb3 * inject_Z 10 ^ xe3))%Q).
  { rewrite Hv3, Hval. ring. }
  rewrite Hgoal. clear Hgoal Hv3 Hval.
  pose proof (strip_digits_spec rb3 xe3 Ho3) as K4.
  pose proof (strip_digits_head rb3 xe3 Ho3 H3) as H4.
  unfold decimal.strip_digits in K4, H4.
  destruct rb3 as [|k r].
  - cbn. ring.
  - destruct (k <? 100) eqn:Hk.
    + cbv zeta in K4, H4. cbn [snd] in H4.
      destruct K4 as (Ho4 & Hl4 & Hv4).
      specialize (Hv4 ltac:(lia) ltac:(lia)).
      destruct H4 as [H4|H4].
      { exfalso. rewrite H4 in Hl4. cbn [length] in Hl4. lia. }
      assert (Hlm : kint (1000 / (if k <? 10 then 100 else 10))
                    = 1000 / (if k <? 10 then 100 else 10))
        by (destruct (k <? 10); reflexivity).
      rewrite Hlm.
      set (rb4 := shift_left_digits (if k <? 10 then 100 else 10)
                    (1000 / (if k <? 10 then 100 else 10)) (k :: r)) in *.
      destruct (Z.ltb_spec (1 + hd 0 rb4) 10) as [Hq|_]; [lia|].
      cbn [Z.b2z]. rewrite Z.sub_0_r.
      rewrite (cint_small (cint _)) by apply cint_range.
      assert (Hne : (length rb4 =? 0)%nat = false)
        by (rewrite Hl4; reflexivity).
      rewrite Hne. cbn [type exponent kigs].
      destruct (strip_trailing_spec rb4 Ho4) as (_ & _ & Hstrip).
      rewrite Hstrip, <- Hv4. ring.
    + cbn [length Nat.eqb type exponent kigs].
      destruct (strip_trailing_spec (k :: r) Ho3) as (_ & _ & Hstrip).
      rewrite Hstrip. ring.
Qed.

Lemma sub_exact_when_aligned_witness :
  Qeq (value (decimal.sub default_settings
                (mk_decimal ID_decimal 4 [100; 20])
                (mk_decimal ID_decimal 1 [995; 500])))
      (Qminus (value (mk_decimal ID_decimal 4 [100; 20]))
              (value (mk_decimal ID_decimal 1 [995; 500])))
  /\ decimal.sub default_settings
       (mk_decimal ID_decimal 4 [100; 20]) (mk_decimal ID_decimal 1 [995; 500])
     = mk_decimal ID_decimal 3 [990; 245].
Proof.
  split; [|reflexivity].
  apply sub_exact_when_aligned.
  - split; [reflexivity|]. repeat constructor; lia.
  - split; [reflexivity|]. repeat constructor; lia.
  - reflexivity.
  - unfold small_exponent. cbn. lia.
  - unfold small_exponent. cbn. lia.
  - vm_compute. discriminate.
  - cbn. lia.
  - reflexivity.
  - vm_compute. lia.
  - vm_compute. discriminate.
Defined.


(** *** How far a sum is from the exact sum *)

Lemma horner_left : forall f n,
  horner f (S n) = f 0%nat * 1000 ^ Z.of_nat n + horner (fun i => f (S i)) n.
Proof.
  intros f n; induction n as [|n IH].
  - cbn [horner]. change (1000 ^ Z.of_nat 0) with 1. ring.
  - change (horner f (S (S n))) with (horner f (S n) * 1000 + f (S n)).
    rewrite IH. cbn [horner]. rewrite pow1000_S. ring.
Qed.

(** The first [n] kigits, read as an integer, are the mantissa cut after
    [n] kigits. *)
Lemma horner_truncates : forall n l,
  kigits_ok l ->
  (inject_Z (horner (fun i => nth i l 0%Z) n)
   <= mantissa l * inject_Z (1000 ^ Z.of_nat n)
   < inject_Z (horner (fun i => nth i l 0%Z) n) + 1)%Q.
Proof.
  induction n as [|n IH]; intros l Hok.
  - cbn [horner]. change (inject_Z (1000 ^ Z.of_nat 0)) with 1%Q.
    change (inject_Z 0) with 0%Q.
    pose proof (mantissa_range l Hok). lra.
  - destruct l as [|k r].
    + rewrite horner_zero by (intros [|i] _; reflexivity).
      cbn [mantissa]. change (inject_Z 0) with 0%Q. lra.
    + inversion Hok as [|? ? Hk Hr]; subst.
      rewrite horner_left. cbn [nth].
      specialize (IH r Hr).
      rewrite inject_Z_plus, inject_Z_mult.
      cbn [mantissa]. rewrite pow1000_S, inject_Z_mult.
      set (h := inject_Z (horner (fun i => nth i r 0) n)) in *.
      set (P := inject_Z (1000 ^ Z.of_nat n)) in *.
      setoid_replace ((inject_Z k + mantissa r) / inject_Z 1000
                      * (inject_Z 1000 * P))%Q
        with (inject_Z k * P + mantissa r * P)%Q
        by (field; discriminate).
      lra.
Qed.

Lemma horner_column_split : forall xb yb kshift hmul lmul rs,
  (kshift <= rs)%nat ->
  horner (add_column xb yb kshift hmul lmul) rs
  = horner (fun i => nth i xb 0) rs
    + horner (fun j => nth j yb 0 / hmul
                       + (if (0 <? j)%nat
                          then nth (j - 1) yb 0 mod hmul * lmul else 0))
        (rs - kshift).
Proof.
  intros xb yb kshift hmul lmul rs Hk.
  set (g := fun j => nth j yb 0 / hmul
                     + (if (0 <? j)%nat
                        then nth (j - 1) yb 0 mod hmul * lmul else 0)).
  rewrite (horner_ext _
             (fun i => nth i xb 0
                       + (if (kshift <=? i)%nat then g (i - kshift)%nat else 0))).
  2:{ intros i _. unfold add_column, g.
      destruct (Nat.leb_spec kshift i) as [Hle|Hgt]; [|reflexivity].
      destruct (Nat.ltb_spec kshift i), (Nat.ltb_spec 0 (i - kshift));
        try lia; reflexivity. }
  rewrite horner_add.
  replace rs with (kshift + (rs - kshift))%nat at 2 by lia.
  rewrite horner_shift. reflexivity.
Qed.

(** The column sums of an addition are the exact sum of the mantissas cut
    after [rs] kigits: less than two units below it. *)
Lemma add_columns_bounds : forall xb yb (xe ye : Z) (rs : nat),
  kigits_ok xb -> kigits_ok yb -> ye <= xe ->
  let yshift := Z.to_nat (xe - ye) in
  let kshift := (yshift / 3)%nat in
  let hmul := decimal.hmul_of (Z.of_nat (yshift mod 3)) in
  let lmul := kint (1000 / hmul) in
  let N := horner (add_column xb yb kshift hmul lmul) rs in
  let S := (mantissa xb * inject_Z 10 ^ xe
            + mantissa yb * inject_Z 10 ^ ye)%Q in
  (kshift <= rs)%nat ->
  (inject_Z N * inject_Z 10 ^ (xe - 3 * Z.of_nat rs) <= S
   /\ S < (inject_Z N + 2) * inject_Z 10 ^ (xe - 3 * Z.of_nat rs))%Q.
Proof.
  intros xb yb xe ye rs Hx Hy Hle yshift kshift hmul lmul N S Hk.
  assert (Hm3 : (yshift mod 3 < 3)%nat) by (apply Nat.mod_upper_bound; lia).
  destruct (hmul_lmul_cases _ Hm3) as [Hcases _].
  fold hmul lmul in Hcases.
  assert (Hh : 0 < hmul)
    by (destruct Hcases as [(_ & Hc & _)|[(_ & Hc & _)|(_ & Hc & _)]]; lia).
  assert (Hhl : (hmul = 1 /\ lmul = 1000) \/ (hmul = 10 /\ lmul = 100) \/
                (hmul = 100 /\ lmul = 10)) by tauto.
  pose proof (horner_column_split xb yb kshift hmul lmul rs Hk) as Hsplit.
  fold N in Hsplit.
  pose proof (horner_digit_shift yb hmul lmul (rs - kshift) Hhl) as Hshift.
  set (G := horner (fun j => nth j yb 0 / hmul
                             + (if (0 <? j)%nat
                                then nth (j - 1) yb 0 mod hmul * lmul else 0))
              (rs - kshift)) in *.
  pose proof (horner_truncates rs xb Hx) as HX.
  pose proof (horner_truncates (rs - kshift) yb Hy) as HY.
  set (X := horner (fun i => nth i xb 0) rs) in *.
  set (Y := horner (fun j => nth j yb 0) (rs - kshift)) in *.
  assert (Hr : 0 <= (if (0 <? rs - kshift)%nat
                     then nth (rs - kshift - 1) yb 0 mod hmul else 0) < hmul).
  { destruct (0 <? rs - kshift)%nat; [apply Z.mod_pos_bound|]; lia. }
  assert (HG : hmul * G <= Y <= hmul * G + hmul - 1) by lia.
  clear Hshift Hr.
  (* the scale of the result *)
  assert (HE : (inject_Z 10 ^ xe
                == inject_Z 10 ^ (xe - 3 * Z.of_nat rs)
                   * inject_Z (1000 ^ Z.of_nat rs))%Q).
  { replace xe with (xe - 3 * Z.of_nat rs + 3 * Z.of_nat rs) at 1 by lia.
    rewrite pow10_add. rewrite <- (Zpower_Qpower 10 (3 * Z.of_nat rs)) by lia.
    rewrite pow10_cubed. reflexivity. }
  assert (HEy : (inject_Z 10 ^ xe
                 == inject_Z 10 ^ ye
                    * inject_Z (1000 ^ Z.of_nat kshift * hmul))%Q)
    by apply (exponent_gap xe ye Hle).
  assert (HP : 1000 ^ Z.of_nat rs
               = 1000 ^ Z.of_nat kshift * 1000 ^ Z.of_nat (rs - kshift)).
  { rewrite <- Z.pow_add_r by lia. f_equal. lia. }
  pose proof (pow10_positive (xe - 3 * Z.of_nat rs)) as Hu.
  pose proof (pow10_positive ye) as Hey.
  pose proof (pow1000_pos kshift) as Pk0.
  pose proof (pow1000_pos (rs - kshift)) as Pm0.
  set (u := (inject_Z 10 ^ (xe - 3 * Z.of_nat rs))%Q) in *.
  set (Ey := (inject_Z 10 ^ ye)%Q) in *.
  set (Pk := 1000 ^ Z.of_nat kshift) in *.
  set (Pm := 1000 ^ Z.of_nat (rs - kshift)) in *.
  set (mx := mantissa xb) in *. set (my := mantissa yb) in *.
  assert (nz : forall z, 0 < z -> ~ (inject_Z z == 0)%Q).
  { intros z Hz E. unfold Qeq in E. simpl in E. lia. }
  assert (pos : forall z, 0 < z -> (0 < inject_Z z)%Q).
  { intros z Hz. change 0%Q with (inject_Z 0). rewrite <- Zlt_Qlt. exact Hz. }
  (* the sum in units of the last kigit *)
  assert (HS : (S == (mx * inject_Z (1000 ^ Z.of_nat rs)
                      + my * inject_Z Pm / inject_Z hmul) * u)%Q).
  { unfold S. rewrite HE at 1.
    assert (HEy' : (Ey == u * inject_Z (1000 ^ Z.of_nat rs)
                          / (inject_Z Pk * inject_Z hmul))%Q).
    { rewrite <- HE, HEy. rewrite inject_Z_mult. field.
      split; apply nz; lia. }
    rewrite HEy'. rewrite HP, !inject_Z_mult. field.
    split; apply nz; lia. }
  rewrite HS.
  set (a := (mx * inject_Z (1000 ^ Z.of_nat rs))%Q) in *.
  set (b := (my * inject_Z Pm)%Q) in *.
  assert (HGq : (inject_Z G <= b / inject_Z hmul
                 /\ b / inject_Z hmul < inject_Z G + 1)%Q).
  { pose proof (pos hmul Hh) as Hhq.
    destruct HG as [HG1 HG2]. destruct HY as [HY1 HY2].
    rewrite Zle_Qle in HG1. rewrite Zle_Qle in HG2.
    rewrite inject_Z_mult in HG1.
    unfold Z.sub in HG2.
    rewrite !inject_Z_plus, inject_Z_mult in HG2.
    change (inject_Z (- (1))) with (-1)%Q in HG2.
    set (Gq := inject_Z G) in *. set (Yq := inject_Z Y) in *.
    set (hq := inject_Z hmul) in *.
    split.
    - apply Qle_shift_div_l; [exact Hhq|]. lra.
    - apply Qlt_shift_div_r; [exact Hhq|]. lra. }
  assert (HN : (inject_Z N == inject_Z X + inject_Z G)%Q)
    by (rewrite Hsplit, inject_Z_plus; reflexivity).
  rewrite HN.
  set (Xq := inject_Z X) in *. set (Gq := inject_Z G) in *.
  set (c := (b / inject_Z hmul)%Q) in *.
  split.
  - apply Qmult_le_compat_r; [lra | apply Qlt_le_weak, Hu].
  - apply Qmult_lt_compat_r; [exact Hu | lra].
Qed.

(** Shifting the digits right by one place, with [above] coming in at the
    top, divides the integer read from the array by 10: the digit that
    falls off is the last digit of the last kigit. *)
Lemma shift_right_one_digit : forall rb above,
  kigits_ok rb -> 0 <= above ->
  kigits_ok (shift_right_digits 10 100 above rb) /\
  length (shift_right_digits 10 100 above rb) = length rb /\
  Mint (shift_right_digits 10 100 above rb) * 10 + last (above :: rb) 0 mod 10
  = above mod 10 * 1000 ^ Z.of_nat (length rb) + Mint rb.
Proof.
  induction rb as [|k r IH]; intros above Hok Ha.
  - cbn [shift_right_digits length Mint last].
    change (1000 ^ Z.of_nat 0) with 1.
    split; [constructor|]. split; [reflexivity|]. lia.
  - inversion Hok as [|? ? Hk Hr]; subst.
    destruct (IH k Hr ltac:(lia)) as (Ho & Hl & Hm).
    cbn [shift_right_digits length Mint].
    change (last (above :: k :: r) 0) with (last (k :: r) 0).
    assert (Hd : 0 <= above mod 10 < 10) by (apply Z.mod_pos_bound; lia).
    assert (Hq : 0 <= k / 10 < 100)
      by (Z.to_euclidean_division_equations; lia).
    rewrite kint_small by lia.
    split; [constructor; [lia | exact Ho]|].
    split; [rewrite Hl; reflexivity|].
    rewrite Hl, pow1000_S.
    pose proof (Z.div_mod k 10 ltac:(lia)) as Hk10.
    set (P := 1000 ^ Z.of_nat (length r)) in *.
    set (M := Mint (shift_right_digits 10 100 k r)) in *.
    set (ld := last (k :: r) 0 mod 10) in *.
    set (q := k / 10) in *. set (d := k mod 10) in *.
    set (a := above mod 10) in *.
    replace ((q + a * 100) * P + M) with (q * P + a * 100 * P + M) by ring.
    assert (E : M * 10 = d * P + Mint r - ld) by lia.
    replace ((q * P + a * 100 * P + M) * 10)
      with (q * 10 * P + a * 1000 * P + M * 10) by ring.
    rewrite E, Hk10. ring.
Qed.

Lemma add_swapped : forall Settings x y,
  exponent x < exponent y ->
  exponent (decimal.add Settings x y) = exponent (decimal.add Settings y x) /\
  kigs (decimal.add Settings x y) = kigs (decimal.add Settings y x).
Proof.
  intros Settings x y Hlt. unfold decimal.add.
  destruct (Z.ltb_spec (exponent x) (exponent y)) as [_|Hge]; [|lia].
  destruct (Z.ltb_spec (exponent y) (exponent x)) as [Hlt'|_]; [lia|].
  match goal with |- context [(?a <? ?b)%nat] => destruct (a <? b)%nat end;
    [split; reflexivity|].
  match goal with
  | |- context [decimal.add_loop ?a ?b ?c ?d ?e ?f ?g ?h ?i] =>
      destruct (decimal.add_loop a b c d e f g h i) as [rb c0]
  end.
  destruct (negb (c0 =? 0)); [|split; reflexivity].
  destruct (carry_width 5 c0 10 1) as [hm ei]. split; reflexivity.
Qed.

Lemma scale_of_kigits : forall (e : Z) (n : nat),
  (inject_Z 10 ^ e
   == inject_Z 10 ^ (e - 3 * Z.of_nat n) * inject_Z (1000 ^ Z.of_nat n))%Q.
Proof.
  intros e n.
  replace e with (e - 3 * Z.of_nat n + 3 * Z.of_nat n) at 1 by lia.
  rewrite pow10_add. rewrite <- (Zpower_Qpower 10 (3 * Z.of_nat n)) by lia.
  rewrite pow10_cubed. reflexivity.
Qed.

(** The magnitude of a decimal in units of its last kigit. *)
Lemma magnitude_in_units : forall ty e ks,
  (magnitude (mk_decimal ty e ks)
   == inject_Z (Mint ks)
      * inject_Z 10 ^ (e - 3 * Z.of_nat (length ks)))%Q.
Proof.
  intros ty e ks. unfold magnitude. cbn [kigs exponent].
  rewrite (scale_of_kigits e (length ks)).
  rewrite <- (mantissa_Mint ks). ring.
Qed.

Lemma add_bounds_ordered : forall Settings tx ex xb ty ey yb,
  kigits_ok xb -> kigits_ok yb -> ey <= ex ->
  - 2 ^ 31 <= ex < 2 ^ 31 - 1 ->
  let r := decimal.add Settings (mk_decimal tx ex xb) (mk_decimal ty ey yb) in
  let K := Nat.min ((Precision Settings + 2) / 3)
             (Nat.max (length xb)
                (length yb + (Z.to_nat (ex - ey) + 2) / 3)) in
  let S := (mantissa xb * inject_Z 10 ^ ex
            + mantissa yb * inject_Z 10 ^ ey)%Q in
  (magnitude r <= S
   /\ S < magnitude r + 2 * inject_Z 10 ^ (exponent r - 3 * Z.of_nat K))%Q.
Proof.
  intros Settings tx ex xb ty ey yb Hx Hy Hle Hint r K S.
  subst r. unfold decimal.add. cbn [type exponent kigs].
  destruct (Z.ltb_spec ex ey) as [Hlt|_]; [lia|].
  fold K.
  set (yshift := Z.to_nat (ex - ey)) in *.
  set (kshift := (yshift / 3)%nat) in *.
  pose proof (mantissa_range xb Hx) as Hmx.
  pose proof (mantissa_range yb Hy) as Hmy.
  pose proof (pow10_positive ex) as HE.
  pose proof (pow10_positive ey) as HEy.
  destruct (Nat.ltb_spec K kshift) as [Hneg|Hin].
  - (* y is negligible *)
    cbn [exponent]. unfold magnitude. cbn [kigs exponent]. fold S.
    assert (Hgap : ey < ex - 3 * Z.of_nat K).
    { pose proof (Nat.div_mod_eq yshift 3). fold kshift in H.
      assert (Z.of_nat yshift = ex - ey) by (unfold yshift; lia). lia. }
    pose proof (pow10_step _ _ Hgap) as Hstep.
    pose proof (pow10_positive (ex - 3 * Z.of_nat K)) as Hu.
    assert (H1 : (mantissa yb * inject_Z 10 ^ ey <= 1 * inject_Z 10 ^ ey)%Q).
    { apply Qmult_le_compat_r; [lra | apply Qlt_le_weak, HEy]. }
    assert (H0 : (0 <= mantissa yb * inject_Z 10 ^ ey)%Q).
    { apply Qmult_le_0_compat; [lra | apply Qlt_le_weak, HEy]. }
    unfold S. lra.
  - assert (Hm3 : (yshift mod 3 < 3)%nat) by (apply Nat.mod_upper_bound; lia).
    destruct (hmul_lmul_cases _ Hm3) as [Hcases _].
    set (mod3 := Z.of_nat (yshift mod 3)) in *.
    set (hmul := decimal.hmul_of mod3) in *.
    set (lmul := kint (1000 / hmul)) in *.
    destruct (add_loop_horner xb yb kshift mod3 hmul lmul Hx Hy Hcases K [] 0)
      as (rb & c & Hloop & Hok & Hlen & Hc & Heq).
    { constructor. } { lia. }
    cbn [Mint length] in Heq. rewrite Nat.add_0_r in Hlen. rewrite Hlen in Heq.
    change (1000 ^ Z.of_nat 0) with 1 in Heq.
    pose proof (add_columns_bounds xb yb ex ey K Hx Hy Hle) as Hb.
    cbv zeta in Hb. fold yshift kshift mod3 hmul lmul S in Hb.
    specialize (Hb Hin).
    set (N := horner (add_column xb yb kshift hmul lmul) K) in *.
    pose proof (pow10_positive (ex - 3 * Z.of_nat K)) as Hu.
    rewrite Hloop.
    assert (Hc01 : c = 0 \/ c = 1) by lia.
    destruct Hc01 as [Hc0|Hc1]; subst c.
    + (* no carry *)
      cbn [Z.eqb negb exponent].
      destruct (strip_trailing_spec rb Hok) as (_ & _ & Hstrip).
      assert (Hmag : (magnitude (mk_decimal tx ex (strip_trailing rb))
                      == inject_Z N * inject_Z 10 ^ (ex - 3 * Z.of_nat K))%Q).
      { unfold magnitude. cbn [kigs exponent]. rewrite Hstrip.
        pose proof (magnitude_in_units tx ex rb) as Hm.
        unfold magnitude in Hm. cbn [kigs exponent] in Hm.
        rewrite Hm, Hlen. replace N with (Mint rb) by lia. reflexivity. }
      rewrite Hmag.
      set (u := (inject_Z 10 ^ (ex - 3 * Z.of_nat K))%Q) in *. lra.
    + (* a carry out of the top kigit *)
      change (negb (1 =? 0)) with true. cbv iota.
      change (carry_width 5 1 10 1) with (10, 1). cbv iota beta.
      change (kint (1000 / 10)) with 100.
      rewrite (cint_small (ex + 1)) by lia. cbn [exponent].
      destruct (shift_right_one_digit rb 1 Hok ltac:(lia)) as (Ho & Hl & Hm).
      change (1 mod 10) with 1 in Hm. rewrite Hlen in Hm.
      destruct (strip_trailing_spec _ Ho) as (_ & _ & Hstrip).
      assert (Hld : 0 <= last (1 :: rb) 0 mod 10 < 10)
        by (apply Z.mod_pos_bound; lia).
      set (ld := last (1 :: rb) 0 mod 10) in *.
      set (sh := shift_right_digits 10 100 1 rb) in *.
      assert (Hu10 : (inject_Z 10 ^ (ex + 1 - 3 * Z.of_nat K)
                      == 10 * inject_Z 10 ^ (ex - 3 * Z.of_nat K))%Q).
      { replace (ex + 1 - 3 * Z.of_nat K) with (1 + (ex - 3 * Z.of_nat K))
          by lia.
        rewrite pow10_add. reflexivity. }
      assert (Hmag : (magnitude (mk_decimal tx (ex + 1) (strip_trailing sh))
                      == (inject_Z N - inject_Z ld)
                         * inject_Z 10 ^ (ex - 3 * Z.of_nat K))%Q).
      { unfold magnitude. cbn [kigs exponent]. rewrite Hstrip.
        pose proof (magnitude_in_units tx (ex + 1) sh) as Hmu.
        unfold magnitude in Hmu. cbn [kigs exponent] in Hmu.
        rewrite Hmu, Hl, Hlen, Hu10.
        assert (HN : N = Mint sh * 10 + ld) by lia.
        rewrite HN, inject_Z_plus, inject_Z_mult.
        change (inject_Z 10) with 10%Q. ring. }
      rewrite Hmag, Hu10.
      assert (Hldq : (0 <= inject_Z ld <= 9)%Q).
      { split.
        - change 0%Q with (inject_Z 0). rewrite <- Zle_Qle. lia.
        - change 9%Q with (inject_Z 9). rewrite <- Zle_Qle. lia. }
      set (u := (inject_Z 10 ^ (ex - 3 * Z.of_nat K))%Q) in *.
      set (Nq := inject_Z N) in *. set (lq := inject_Z ld) in *.
      assert (H1 : (0 <= lq * u)%Q)
        by (apply Qmult_le_0_compat; [lra | apply Qlt_le_weak, Hu]).
      assert (H2 : (lq * u <= 9 * u)%Q)
        by (apply Qmult_le_compat_r; [lra | apply Qlt_le_weak, Hu]).
      lra.
Qed.

(** X27.  [add] never returns more than the exact sum of the magnitudes,
    and less than two units of its last kigit below it: with [K] kigits in
    the result (those the sum needs, at most those the precision gives),
    the result is within 2 * 10^(e - 3K) of the sum, where [e] is the
    exponent of the result.  This covers operands of any length, an
    operand too small to count, and the digit dropped when the sum
    carries.  The exponents are taken between -2^30 and 2^30, so that
    neither their difference nor the exponent raised by a carry leaves
    the range of an [int]. *)
Theorem add_error_bound : forall Settings x y,
  wf x -> wf y ->
  small_exponent x -> small_exponent y ->
  let r := decimal.add Settings x y in
  let K := Nat.min ((Precision Settings + 2) / 3) (sum_kigits x y) in
  (magnitude r <= magnitude x + magnitude y
   /\ magnitude x + magnitude y
      < magnitude r + 2 * inject_Z 10 ^ (exponent r - 3 * Z.of_nat K))%Q.
Proof.
  intros Settings [tx ex xb] [ty ey yb] [_ Hx] [_ Hy] Ix Iy r K.
  unfold small_exponent in Ix, Iy.
  cbn [kigs exponent] in Hx, Hy, Ix, Iy.
  change (2 ^ 30) with 1073741824 in *.
  assert (H31 : 2 ^ 31 = 2147483648) by reflexivity.
  unfold sum_kigits in K. cbn [exponent kigs] in K.
  destruct (Z.ltb_spec ex ey) as [Hlt|Hge].
  - destruct (add_swapped Settings (mk_decimal tx ex xb) (mk_decimal ty ey yb)
                Hlt) as [He Hk].
    fold r in He, Hk.
    assert (Hmag : (magnitude r
                    == magnitude (decimal.add Settings (mk_decimal ty ey yb)
                                    (mk_decimal tx ex xb)))%Q).
    { unfold magnitude. rewrite He, Hk. reflexivity. }
    rewrite Hmag, He.
    rewrite (Qplus_comm (magnitude (mk_decimal tx ex xb))).
    apply (add_bounds_ordered Settings ty ey yb tx ex xb Hy Hx ltac:(lia)
             ltac:(lia)).
  - apply (add_bounds_ordered Settings tx ex xb ty ey yb Hx Hy Hge ltac:(lia)).
Qed.

Lemma add_error_bound_witness :
  Qle (magnitude (decimal.add default_settings
                    (mk_decimal ID_decimal 1 [999])
                    (mk_decimal ID_decimal 1 [999])))
      (Qplus (magnitude (mk_decimal ID_decimal 1 [999]))
             (magnitude (mk_decimal ID_decimal 1 [999])))
  /\ Qlt (Qplus (magnitude (mk_decimal ID_decimal 1 [999]))
                (magnitude (mk_decimal ID_decimal 1 [999])))
         (Qplus (magnitude (decimal.add default_settings
                              (mk_decimal ID_decimal 1 [999])
                              (mk_decimal ID_decimal 1 [999])))
                (Qmult 2 (Qpower (inject_Z 10) (-1)))).
Proof.
  apply (add_error_bound default_settings
           (mk_decimal ID_decimal 1 [999]) (mk_decimal ID_decimal 1 [999]));
    try (split; [reflexivity | repeat constructor; lia]);
    unfold small_exponent; cbn; lia.
Defined.


(** ** Conditional loops *)

Section ConditionalLoopProperties.

Variable heap : Type.
Variable evaluate : object -> loop.runtime heap -> result * loop.runtime heap.
Variable interrupted : loop.runtime heap -> bool.
Variable as_truth : object -> Z.

Abbreviation DoUntil_evaluate :=
  (loop.DoUntil_evaluate heap evaluate interrupted as_truth).
Abbreviation WhileRepeat_evaluate :=
  (loop.WhileRepeat_evaluate heap evaluate interrupted as_truth).
Abbreviation after_body := (loop_spec.after_body heap evaluate).
Abbreviation after_step := (loop_spec.after_step heap evaluate).
Abbreviation repeated := (loop_spec.repeated heap).
Abbreviation truth_left := (loop_tests.truth_left heap evaluate as_truth).
Abbreviation DoUntil_turn := (loop_tests.DoUntil_turn heap evaluate).
Abbreviation WhileRepeat_turn := (loop_tests.WhileRepeat_turn heap evaluate).

(** What [conditional_loop::condition] does after a condition that left
    an object of truth value [t]. *)
Lemma condition_after_test : forall cond rt t,
  truth_left cond rt = Some t ->
  loop.condition heap as_truth (after_body cond rt)
  = (if 0 <=? t then OK else ERROR, (0 <=? t) && negb (t =? 0),
     after_step cond rt).
Proof.
  intros cond rt t Ht. unfold loop_tests.truth_left in Ht.
  unfold loop.condition, loop_spec.after_step, loop.pop.
  destruct (loop.stack heap (after_body cond rt)) as [|c tl];
    cbn [hd_error option_map] in Ht; [discriminate|].
  injection Ht as Ht. rewrite Ht.
  destruct (0 <=? t); reflexivity.
Qed.

Lemma DoUntil_round_tested : forall body cond rt t,
  fst (evaluate body rt) = OK ->
  fst (evaluate cond (after_body body rt)) = OK ->
  truth_left cond (after_body body rt) = Some t ->
  loop.DoUntil_round heap evaluate as_truth body cond rt
  = if t =? 0 then loop.Continue (DoUntil_turn body cond rt)
    else loop.Break (if 0 <? t then OK else ERROR, DoUntil_turn body cond rt).
Proof.
  intros body cond rt t Hb Hc Ht.
  unfold loop.DoUntil_round, loop_tests.DoUntil_turn.
  pose proof (condition_after_test cond (after_body body rt) t Ht) as Hcond.
  unfold loop_spec.after_body in *.
  destruct (evaluate body rt) as [r rt1]. cbn [fst snd] in *. subst r.
  cbn [result_eqb negb].
  destruct (evaluate cond rt1) as [r rt2]. cbn [fst snd] in *. subst r.
  cbn [result_eqb negb]. rewrite Hcond.
  destruct (Z.eqb_spec t 0) as [->|Hne]; [reflexivity|].
  destruct (Z.leb_spec 0 t); destruct (Z.ltb_spec 0 t); try lia; reflexivity.
Qed.

(** X28.  DO body UNTIL cond END evaluates the body, then the condition,
    and pops what the condition left, round after round, as long as that
    is an object of truth value 0.  It runs the body at least once, ends
    with OK after the first round whose condition is true, and ends with
    an error after a round whose condition left something that has no
    truth value. *)
Theorem DoUntil_runs_until_true :
  forall body cond t n rt fuel,
    (forall i, (i <= n)%nat ->
       let r := repeated (DoUntil_turn body cond) i rt in
       interrupted r = false /\
       fst (evaluate body r) = OK /\
       fst (evaluate cond (after_body body r)) = OK /\
       truth_left cond (after_body body r)
       = Some (if (i <? n)%nat then 0 else t)) ->
    t <> 0 -> (n < fuel)%nat ->
    DoUntil_evaluate fuel (mk_conditional_loop body cond) rt
    = Some (if 0 <? t then OK else ERROR,
            repeated (DoUntil_turn body cond) (S n) rt).
Proof.
  intros body cond t n; induction n as [|n IH]; intros rt fuel H Ht Hfuel;
    (destruct fuel as [|fuel]; [lia|]);
    unfold loop.DoUntil_evaluate; cbn [loop.while_loop first second];
    destruct (H 0%nat ltac:(lia)) as (Hpoll & Hb & Hc & Htr);
    cbn [loop_spec.repeated] in Hpoll, Hb, Hc, Htr; rewrite Hpoll;
    rewrite (DoUntil_round_tested body cond rt _ Hb Hc Htr).
  - cbn [Nat.ltb Nat.leb]. destruct (Z.eqb_spec t 0); [lia|]. reflexivity.
  - change (0 <? S n)%nat with true. cbn [Z.eqb].
    cbn [loop_spec.repeated].
    apply (IH (DoUntil_turn body cond rt) fuel); [|exact Ht|lia].
    intros i Hi. specialize (H (S i) ltac:(lia)).
    cbn [loop_spec.repeated] in H.
    change (S i <? S n)%nat with (i <? n)%nat in H. exact H.
Qed.

Lemma WhileRepeat_round_tested : forall cond body rt t,
  fst (evaluate cond rt) = OK ->
  truth_left cond rt = Some t ->
  loop.WhileRepeat_round heap evaluate as_truth cond body rt
  = if 0 <? t
    then (if result_eqb (fst (evaluate body (after_step cond rt))) OK
          then loop.Continue (WhileRepeat_turn cond body rt)
          else loop.Break (fst (evaluate body (after_step cond rt)),
                           WhileRepeat_turn cond body rt))
    else loop.Break (if t =? 0 then OK else ERROR, after_step cond rt).
Proof.
  intros cond body rt t Hc Ht.
  unfold loop.WhileRepeat_round, loop_tests.WhileRepeat_turn.
  pose proof (condition_after_test cond rt t Ht) as Hcond.
  unfold loop_spec.after_body in *.
  destruct (evaluate cond rt) as [r rt1]. cbn [fst snd] in *. subst r.
  cbn [result_eqb negb]. rewrite Hcond.
  destruct (Z.ltb_spec 0 t) as [Hpos|Hle].
  - destruct (Z.leb_spec 0 t); [|lia]. destruct (Z.eqb_spec t 0); [lia|].
    cbn [result_eqb negb andb orb].
    destruct (evaluate body (after_step cond rt)) as [r rt3]. cbn [fst snd].
    destruct (result_eqb r OK); reflexivity.
  - destruct (Z.eqb_spec t 0) as [->|Hne]; [reflexivity|].
    destruct (Z.leb_spec 0 t); [lia|]. reflexivity.
Qed.

(** X29.  WHILE cond REPEAT body END evaluates the condition and pops what
    it left, and evaluates the body only if that is true.  The body runs
    once per round whose condition is true, and not at all when the first
    condition is false; the loop ends with OK at the first false condition
    and with an error at a condition that left something without a truth
    value. *)
Theorem WhileRepeat_runs_while_true :
  forall cond body t n rt fuel,
    (forall i, (i < n)%nat ->
       let r := repeated (WhileRepeat_turn cond body) i rt in
       interrupted r = false /\
       fst (evaluate cond r) = OK /\
       (exists ti, 0 < ti /\ truth_left cond r = Some ti) /\
       fst (evaluate body (after_step cond r)) = OK) ->
    (let r := repeated (WhileRepeat_turn cond body) n rt in
     interrupted r = false /\
     fst (evaluate cond r) = OK /\
     truth_left cond r = Some t) ->
    t <= 0 -> (n < fuel)%nat ->
    WhileRepeat_evaluate fuel (mk_conditional_loop cond body) rt
    = Some (if t =? 0 then OK else ERROR,
            after_step cond (repeated (WhileRepeat_turn cond body) n rt)).
Proof.
  intros cond body t n; induction n as [|n IH];
    intros rt fuel H Hlast Ht Hfuel;
    (destruct fuel as [|fuel]; [lia|]);
    unfold loop.WhileRepeat_evaluate; cbn [loop.while_loop first second].
  - cbv zeta in Hlast. cbn [loop_spec.repeated] in Hlast.
    destruct Hlast as (Hpoll & Hc & Htr). rewrite Hpoll.
    rewrite (WhileRepeat_round_tested cond body rt t Hc Htr).
    destruct (Z.ltb_spec 0 t); [lia|]. reflexivity.
  - destruct (H 0%nat ltac:(lia)) as (Hpoll & Hc & (ti & Hti & Htr) & Hb).
    cbn [loop_spec.repeated] in Hpoll, Hc, Htr, Hb. rewrite Hpoll.
    rewrite (WhileRepeat_round_tested cond body rt ti Hc Htr).
    destruct (Z.ltb_spec 0 ti); [|lia].
    rewrite Hb. cbn [result_eqb].
    cbn [loop_spec.repeated].
    apply (IH (WhileRepeat_turn cond body rt) fuel); [|exact Hlast|exact Ht|lia].
    intros i Hi. exact (H (S i) ltac:(lia)).
Qed.

End ConditionalLoopProperties.

Lemma DoUntil_runs_until_true_witness :
  loop.DoUntil_evaluate nat count_and_test never int_value 4
    (mk_conditional_loop a_body a_test) (loop.mk_runtime nat [] [] 0%nat)
  = Some (OK, loop.mk_runtime nat [] [] 3%nat).
Proof.
  rewrite (DoUntil_runs_until_true nat count_and_test never int_value
             a_body a_test 1 2 (loop.mk_runtime nat [] [] 0%nat) 4%nat);
    try lia.
  - reflexivity.
  - intros i Hi.
    do 3 (destruct i as [|i]; [repeat split; reflexivity|]). lia.
Defined.

Lemma WhileRepeat_runs_while_true_witness :
  loop.WhileRepeat_evaluate nat count_and_test never int_value 4
    (mk_conditional_loop another_test a_body) (loop.mk_runtime nat [] [] 0%nat)
  = Some (OK, loop.mk_runtime nat [] [] 2%nat).
Proof.
  rewrite (WhileRepeat_runs_while_true nat count_and_test never int_value
             another_test a_body 0 2 (loop.mk_runtime nat [] [] 0%nat) 4%nat);
    try lia.
  - reflexivity.
  - intros i Hi.
    do 2 (destruct i as [|i];
          [split; [reflexivity|]; split; [reflexivity|];
           split; [exists 1; split; [lia | reflexivity] | reflexivity]|]).
    lia.
  - repeat split; reflexivity.
Defined.
